(** * AsciiBird: the frame loop of a terminal Flappy Bird, verified

    A shallow embedding of [driver_comentarios-pt-br.c]: the two structs
    [vpipe] and [flappy], the global counters, and the functions
    [pipe_refresh], [get_orow], [get_flappy_position], [crashed_into_pipe],
    [failure_screen], [draw_flappy], [draw_pipe], [draw_floor_and_ceiling]
    and the body of the [while] loop of [main].

    Machine model.  [int] is a 32-bit two's complement integer, carried as a
    [Z] that every arithmetic operation wraps back into range.  [float] and
    [double] are IEEE-754 binary32 and binary64 with round-to-nearest-even,
    every operation rounded to the type C gives it (FLT_EVAL_METHOD = 0, no
    fused multiply-add); the operations are those of the standard library's
    [SpecFloat].  The C library and ncurses are outside the program: every
    value they hand back ([rand], [getch]) is an input of the model. *)

From Stdlib Require Import ZArith Bool List Lia Ascii.
From Stdlib Require Import Floats.SpecFloat.
Import ListNotations.
Local Open Scope Z_scope.

(* ================================================================= *)
(** ** 32-bit [int] and 8-bit [char] *)

Module CInt.

Definition INT_MIN : Z := -2147483648.
Definition INT_MAX : Z := 2147483647.

(** Reduction of a mathematical integer to the [int] it is stored as. *)
Definition wrap (z : Z) : Z := (z + 2147483648) mod 4294967296 - 2147483648.

Definition add (a b : Z) : Z := wrap (a + b).
Definition sub (a b : Z) : Z := wrap (a - b).
Definition mul (a b : Z) : Z := wrap (a * b).
(** C division and remainder truncate toward zero. *)
Definition div (a b : Z) : Z := wrap (Z.quot a b).
Definition rem (a b : Z) : Z := Z.rem a b.

Definition in_range (z : Z) : Prop := INT_MIN <= z <= INT_MAX.

(** [char ch = getch();] keeps the low byte (a signed [char]). *)
Definition to_char (z : Z) : Z := (z + 128) mod 256 - 128.

End CInt.

Notation "a +i b" := (CInt.add a b) (at level 50, left associativity).
Notation "a -i b" := (CInt.sub a b) (at level 50, left associativity).
Notation "a *i b" := (CInt.mul a b) (at level 40, left associativity).
Notation "a /i b" := (CInt.div a b) (at level 40, left associativity).
Notation "a %i b" := (CInt.rem a b) (at level 40, left associativity).

(* ================================================================= *)
(** ** [float] and [double] *)

Module FP.

(** Both types are carried by [spec_float]; the operations fix the format. *)
Definition float := spec_float.
Definition double := spec_float.

Definition fadd : float -> float -> float := SFadd 24 128.
Definition fsub : float -> float -> float := SFsub 24 128.
Definition fmul : float -> float -> float := SFmul 24 128.
Definition fdiv : float -> float -> float := SFdiv 24 128.

Definition dadd : double -> double -> double := SFadd 53 1024.
Definition dmul : double -> double -> double := SFmul 53 1024.
Definition ddiv : double -> double -> double := SFdiv 53 1024.

(** Conversions.  An [int] always fits the exponent range; it is rounded
    when it has more bits than the mantissa. *)
Definition float_of_int (z : Z) : float := binary_normalize 24 128 z 0 false.
Definition double_of_int (z : Z) : double := binary_normalize 53 1024 z 0 false.

Definition double_of_float (x : float) : double :=
  match x with
  | S754_finite s m e => binary_round 53 1024 s m e
  | _ => x
  end.

Definition float_of_double (x : double) : float :=
  match x with
  | S754_finite s m e => binary_round 24 128 s m e
  | _ => x
  end.

(** The integer part of a finite number, toward zero. *)
Definition truncate (x : spec_float) : option Z :=
  match x with
  | S754_zero _ => Some 0
  | S754_finite s m e =>
      let a := if 0 <=? e then Zpos m * 2 ^ e else Zpos m / 2 ^ (- e) in
      Some (if s then - a else a)
  | _ => None
  end.

(** [(int) x].  C leaves the conversion undefined when the integer part
    does not fit an [int]; the model returns what the x86-64 conversion
    instructions return then, the "integer indefinite" value [INT_MIN]. *)
Definition int_of_float (x : spec_float) : Z :=
  match truncate x with
  | Some v =>
      if (CInt.INT_MIN <=? v) && (v <=? CInt.INT_MAX) then v else CInt.INT_MIN
  | None => CInt.INT_MIN
  end.

(** [a < b] and [a <= b] on floating-point values. *)
Definition lt (a b : spec_float) : bool := SFltb a b.
Definition le (a b : spec_float) : bool := SFleb a b.

(** A decimal literal [n / d] of type [double]: the nearest double. *)
Definition dlit (n d : Z) : double := ddiv (double_of_int n) (double_of_int d).

End FP.

Import FP.

(* ================================================================= *)
(** ** The program's constants *)

(** [const float GRAV = 0.05;] the literal is a double, stored as a float. *)
Definition GRAV : float := Eval vm_compute in float_of_double (dlit 5 100).
(** [const float V0 = -0.5;] *)
Definition V0 : float := Eval vm_compute in float_of_double (SFopp (dlit 5 10)).
Definition NUM_ROWS : Z := 24.
Definition NUM_COLS : Z := 80.
Definition PIPE_RADIUS : Z := 3.
Definition OPENING_WIDTH : Z := 7.
Definition FLAPPY_COL : Z := 10.
Definition SCORE_START_COL : Z := 62.

(** The literals [0.5], [0.25], [1.2] and [1.75] of the source. *)
Definition d_0_5 : double := Eval vm_compute in dlit 5 10.
Definition d_0_25 : double := Eval vm_compute in dlit 25 100.
Definition d_1_2 : double := Eval vm_compute in dlit 12 10.
Definition d_1_75 : double := Eval vm_compute in dlit 175 100.

(** The bounds 0.25 and 0.75 of an opening, as floats. *)
Definition f_0_25 : float := Eval vm_compute in float_of_double (dlit 25 100).
Definition f_0_75 : float := Eval vm_compute in float_of_double (dlit 75 100).

(** [KEY_UP] of <ncurses.h> (octal 0403) and the character ['q']. *)
Definition KEY_UP : Z := 259.
Definition CHAR_q : Z := 113.

(* ================================================================= *)
(** ** Data *)

Record vpipe := mk_vpipe {
  opening_height : float;
  center : Z
}.

Record flappy := mk_flappy {
  h0 : Z;
  t : Z
}.

(** The global variables of the program. *)
Record globals := mk_globals {
  frame : Z;
  score : Z;
  sdigs : Z;
  best_score : Z;
  bdigs : Z;
  p1 : vpipe;
  p2 : vpipe
}.

Definition set_score (v : Z) (g : globals) : globals :=
  mk_globals (frame g) v (sdigs g) (best_score g) (bdigs g) (p1 g) (p2 g).
Definition set_sdigs (v : Z) (g : globals) : globals :=
  mk_globals (frame g) (score g) v (best_score g) (bdigs g) (p1 g) (p2 g).
Definition set_best_score (v : Z) (g : globals) : globals :=
  mk_globals (frame g) (score g) (sdigs g) v (bdigs g) (p1 g) (p2 g).
Definition set_bdigs (v : Z) (g : globals) : globals :=
  mk_globals (frame g) (score g) (sdigs g) (best_score g) v (p1 g) (p2 g).
Definition set_frame (v : Z) (g : globals) : globals :=
  mk_globals v (score g) (sdigs g) (best_score g) (bdigs g) (p1 g) (p2 g).
Definition set_p1 (p : vpipe) (g : globals) : globals :=
  mk_globals (frame g) (score g) (sdigs g) (best_score g) (bdigs g) p (p2 g).
Definition set_p2 (p : vpipe) (g : globals) : globals :=
  mk_globals (frame g) (score g) (sdigs g) (best_score g) (bdigs g) (p1 g) p.

(** The values the globals are initialised with; [p1] and [p2] have no
    initialiser and start zeroed. *)
Definition zero_pipe : vpipe := mk_vpipe (S754_zero false) 0.
Definition initial_globals : globals :=
  mk_globals 0 0 1 0 1 zero_pipe zero_pipe.

(** A call either returns (a value and the globals it leaves) or ends the
    process through [exit(0)]. *)
Inductive outcome (A : Type) : Type :=
| Exited (g : globals)
| Returned (v : A) (g : globals).
Arguments Exited {A} g.
Arguments Returned {A} v g.

(* ================================================================= *)
(** ** The functions of the source *)

(** [rand() / ((float) INT_MAX) * 0.5 + 0.25], stored in a [float];
    [r] is the value [rand()] returned. *)
Definition random_opening (r : Z) : float :=
  float_of_double
    (dadd (dmul (double_of_float (fdiv (float_of_int r) (float_of_int CInt.INT_MAX)))
                d_0_5)
          d_0_25).

(** [pipe_refresh(&p)]: [p] is one of the two global pipes, [r] what
    [rand()] returns if it is called. *)
Definition pipe_refresh (r : Z) (p : vpipe) (g : globals) : vpipe * globals :=
  let '(p, g) :=
    if center p +i PIPE_RADIUS <? 0 then
      let p := mk_vpipe (random_opening r) (NUM_COLS +i PIPE_RADIUS) in
      let g := set_score (score g +i 1) g in
      let g :=
        if (sdigs g =? 1) && (score g >? 9) then set_sdigs (sdigs g +i 1) g
        else if (sdigs g =? 2) && (score g >? 99) then set_sdigs (sdigs g +i 1) g
        else g in
      (p, g)
    else (p, g) in
  (mk_vpipe (opening_height p) (center p -i 1), g).

(** [get_orow(p, top)]: float arithmetic, converted to [int] on return. *)
Definition get_orow (p : vpipe) (top : Z) : Z :=
  int_of_float
    (fsub (fmul (opening_height p) (float_of_int (NUM_ROWS -i 1)))
          (float_of_int ((if top =? 0 then -1 else 1) *i OPENING_WIDTH /i 2))).

(** [get_flappy_position(f)]: [f.h0 + V0 * f.t] is a [float] sum,
    [0.5 * GRAV * f.t * f.t] a [double] product, their sum a [double]. *)
Definition get_flappy_position (f : flappy) : Z :=
  int_of_float
    (dadd (double_of_float (fadd (float_of_int (h0 f)) (fmul V0 (float_of_int (t f)))))
          (dmul (dmul (dmul d_0_5 (double_of_float GRAV)) (double_of_int (t f)))
                (double_of_int (t f)))).

Definition crashed_into_pipe (f : flappy) (p : vpipe) : Z :=
  if (FLAPPY_COL >=? center p -i PIPE_RADIUS -i 1) &&
     (FLAPPY_COL <=? center p +i PIPE_RADIUS +i 1) then
    if (get_flappy_position f >=? get_orow p 1 +i 1) &&
       (get_flappy_position f <=? get_orow p 0 -i 1) then 0
    else 1
  else 0.

(** [failure_screen()]: [key] is what the blocking [getch()] returns. *)
Definition failure_screen (key : Z) (g : globals) : outcome Z :=
  let ch := CInt.to_char key in
  if ch =? CHAR_q then Exited g
  else
    let g := if score g >? best_score g then set_best_score (score g) g else g in
    let g :=
      if (bdigs g =? 1) && (best_score g >? 9) then set_bdigs (bdigs g +i 1) g
      else if (bdigs g =? 2) && (best_score g >? 99) then set_bdigs (bdigs g +i 1) g
      else g in
    let g := set_score 0 g in
    let g := set_sdigs 1 g in
    Returned 1 g.

(** The test of line 190 of [draw_flappy], on the row [h]. *)
Definition hits_floor_or_ceiling (h : Z) : bool :=
  (h <=? 0) || (h >=? NUM_ROWS - 1).

(** What [draw_flappy] writes with [mvprintw]: row, column, character. *)
Definition cell : Type := Z * Z * ascii.

(** [GRAV * f.t + V0 > 0]: the bird is going down. *)
Definition descending (f : flappy) : bool :=
  lt (float_of_int 0) (fadd (fmul GRAV (float_of_int (t f))) V0).

Definition flappy_glyph (fr : Z) (f : flappy) (h : Z) : list cell :=
  if descending f then
    [ (h, FLAPPY_COL -i 1, "\"%char); (h -i 1, FLAPPY_COL -i 2, "\"%char);
      (h, FLAPPY_COL, "0"%char);
      (h, FLAPPY_COL +i 1, "/"%char); (h -i 1, FLAPPY_COL +i 2, "/"%char) ]
  else
    (if fr %i 6 <? 3
     then [ (h, FLAPPY_COL -i 1, "/"%char); (h +i 1, FLAPPY_COL -i 2, "/"%char) ]
     else [ (h, FLAPPY_COL -i 1, "\"%char); (h -i 1, FLAPPY_COL -i 2, "\"%char) ])
    ++ [ (h, FLAPPY_COL, "0"%char) ]
    ++ (if fr %i 6 <? 3
        then [ (h, FLAPPY_COL +i 1, "\"%char); (h +i 1, FLAPPY_COL +i 2, "\"%char) ]
        else [ (h, FLAPPY_COL +i 1, "/"%char); (h -i 1, FLAPPY_COL +i 2, "/"%char) ]).

(** [draw_flappy(f)]: the result and the cells written when the bird is
    drawn; [key] is the key read by [failure_screen] if it is reached. *)
Definition draw_flappy (key : Z) (f : flappy) (g : globals) : outcome Z * list cell :=
  let h := get_flappy_position f in
  if hits_floor_or_ceiling h then (failure_screen key g, [])
  else if negb (crashed_into_pipe f (p1 g) =? 0) || negb (crashed_into_pipe f (p2 g) =? 0)
  then (failure_screen key g, [])
  else (Returned 0 g, flappy_glyph (frame g) f h).

(** The local variables of [main] that live across iterations. *)
Record locals := mk_locals {
  bird : flappy;
  restart : bool
}.

(** What the environment supplies during one iteration of the loop: the key
    polled by [getch()], the values of the two [rand()] calls of a restart,
    of the [rand()] call of each [pipe_refresh], and the key typed on the
    failure screen.  A value is used only if its call is made. *)
Record frame_input := mk_input {
  key_polled : Z;
  rand_start1 : Z;
  rand_start2 : Z;
  rand_pipe1 : Z;
  rand_pipe2 : Z;
  key_failure : Z
}.

(** The [if (restart)] block of [main]. *)
Definition start_game (i : frame_input) (g : globals) : globals * flappy :=
  let q1 := mk_vpipe (random_opening (rand_start1 i))
              (int_of_float (dmul d_1_2 (double_of_int (NUM_COLS -i 1)))) in
  let q2 := mk_vpipe (random_opening (rand_start2 i))
              (int_of_float (dmul d_1_75 (double_of_int (NUM_COLS -i 1)))) in
  (set_p2 q2 (set_p1 q1 g), mk_flappy (NUM_ROWS /i 2) 0).

(** The boost of [case KEY_UP]. *)
Definition boost (f : flappy) : flappy :=
  mk_flappy (get_flappy_position f) 0.

(** One iteration of the [while] loop of [main].  The calls that only write
    to the terminal ([clear], [draw_floor_and_ceiling], [draw_pipe], the
    score line, [refresh]) and [usleep] leave the state alone and are left
    out. *)
Definition main_loop_body (i : frame_input) (g : globals) (l : locals)
  : outcome locals :=
  let '(g, f) := if restart l then start_game i g else (g, bird l) in
  if key_polled i =? CHAR_q then Exited g
  else
    let f := if key_polled i =? KEY_UP then boost f
             else mk_flappy (h0 f) (t f +i 1) in
    let '(q1, g) := pipe_refresh (rand_pipe1 i) (p1 g) g in
    let g := set_p1 q1 g in
    let '(q2, g) := pipe_refresh (rand_pipe2 i) (p2 g) g in
    let g := set_p2 q2 g in
    match fst (draw_flappy (key_failure i) f g) with
    | Exited g => Exited g
    | Returned v g =>
        if negb (v =? 0) then Returned (mk_locals f true) g
        else Returned (mk_locals f false) (set_frame (frame g +i 1) g)
    end.

(** The state [main] enters the loop with: [restart = 1], the globals as
    initialised; the local [f] is not yet set and holds anything. *)
Definition entry_state (f : flappy) : globals * locals :=
  (initial_globals, mk_locals f true).

(** A run of the loop over a list of inputs; [None] once the process has
    exited. *)
Fixpoint run (inputs : list frame_input) (s : globals * locals)
  : option (globals * locals) :=
  match inputs with
  | [] => Some s
  | i :: rest =>
      match main_loop_body i (fst s) (snd s) with
      | Exited _ => None
      | Returned l g => run rest (g, l)
      end
  end.

(** The states the loop can be in at the top of an iteration. *)
Inductive reachable : globals * locals -> Prop :=
| reach_entry : forall f, reachable (entry_state f)
| reach_step : forall i g l g' l',
    reachable (g, l) ->
    main_loop_body i g l = Returned l' g' ->
    reachable (g', l').

(* ================================================================= *)
(** ** Drawing the pipes, the floor and the ceiling *)

(** A [for] loop that writes to the screen,
    [for (i = start; test(i); i = next(i)) body(i)]: what the bodies wrote,
    in order, and the value [i] is left with; [None] when the loop is still
    running after [fuel] tests. *)
Fixpoint for_loop (fuel : nat) (test : Z -> bool) (next : Z -> Z)
    (body : Z -> list cell) (i : Z) : option (list cell * Z) :=
  match fuel with
  | O => None
  | S k =>
      if test i then
        match for_loop k test next body (next i) with
        | Some (cs, j) => Some (body i ++ cs, j)
        | None => None
        end
      else Some ([], i)
  end.

(** [draw_floor_and_ceiling(ceiling_row, floor_row, ch, spacing, col_start)].
    A cell [(row, col, ch)] stands for the call [mvprintw(row, col, c)] on
    the string [c] that [chtostr] made of the character [ch]; [fuel] bounds
    the number of rounds of the loop, which [spacing] decides. *)
Definition draw_floor_and_ceiling (fuel : nat) (g : globals)
    (ceiling_row floor_row : Z) (ch : ascii) (spacing col_start : Z)
  : option (list cell) :=
  match for_loop fuel (fun i => i <? NUM_COLS -i 1) (fun i => i +i spacing)
          (fun i =>
             (if i <? SCORE_START_COL -i sdigs g -i bdigs g
              then [(ceiling_row, i, ch)] else [])
             ++ [(floor_row, i, ch)])
          col_start with
  | Some (cs, _) => Some cs
  | None => None
  end.

(** The body of the two vertical loops of [draw_pipe]: the walls of the
    pipe on row [i], each written if its column is on the screen. *)
Definition pipe_walls (p : vpipe) (vch : ascii) (i : Z) : list cell :=
  (if (center p -i PIPE_RADIUS >=? 0) && (center p -i PIPE_RADIUS <? NUM_COLS -i 1)
   then [(i, center p -i PIPE_RADIUS, vch)] else [])
  ++
  (if (center p +i PIPE_RADIUS >=? 0) && (center p +i PIPE_RADIUS <? NUM_COLS -i 1)
   then [(i, center p +i PIPE_RADIUS, vch)] else []).

(** The body of the two horizontal loops of [draw_pipe]: one character of
    the end of the pipe on row [row], at offset [i] from the centre. *)
Definition pipe_cap (p : vpipe) (hch : ascii) (row i : Z) : list cell :=
  if (center p +i i >=? 0) && (center p +i i <? NUM_COLS -i 1)
  then [(row, center p +i i, hch)] else [].

(** [draw_pipe(p, vch, hcht, hchb, ceiling_row, floor_row)]: the four
    loops in turn, each given [fuel] rounds; [upper_terminus] and
    [lower_terminus] are the values the vertical loops leave [i] with. *)
Definition draw_pipe (fuel : nat) (p : vpipe) (vch hcht hchb : ascii)
    (ceiling_row floor_row : Z) : option (list cell) :=
  match for_loop fuel (fun i => i <? get_orow p 1) (fun i => i +i 1)
          (pipe_walls p vch) (ceiling_row +i 1) with
  | None => None
  | Some (upper, upper_terminus) =>
  match for_loop fuel (fun i => i <=? PIPE_RADIUS) (fun i => i +i 1)
          (pipe_cap p hcht upper_terminus) (- PIPE_RADIUS) with
  | None => None
  | Some (upper_end, _) =>
  match for_loop fuel (fun i => i >? get_orow p 0) (fun i => i -i 1)
          (pipe_walls p vch) (floor_row -i 1) with
  | None => None
  | Some (lower, lower_terminus) =>
  match for_loop fuel (fun i => i <=? PIPE_RADIUS) (fun i => i +i 1)
          (pipe_cap p hchb lower_terminus) (- PIPE_RADIUS) with
  | None => None
  | Some (lower_end, _) => Some (upper ++ upper_end ++ lower ++ lower_end)
  end end end end.

(** The width the counters [sdigs] and [bdigs] stand for: the number of
    decimal digits of a score, three at most. *)
Definition width_of (s : Z) : Z :=
  if s <? 10 then 1 else if s <? 100 then 2 else 3.

(** The values [rand()] can return: from 0 to [RAND_MAX], which is at most
    [INT_MAX]. *)
Definition rand_ok (i : frame_input) : Prop :=
  0 <= rand_start1 i <= CInt.INT_MAX /\ 0 <= rand_start2 i <= CInt.INT_MAX /\
  0 <= rand_pipe1 i <= CInt.INT_MAX /\ 0 <= rand_pipe2 i <= CInt.INT_MAX.

(** A pipe whose opening is one that [rand()] can give. *)
Definition generated (p : vpipe) : Prop :=
  exists r, 0 <= r <= CInt.INT_MAX /\ opening_height p = random_opening r.

(* ================================================================= *)
(** ** Sample games

    Inputs on which the theorems are instantiated.  [rand()] returns 2^30
    throughout, which makes every opening one half: the opening has its
    edges on rows 8 and 14. *)

(** A frame with no key pressed ([getch()] returns [ERR], that is -1); if
    the frame ends on the failure screen, the key typed there is Enter. *)
Definition idle_frame : frame_input :=
  mk_input (-1) 1073741824 1073741824 1073741824 1073741824 10.

(** A frame with the up arrow pressed. *)
Definition flap_frame : frame_input :=
  mk_input KEY_UP 1073741824 1073741824 1073741824 1073741824 10.

(** A frame with no key pressed, and ['q'] typed on the failure screen if
    the frame ends there. *)
Definition quit_frame : frame_input :=
  mk_input (-1) 1073741824 1073741824 1073741824 1073741824 CHAR_q.

(** [n] times twenty frames without a key and a flap: the bird goes from
    row 12 up to row 9 and back to row 12, through the opening of every
    pipe. *)
Definition hover (n : nat) : list frame_input :=
  concat (repeat (repeat idle_frame 20 ++ [flap_frame]) n).

(* ================================================================= *)
(** ** Values of floating-point numbers

    The proofs read a finite [spec_float] as the integer it is worth on a
    fixed binary scale: with scale [K], the number [m * 2^e] is worth
    [m * 2^(e + K)].  On that scale rounding is characterised by what it
    cannot do: it never crosses a number the format represents. *)

(** The number of binary digits of a mantissa. *)
Definition digits (m : positive) : Z := Zpos (digits2_pos m).

(** Invariant of the shift register while [m] is shifted right by [k]: it
    holds the quotient, and its two remainder bits are clear when the
    division is exact. *)
Definition shifted (m k : Z) (r : shr_record) : Prop :=
  shr_m r = m / 2 ^ k /\ (shr_r r || shr_s r = true -> m mod 2 ^ k <> 0).

(** [x] is zero or a normal number of the format, worth [v] on scale [K]. *)
Definition normal (prec emax K : Z) (x : spec_float) (v : Z) : Prop :=
  match x with
  | S754_zero _ => v = 0
  | S754_finite s m e =>
      digits m = prec /\ 0 <= e + K /\ e <= emax - prec /\
      v = cond_Zopp s (Zpos m * 2 ^ (e + K))
  | _ => False
  end.

(** [v] is worth a number whose mantissa fits [prec] bits. *)
Definition representable (prec : Z) (v : Z) : Prop :=
  exists a j, 0 <= j /\ Z.abs a < 2 ^ prec /\ v = a * 2 ^ j.

(** [v] is a rounding of [x], which is given on a scale [J] bits finer:
    every two representable numbers that enclose [x] enclose [v]. *)
Definition bracketed (prec J x v : Z) : Prop :=
  forall lo hi, representable prec lo -> representable prec hi ->
    lo * 2 ^ J <= x <= hi * 2 ^ J -> lo <= v <= hi.


(* ================================================================= *)
(** ** Machine integers *)

Lemma wrap_id (z : Z) : CInt.in_range z -> CInt.wrap z = z.
Proof.
  unfold CInt.in_range, CInt.INT_MIN, CInt.INT_MAX, CInt.wrap. intros H.
  rewrite Z.mod_small; lia.
Qed.

Lemma wrap_in_range (z : Z) : CInt.in_range (CInt.wrap z).
Proof.
  unfold CInt.in_range, CInt.INT_MIN, CInt.INT_MAX, CInt.wrap.
  pose proof (Z.mod_pos_bound (z + 2147483648) 4294967296). lia.
Qed.

Lemma int_add_exact (a b : Z) : CInt.in_range (a + b) -> a +i b = a + b.
Proof. apply wrap_id. Qed.

Lemma int_sub_exact (a b : Z) : CInt.in_range (a - b) -> a -i b = a - b.
Proof. apply wrap_id. Qed.

Lemma wrap_spec (z : Z) :
  exists k, CInt.wrap z = z + k * 4294967296 /\ -2147483648 <= CInt.wrap z <= 2147483647.
Proof.
  exists (- ((z + 2147483648) / 4294967296)).
  unfold CInt.wrap. Z.div_mod_to_equations. lia.
Qed.

(** Replaces every wrapped subterm of the goal by an integer variable tied
    to it by [wrap_spec], innermost first. *)
Ltac unwrap :=
  unfold CInt.add, CInt.sub, CInt.mul in *;
  repeat match goal with
         | |- context [CInt.wrap ?z] =>
             lazymatch z with
             | context [CInt.wrap _] => fail
             | _ => let k := fresh "k" in let w := fresh "w" in
                    let Hk := fresh "Hk" in let Hw := fresh "Hw" in
                    destruct (wrap_spec z) as (k & Hk & Hw);
                    set (w := CInt.wrap z) in *; clearbody w
             end
         end.

(** The column test of [crashed_into_pipe] is the interval test it looks
    like for every [int] centre, also where an end of the interval wraps. *)
Lemma column_test (c : Z) :
  CInt.in_range c ->
  (FLAPPY_COL >=? c -i PIPE_RADIUS -i 1) && (FLAPPY_COL <=? c +i PIPE_RADIUS +i 1) = true
  <-> c - PIPE_RADIUS - 1 <= FLAPPY_COL <= c + PIPE_RADIUS + 1.
Proof.
  unfold CInt.in_range, CInt.INT_MIN, CInt.INT_MAX, FLAPPY_COL, PIPE_RADIUS.
  intros Hc. rewrite andb_true_iff, Z.geb_le, Z.leb_le.
  unwrap. lia.
Qed.

(* ================================================================= *)
(** ** Rounding in [SpecFloat] *)

Lemma digits_size (m : positive) : digits2_pos m = Pos.size m.
Proof. induction m; simpl; congruence. Qed.

Lemma digits_pos (m : positive) : 1 <= digits m.
Proof. unfold digits. lia. Qed.

Lemma digits_bounds (m : positive) :
  2 ^ (digits m - 1) <= Zpos m < 2 ^ digits m.
Proof.
  unfold digits. rewrite digits_size. split.
  - pose proof (Pos.size_le m) as H.
    apply Pos2Z.pos_le_pos in H. rewrite Pos2Z.inj_pow in H.
    change (Zpos m~0) with (2 * Zpos m) in H.
    replace (Zpos (Pos.size m)) with (Zpos (Pos.size m) - 1 + 1) in H by lia.
    rewrite Z.pow_add_r in H by lia. change (2 ^ 1) with 2 in H. lia.
  - pose proof (Pos.size_gt m) as H.
    apply Pos2Z.pos_lt_pos in H. rewrite Pos2Z.inj_pow in H. exact H.
Qed.

Lemma digits_unique (m : positive) (k : Z) :
  2 ^ (k - 1) <= Zpos m < 2 ^ k -> digits m = k.
Proof.
  intros [L U]. pose proof (digits_bounds m) as [L' U'].
  pose proof (digits_pos m) as P.
  assert (0 < k).
  { destruct (Z_lt_le_dec 0 k); [assumption|].
    assert (2 ^ k <= 2 ^ 0) by (apply Z.pow_le_mono_r; lia). simpl in *. lia. }
  destruct (Z_lt_le_dec (digits m) k) as [A|A].
  - assert (2 ^ digits m <= 2 ^ (k - 1)) by (apply Z.pow_le_mono_r; lia). lia.
  - destruct (Z_lt_le_dec k (digits m)) as [B|B]; [|lia].
    assert (2 ^ k <= 2 ^ (digits m - 1)) by (apply Z.pow_le_mono_r; lia). lia.
Qed.

Lemma shr_1_shifted (m k : Z) (r : shr_record) :
  0 <= m -> 0 <= k -> shifted m k r -> shifted m (k + 1) (shr_1 r).
Proof.
  intros Hm Hk [M S]. destruct r as [a rb sb]. cbn [shr_m shr_r shr_s] in *.
  assert (P : 0 < 2 ^ k) by (apply Z.pow_pos_nonneg; lia).
  assert (D : m / 2 ^ (k + 1) = a / 2).
  { rewrite Z.pow_add_r, <- Z.div_div by lia. rewrite M. reflexivity. }
  assert (Q : rb || sb = true -> m mod 2 ^ (k + 1) <> 0).
  { intros H X. apply S; [exact H|].
    apply Z.mod_divide in X; [|lia]. apply Z.mod_divide; [lia|].
    destruct X as [c X]. exists (c * 2). rewrite X, Z.pow_add_r by lia. ring. }
  assert (O : Z.odd a = true -> m mod 2 ^ (k + 1) <> 0).
  { intros H X. apply Z.mod_divide in X; [|lia]. destruct X as [c X].
    assert (E : a = 2 * c).
    { rewrite M, X, Z.pow_add_r by lia.
      replace (c * (2 ^ k * 2 ^ 1)) with (2 * c * 2 ^ k) by ring.
      apply Z.div_mul. lia. }
    rewrite E, Z.odd_mul in H. discriminate. }
  assert (A : 0 <= a) by (rewrite M; apply Z.div_pos; lia).
  unfold shifted. rewrite D.
  destruct a as [|[p|p|]|p]; try lia; cbn [shr_1 shr_m shr_r shr_s orb].
  - split; [reflexivity|]. intros H. apply Q. 
    destruct rb, sb; try reflexivity; discriminate.
  - split; [rewrite Pos2Z.inj_xI; apply Z.div_unique with 1; lia|].
    intros _. apply O. reflexivity.
  - split; [rewrite Pos2Z.inj_xO; apply Z.div_unique with 0; lia|].
    intros H. apply Q. destruct rb, sb; try reflexivity; discriminate.
  - split; [reflexivity|]. intros _. apply O. reflexivity.
Qed.

Lemma iter_shr_shifted (p : positive) :
  forall (m k : Z) (r : shr_record),
  0 <= m -> 0 <= k -> shifted m k r -> shifted m (k + Zpos p) (iter_pos shr_1 p r).
Proof.
  induction p as [p IH|p IH|]; intros m k r Hm Hk H; cbn [iter_pos].
  - replace (k + Zpos p~1) with (k + 1 + Zpos p + Zpos p) by lia.
    apply IH; [lia|lia|]. apply IH; [lia|lia|]. apply shr_1_shifted; assumption.
  - replace (k + Zpos p~0) with (k + Zpos p + Zpos p) by lia.
    apply IH; [lia|lia|]. apply IH; assumption.
  - apply shr_1_shifted; assumption.
Qed.

Section Rounding.
Variables prec emax : Z.
Hypothesis Hprec : 1 < prec.

Lemma fexp_normal (e : Z) :
  emin prec emax <= e - prec -> fexp prec emax e = e - prec.
Proof. unfold fexp. lia. Qed.

Lemma shr_fexp_same (m : positive) (e : Z) :
  digits m = prec -> emin prec emax <= e ->
  shr_fexp prec emax (Zpos m) e loc_Exact
  = ({| shr_m := Zpos m; shr_r := false; shr_s := false |}, e).
Proof.
  intros D E. unfold shr_fexp. cbn [Zdigits2 shr_record_of_loc].
  fold (digits m). rewrite D, fexp_normal by lia.
  replace (prec + e - prec - e) with 0 by lia. reflexivity.
Qed.

Lemma shr_fexp_shift (m : positive) (e : Z) :
  0 < digits m - prec -> emin prec emax <= e + (digits m - prec) ->
  exists r, shr_fexp prec emax (Zpos m) e loc_Exact = (r, e + (digits m - prec))
            /\ shifted (Zpos m) (digits m - prec) r.
Proof.
  intros N E. unfold shr_fexp. cbn [Zdigits2 shr_record_of_loc].
  fold (digits m). rewrite fexp_normal by lia.
  replace (digits m + e - prec - e) with (digits m - prec) by lia.
  destruct (digits m - prec) as [|p|p] eqn:Hn; try lia.
  cbn [shr]. eexists. split; [reflexivity|].
  replace (Zpos p) with (0 + Zpos p) at 1 by lia.
  apply iter_shr_shifted; [lia|lia|].
  split; cbn [shr_m shr_r shr_s orb].
  - rewrite Z.pow_0_r, Z.div_1_r. reflexivity.
  - discriminate.
Qed.

Lemma round_value_cases (a : Z) (r s : bool) :
  let q := round_nearest_even a
             (loc_of_shr_record {| shr_m := a; shr_r := r; shr_s := s |}) in
  a <= q <= a + 1 /\ (r || s = false -> q = a).
Proof.
  destruct r, s; cbn; try (destruct (Z.even a)); split; try lia;
    intros; try reflexivity; discriminate.
Qed.

Lemma binary_round_aux_normal (s : bool) (mx : positive) (ex : Z) :
  let n := digits mx - prec in
  let e0 := ex + n in
  0 <= n -> emin prec emax <= e0 -> e0 + 1 <= emax - prec ->
  exists m' e',
    binary_round_aux prec emax s (Zpos mx) ex loc_Exact = S754_finite s m' e'
    /\ digits m' = prec /\ e0 <= e' <= e0 + 1
    /\ Zpos mx / 2 ^ n <= Zpos m' * 2 ^ (e' - e0) <= Zpos mx / 2 ^ n + 1
    /\ (Zpos mx mod 2 ^ n = 0 -> Zpos m' * 2 ^ (e' - e0) = Zpos mx / 2 ^ n).
Proof.
  intros n e0 Hn Hmin Hmax.
  pose proof (digits_bounds mx) as [DL DU].
  unfold binary_round_aux.
  destruct (Z.eq_dec n 0) as [Z0|NZ].
  - (* the mantissa already has [prec] digits *)
    assert (D : digits mx = prec) by (unfold n in Z0; lia).
    assert (E0 : e0 = ex) by (unfold e0; lia).
    rewrite shr_fexp_same by lia. cbn [shr_m loc_of_shr_record round_nearest_even].
    rewrite shr_fexp_same by lia. cbn [shr_m].
    replace (ex <=? emax - prec) with true by (symmetry; apply Z.leb_le; lia).
    exists mx, ex. rewrite E0, Z0, Z.sub_diag, Z.pow_0_r, Z.div_1_r, Z.mul_1_r.
    repeat split; try lia. 
  - destruct (shr_fexp_shift mx ex) as (r & -> & [M S]); [lia | fold n; fold e0; lia |].
    fold n in M, S. fold n. fold e0.
    assert (P : 0 < 2 ^ n) by (apply Z.pow_pos_nonneg; lia).
    destruct r as [a rb sb]. cbn [shr_m shr_r shr_s] in *.
    pose proof (round_value_cases a rb sb) as [Q1 Q2]. cbv zeta in Q1, Q2.
    set (q := round_nearest_even a
                (loc_of_shr_record {| shr_m := a; shr_r := rb; shr_s := sb |})) in *.
    assert (A : 2 ^ (prec - 1) <= a < 2 ^ prec).
    { rewrite M. split.
      - apply Z.div_le_lower_bound; [lia|].
        rewrite <- Z.pow_add_r by lia. replace (n + (prec - 1)) with (digits mx - 1) by (unfold n; lia).
        exact DL.
      - apply Z.div_lt_upper_bound; [lia|].
        rewrite <- Z.pow_add_r by lia. replace (n + prec) with (digits mx) by (unfold n; lia).
        exact DU. }
    assert (P1 : 0 < 2 ^ (prec - 1)) by (apply Z.pow_pos_nonneg; lia).
    assert (P2 : 2 ^ prec = 2 * 2 ^ (prec - 1)).
    { replace prec with (1 + (prec - 1)) at 1 by lia. rewrite Z.pow_add_r by lia. reflexivity. }
    assert (Ex : Zpos mx mod 2 ^ n = 0 -> q = a).
    { intros X. apply Q2. destruct (rb || sb) eqn:B; [|reflexivity].
      exfalso. apply S; [reflexivity | exact X]. }
    destruct q as [|mq|mq] eqn:Hq; try lia.
    destruct (Z_lt_le_dec (Zpos mq) (2 ^ prec)) as [C|C].
    + assert (D : digits mq = prec) by (apply digits_unique; lia).
      rewrite shr_fexp_same by lia. cbn [shr_m].
      replace (e0 <=? emax - prec) with true by (symmetry; apply Z.leb_le; lia).
      exists mq, e0. rewrite Z.sub_diag, Z.pow_0_r, Z.mul_1_r, <- M.
      repeat split; try lia. 
    + assert (Eq : Zpos mq = 2 ^ prec) by lia.
      assert (D : digits mq = prec + 1).
      { apply digits_unique. replace (prec + 1 - 1) with prec by lia.
        rewrite Z.pow_add_r by lia. change (2 ^ 1) with 2. lia. }
      destruct (shr_fexp_shift mq e0) as (r & -> & [M' S']); [lia | lia |].
      rewrite D in M'. replace (prec + 1 - prec) with 1 in M' by lia.
      change (2 ^ 1) with 2 in M'.
      assert (M2 : shr_m r = 2 ^ (prec - 1)).
      { rewrite M', Eq, P2. rewrite Z.mul_comm. apply Z.div_mul. lia. }
      rewrite M2. destruct (2 ^ (prec - 1)) as [|mh|mh] eqn:Hh; try lia.
      rewrite D. replace (e0 + (prec + 1 - prec)) with (e0 + 1) by lia.
      replace (e0 + 1 <=? emax - prec) with true by (symmetry; apply Z.leb_le; lia).
      exists mh, (e0 + 1).
      replace (e0 + 1 - e0) with 1 by lia. change (2 ^ 1) with 2. rewrite <- M.
      split; [reflexivity|]. split; [apply digits_unique; rewrite <- Hh; lia|].
      split; [lia|]. split; [lia|]. intros X. specialize (Ex X). lia.
Qed.
End Rounding.

Lemma pow2_pos (k : Z) : 0 <= k -> 0 < 2 ^ k.
Proof. intros. apply Z.pow_pos_nonneg; lia. Qed.

Lemma pow2_le (a b : Z) : 0 <= a <= b -> 2 ^ a <= 2 ^ b.
Proof. intros. apply Z.pow_le_mono_r; lia. Qed.

Lemma representable_opp (prec v : Z) : representable prec v -> representable prec (- v).
Proof.
  intros (a & j & Hj & Ha & ->). exists (- a), j. rewrite Z.abs_opp.
  repeat split; try assumption. ring.
Qed.

Section Values.
Variables prec emax K : Z.
Hypothesis Hprec : 1 < prec.
Hypothesis HK : emin prec emax <= - K.

(** Rounding a positive mantissa never crosses a representable number. *)
Lemma round_aux_bracket (s : bool) (mx : positive) (ex J : Z) :
  let n := digits mx - prec in
  0 <= n -> 0 <= ex + n + K -> ex + n + 1 <= emax - prec ->
  0 <= J -> 0 <= ex + K + J ->
  exists v, normal prec emax K (binary_round_aux prec emax s (Zpos mx) ex loc_Exact)
                   (cond_Zopp s v)
            /\ 0 < v /\ bracketed prec J (Zpos mx * 2 ^ (ex + K + J)) v.
Proof.
  intros n Hn He0 Hmax HJ Hu.
  destruct (binary_round_aux_normal prec emax Hprec s mx ex)
    as (m' & e' & -> & D & E & Q1 & Q2); try (fold n; lia).
  fold n in E, Q1, Q2.
  set (e0 := ex + n) in *. set (u := ex + K + J) in *.
  set (q := Zpos m' * 2 ^ (e' - e0)) in *.
  pose proof (digits_bounds m') as [ML MU]. rewrite D in ML, MU.
  pose proof (digits_bounds mx) as [XL XU].
  assert (Pn : 0 < 2 ^ n) by (apply pow2_pos; lia).
  assert (Pu : 0 < 2 ^ u) by (apply pow2_pos; lia).
  assert (PJ : 0 < 2 ^ J) by (apply pow2_pos; lia).
  assert (Pp : 0 < 2 ^ (prec - 1)) by (apply pow2_pos; lia).
  assert (Pe : 0 < 2 ^ (e' - e0)) by (apply pow2_pos; lia).
  assert (Pun : 0 < 2 ^ u * 2 ^ n) by (apply Z.mul_pos_pos; assumption).
  assert (Qlow : 2 ^ (prec - 1) <= q).
  { apply Z.le_trans with (Zpos m' * 1); [lia|].
    unfold q. apply Z.mul_le_mono_nonneg_l; lia. }
  assert (V : Zpos m' * 2 ^ (e' + K) * 2 ^ J = q * (2 ^ u * 2 ^ n)).
  { unfold q. rewrite <- !Z.mul_assoc, <- !Z.pow_add_r by lia.
    f_equal. f_equal. unfold u, e0. lia. }
  assert (Pv : 0 < Zpos m' * 2 ^ (e' + K)).
  { apply Z.mul_pos_pos; [lia | apply pow2_pos; lia]. }
  exists (Zpos m' * 2 ^ (e' + K)). split; [|split].
  - cbn [normal]. repeat split; try assumption; try lia.
  - exact Pv.
  - intros lo hi (a & j & Hj & Ha & ->) (b & i & Hi & Hb & ->) [L U].
    split.
    + (* the lower bound *)
      destruct (Z_le_gt_dec a 0) as [A0|A0].
      { apply Z.le_trans with 0; [|lia].
        apply Z.mul_nonpos_nonneg; [lia | apply Z.pow_nonneg; lia]. }
      assert (Pj : 0 < 2 ^ j) by (apply pow2_pos; lia).
      apply (Z.mul_le_mono_pos_r _ _ (2 ^ J) PJ). rewrite V.
      destruct (Z_le_gt_dec (u + n) (j + J)) as [C|C].
      * set (w := j + J - (u + n)).
        assert (Pw : 0 < 2 ^ w) by (apply pow2_pos; unfold w; lia).
        assert (Ej : 2 ^ j * 2 ^ J = 2 ^ w * (2 ^ u * 2 ^ n)).
        { rewrite <- !Z.pow_add_r by (unfold w; lia). f_equal. unfold w. lia. }
        replace (a * 2 ^ j * 2 ^ J) with (a * 2 ^ w * (2 ^ u * 2 ^ n))
          by (rewrite <- Z.mul_assoc, <- Ej; ring).
        apply Z.mul_le_mono_nonneg_r; [lia|].
        apply Z.le_trans with (Zpos mx / 2 ^ n); [|lia].
        apply Z.div_le_lower_bound; [lia|].
        apply (Z.mul_le_mono_pos_r _ _ (2 ^ u) Pu).
        replace (2 ^ n * (a * 2 ^ w) * 2 ^ u) with (a * (2 ^ j * 2 ^ J))
          by (rewrite Ej; ring).
        rewrite Z.mul_assoc. exact L.
      * apply Z.le_trans with (2 ^ (prec - 1) * (2 ^ u * 2 ^ n)).
        -- apply Z.le_trans with (2 ^ prec * (2 ^ j * 2 ^ J)).
           ++ rewrite <- Z.mul_assoc. apply Z.mul_le_mono_nonneg_r; [|lia].
              apply Z.lt_le_incl, Z.mul_pos_pos; assumption.
           ++ rewrite <- !Z.pow_add_r by lia. apply pow2_le. lia.
        -- apply Z.mul_le_mono_nonneg_r; [lia | exact Qlow].
    + (* the upper bound *)
      assert (PX : 0 < Zpos mx * 2 ^ u) by (apply Z.mul_pos_pos; lia).
      assert (B0 : 0 < b).
      { destruct (Z_le_gt_dec b 0) as [B0|B0]; [|lia]. exfalso.
        assert (b * 2 ^ i * 2 ^ J <= 0); [|lia].
        apply Z.mul_nonpos_nonneg; [|lia].
        apply Z.mul_nonpos_nonneg; [lia | apply Z.pow_nonneg; lia]. }
      assert (Pi : 0 < 2 ^ i) by (apply pow2_pos; lia).
      apply (Z.mul_le_mono_pos_r _ _ (2 ^ J) PJ). rewrite V.
      destruct (Z_le_gt_dec (u + n) (i + J)) as [C|C].
      * set (w := i + J - (u + n)).
        assert (Pw : 0 < 2 ^ w) by (apply pow2_pos; unfold w; lia).
        assert (Ei : 2 ^ i * 2 ^ J = 2 ^ w * (2 ^ u * 2 ^ n)).
        { rewrite <- !Z.pow_add_r by (unfold w; lia). f_equal. unfold w. lia. }
        replace (b * 2 ^ i * 2 ^ J) with (b * 2 ^ w * (2 ^ u * 2 ^ n))
          by (rewrite <- Z.mul_assoc, <- Ei; ring).
        apply Z.mul_le_mono_nonneg_r; [lia|].
        assert (X1 : Zpos mx <= 2 ^ n * (b * 2 ^ w)).
        { apply (Z.mul_le_mono_pos_r _ _ (2 ^ u) Pu).
          replace (2 ^ n * (b * 2 ^ w) * 2 ^ u) with (b * (2 ^ i * 2 ^ J))
            by (rewrite Ei; ring).
          rewrite Z.mul_assoc. exact U. }
        destruct (Z_lt_le_dec (Zpos mx / 2 ^ n) (b * 2 ^ w)) as [F|F]; [lia|].
        assert (G : 2 ^ n * (b * 2 ^ w) <= 2 ^ n * (Zpos mx / 2 ^ n)).
        { apply Z.mul_le_mono_nonneg_l; lia. }
        pose proof (Z.mul_div_le (Zpos mx) (2 ^ n) Pn) as Xd.
        assert (M0 : Zpos mx mod 2 ^ n = 0).
        { rewrite Z.mod_eq by lia. lia. }
        specialize (Q2 M0).
        apply Z.mul_le_mono_pos_l with (p := 2 ^ n); [exact Pn|]. lia.
      * exfalso.
        assert (B1 : b * (2 ^ i * 2 ^ J) < 2 ^ prec * (2 ^ i * 2 ^ J)).
        { apply Z.mul_lt_mono_pos_r; [apply Z.mul_pos_pos; assumption | lia]. }
        assert (B2 : 2 ^ prec * (2 ^ i * 2 ^ J) <= 2 ^ (digits mx - 1) * 2 ^ u).
        { rewrite <- !Z.pow_add_r by lia. apply pow2_le. unfold n in *. lia. }
        assert (B3 : 2 ^ (digits mx - 1) * 2 ^ u <= Zpos mx * 2 ^ u).
        { apply Z.mul_le_mono_nonneg_r; lia. }
        rewrite Z.mul_assoc in B1. lia.
Qed.

Lemma iter_xO (m d : positive) : Zpos (Pos.iter xO m d) = Zpos m * 2 ^ Zpos d.
Proof.
  induction d as [|d IH] using Pos.peano_ind.
  - cbn [Pos.iter]. rewrite Pos2Z.inj_xO. change (2 ^ 1) with 2. ring.
  - rewrite Pos.iter_succ, Pos2Z.inj_xO, IH, Pos2Z.inj_succ, Z.pow_succ_r by lia. ring.
Qed.

Lemma shl_align_fst (m : positive) (e e' : Z) :
  e' <= e -> Zpos (fst (shl_align m e e')) = Zpos m * 2 ^ (e - e').
Proof.
  intros H. unfold shl_align. destruct (e' - e) as [|d|d] eqn:E; cbn [fst].
  - replace (e - e') with 0 by lia. lia.
  - lia.
  - rewrite iter_xO. f_equal. f_equal. lia.
Qed.

Lemma lower_bound_digits (m : positive) (k : Z) :
  0 <= k -> 2 ^ k <= Zpos m -> k + 1 <= digits m.
Proof.
  intros Hk H. pose proof (digits_bounds m) as [_ U]. pose proof (digits_pos m).
  destruct (Z_lt_le_dec k (digits m)) as [C|C]; [lia|].
  pose proof (pow2_le (digits m) k). lia.
Qed.

Lemma upper_bound_digits (m : positive) (k : Z) :
  Zpos m < 2 ^ k -> digits m <= k.
Proof.
  intros H. pose proof (digits_bounds m) as [L _]. pose proof (digits_pos m).
  destruct (Z_lt_le_dec k (digits m)) as [C|C]; [|lia].
  destruct (Z_lt_le_dec k 0) as [N|N].
  - rewrite Z.pow_neg_r in H by lia. lia.
  - pose proof (pow2_le k (digits m - 1)). lia.
Qed.

(** [binary_round] first aligns a short mantissa, then rounds. *)
Lemma round_bracket (s : bool) (m : positive) (e J : Z) :
  let e0 := digits m + e - prec in
  0 <= e0 + K -> e0 + 1 <= emax - prec -> 0 <= J -> 0 <= e + K + J ->
  exists v, normal prec emax K (binary_round prec emax s m e) (cond_Zopp s v)
            /\ 0 < v /\ bracketed prec J (Zpos m * 2 ^ (e + K + J)) v.
Proof.
  intros e0 He0 Hmax HJ Hu. unfold binary_round.
  fold (digits m). rewrite fexp_normal by lia. fold e0.
  unfold shl_align. destruct (e0 - e) as [|d|d] eqn:E.
  - apply round_aux_bracket; unfold e0 in *; lia.
  - apply round_aux_bracket; unfold e0 in *; lia.
  - assert (V : Zpos (Pos.iter xO m d) = Zpos m * 2 ^ Zpos d) by apply iter_xO.
    assert (D : digits (Pos.iter xO m d) = prec).
    { pose proof (digits_bounds m) as [L U]. pose proof (digits_pos m).
      apply digits_unique. rewrite V.
      assert (Pd : 0 < 2 ^ Zpos d) by (apply pow2_pos; lia).
      assert (E1 : 2 ^ (prec - 1) = 2 ^ (digits m - 1) * 2 ^ Zpos d).
      { rewrite <- Z.pow_add_r by lia. f_equal. unfold e0 in E. lia. }
      assert (E2 : 2 ^ prec = 2 ^ digits m * 2 ^ Zpos d).
      { rewrite <- Z.pow_add_r by lia. f_equal. unfold e0 in E. lia. }
      rewrite E1, E2. nia. }
    pose proof (round_aux_bracket s (Pos.iter xO m d) e0 J) as R.
    cbv zeta in R. rewrite D in R.
    destruct R as (v & N & P & B); try lia.
    exists v. split; [exact N|]. split; [exact P|].
    replace (Zpos m * 2 ^ (e + K + J)) with (Zpos (Pos.iter xO m d) * 2 ^ (e0 + K + J)).
    + exact B.
    + rewrite V, <- Z.mul_assoc, <- Z.pow_add_r by lia. f_equal. f_equal. lia.
Qed.

Lemma bracketed_zero (J : Z) : 0 <= J -> bracketed prec J 0 0.
Proof.
  intros HJ lo hi _ _ [L U]. pose proof (pow2_pos J HJ). nia.
Qed.

(** [binary_normalize]: the same for a signed mantissa. *)
Lemma normalize_bracket (z e J : Z) (sz : bool) :
  let x := z * 2 ^ (e + K + J) in
  0 <= J -> 0 <= e + K + J ->
  x = 0 \/ 2 ^ (prec - 1 + J) <= Z.abs x < 2 ^ (emax - 1 + K + J) ->
  exists v, normal prec emax K (binary_normalize prec emax z e sz) v
            /\ bracketed prec J x v /\ (0 < z -> 0 < v) /\ (z < 0 -> v < 0).
Proof.
  intros x HJ Hu Hx.
  assert (Pu : 0 < 2 ^ (e + K + J)) by (apply pow2_pos; lia).
  destruct z as [|m|m].
  - exists 0. cbn [binary_normalize normal]. split; [reflexivity|].
    split; [apply bracketed_zero; exact HJ | lia].
  - destruct Hx as [Hx|[L U]]; [unfold x in Hx; nia|].
    unfold x in L, U. rewrite Z.abs_eq in L, U by nia.
    pose proof (digits_bounds m) as [DL DU]. pose proof (digits_pos m).
    assert (A : 0 <= digits m + e - prec + K).
    { destruct (Z_lt_le_dec (digits m + e - prec + K) 0) as [C|C]; [|lia]. exfalso.
      assert (T : Zpos m * 2 ^ (e + K + J) < 2 ^ (digits m) * 2 ^ (e + K + J)) by nia.
      rewrite <- Z.pow_add_r in T by lia.
      pose proof (pow2_le (digits m + (e + K + J)) (prec - 1 + J)). lia. }
    assert (B : digits m + e - prec + 1 <= emax - prec).
    { destruct (Z_lt_le_dec (emax - prec) (digits m + e - prec + 1)) as [C|C]; [|lia].
      exfalso.
      assert (0 <= emax - 1 + K + J).
      { destruct (Z_lt_le_dec (emax - 1 + K + J) 0) as [N|N]; [|lia].
        rewrite (Z.pow_neg_r 2 (emax - 1 + K + J)) in U by lia. nia. }
      assert (T : 2 ^ (digits m - 1) * 2 ^ (e + K + J) <= Zpos m * 2 ^ (e + K + J)) by nia.
      rewrite <- Z.pow_add_r in T by lia.
      pose proof (pow2_le (emax - 1 + K + J) (digits m - 1 + (e + K + J))). lia. }
    destruct (round_bracket false m e J A B HJ Hu) as (v & N & P & Br).
    exists v. cbn [binary_normalize]. cbn [cond_Zopp] in N.
    split; [exact N|]. split; [exact Br|]. lia.
  - destruct Hx as [Hx|[L U]]; [unfold x in Hx; nia|].
    unfold x in L, U. rewrite Z.abs_neq in L, U by nia.
    replace (- (Zneg m * 2 ^ (e + K + J))) with (Zpos m * 2 ^ (e + K + J)) in L, U by lia.
    pose proof (digits_bounds m) as [DL DU]. pose proof (digits_pos m).
    assert (A : 0 <= digits m + e - prec + K).
    { destruct (Z_lt_le_dec (digits m + e - prec + K) 0) as [C|C]; [|lia]. exfalso.
      assert (T : Zpos m * 2 ^ (e + K + J) < 2 ^ (digits m) * 2 ^ (e + K + J)) by nia.
      rewrite <- Z.pow_add_r in T by lia.
      pose proof (pow2_le (digits m + (e + K + J)) (prec - 1 + J)). lia. }
    assert (B : digits m + e - prec + 1 <= emax - prec).
    { destruct (Z_lt_le_dec (emax - prec) (digits m + e - prec + 1)) as [C|C]; [|lia].
      exfalso.
      assert (0 <= emax - 1 + K + J).
      { destruct (Z_lt_le_dec (emax - 1 + K + J) 0) as [N|N]; [|lia].
        rewrite (Z.pow_neg_r 2 (emax - 1 + K + J)) in U by lia. nia. }
      assert (T : 2 ^ (digits m - 1) * 2 ^ (e + K + J) <= Zpos m * 2 ^ (e + K + J)) by nia.
      rewrite <- Z.pow_add_r in T by lia.
      pose proof (pow2_le (emax - 1 + K + J) (digits m - 1 + (e + K + J))). lia. }
    destruct (round_bracket true m e J A B HJ Hu) as (v & N & P & Br).
    exists (- v). cbn [binary_normalize]. cbn [cond_Zopp] in N.
    split; [exact N|]. split; [|lia].
    intros lo hi Rlo Rhi [Lo Hi].
    destruct (Br (- hi) (- lo)) as [X Y];
      [apply representable_opp; exact Rhi | apply representable_opp; exact Rlo | |lia].
    unfold x in Lo, Hi. lia.
Qed.
End Values.

Lemma bracketed_opp (prec J x v : Z) :
  bracketed prec J x v -> bracketed prec J (- x) (- v).
Proof.
  intros B lo hi Rlo Rhi [L U].
  destruct (B (- hi) (- lo)) as [X Y];
    [apply representable_opp; exact Rhi | apply representable_opp; exact Rlo | lia | lia].
Qed.

Lemma bracketed_same (prec x : Z) : bracketed prec 0 x x.
Proof. intros lo hi _ _. change (2 ^ 0) with 1. lia. Qed.

Lemma bracketed_exact (prec J w v : Z) :
  bracketed prec J (w * 2 ^ J) v -> representable prec w -> v = w.
Proof.
  intros B R. destruct (B w w R R); lia.
Qed.

Lemma cond_Zopp_mul (s : bool) (a b : Z) : cond_Zopp s a * b = cond_Zopp s (a * b).
Proof. destruct s; cbn; ring. Qed.

Lemma bracketed_cond_Zopp (prec J x v : Z) (s : bool) :
  bracketed prec J x v -> bracketed prec J (cond_Zopp s x) (cond_Zopp s v).
Proof. destruct s; cbn; [apply bracketed_opp | trivial]. Qed.

Section Operations.
Variables prec emax K : Z.
Hypothesis Hprec : 1 < prec.
Hypothesis HK : emin prec emax <= - K.
Hypothesis HK0 : 0 <= K.

Lemma normal_abs_bounds (s : bool) (m : positive) (e v : Z) :
  normal prec emax K (S754_finite s m e) v ->
  2 ^ (prec - 1) * 2 ^ (e + K) <= Z.abs v < 2 ^ prec * 2 ^ (e + K).
Proof.
  intros (D & E & _ & ->). pose proof (digits_bounds m) as [L U]. rewrite D in L, U.
  pose proof (pow2_pos (e + K) E).
  replace (Z.abs (cond_Zopp s (Zpos m * 2 ^ (e + K)))) with (Zpos m * 2 ^ (e + K))
    by (destruct s; cbn [cond_Zopp]; lia).
  nia.
Qed.

(** Addition. *)
Lemma add_bracket (x y : spec_float) (a b : Z) :
  normal prec emax K x a -> normal prec emax K y b ->
  a + b = 0 \/ 2 ^ (prec - 1) <= Z.abs (a + b) < 2 ^ (emax - 1 + K) ->
  exists v, normal prec emax K (SFadd prec emax x y) v /\ bracketed prec 0 (a + b) v.
Proof.
  intros Nx Ny H.
  destruct x as [sx| | |sx mx ex]; try contradiction;
  destruct y as [sy| | |sy my ey]; try contradiction.
  - cbn in Nx, Ny. subst. exists 0. split.
    + destruct sx, sy; cbn; reflexivity.
    + apply bracketed_zero; lia.
  - cbn in Nx. subst a. exists b. split; [exact Ny | apply bracketed_same].
  - cbn in Ny. subst b. rewrite Z.add_0_r. exists a. split; [exact Nx | apply bracketed_same].
  - destruct Nx as (Dx & Ex & Mx & ->). destruct Ny as (Dy & Ey & My & ->).
    cbn [SFadd]. cbv zeta.
    set (ez := Z.min ex ey).
    rewrite !shl_align_fst by (unfold ez; lia).
    set (z := cond_Zopp sx (Zpos mx * 2 ^ (ex - ez)) + cond_Zopp sy (Zpos my * 2 ^ (ey - ez))).
    assert (V : z * 2 ^ (ez + K + 0) =
                cond_Zopp sx (Zpos mx * 2 ^ (ex + K)) + cond_Zopp sy (Zpos my * 2 ^ (ey + K))).
    { unfold z. rewrite Z.add_0_r, Z.mul_add_distr_r, !cond_Zopp_mul.
      rewrite <- !Z.mul_assoc, <- !Z.pow_add_r by (unfold ez; lia).
      f_equal; f_equal; f_equal; f_equal; lia. }
    destruct (normalize_bracket prec emax K Hprec HK z ez 0 false) as (v & N & B & _).
    + lia.
    + unfold ez; lia.
    + rewrite V, !Z.add_0_r. exact H.
    + rewrite V in B. exists v. split; assumption.
Qed.

Lemma normal_opp (x : spec_float) (a : Z) : normal prec emax K x a -> normal prec emax K (SFopp x) (- a).
Proof.
  destruct x as [s| | |s m e]; cbn; try tauto.
  - lia.
  - intros (D & E & M & ->). repeat split; try assumption.
    destruct s; cbn; lia.
Qed.

(** Subtraction. *)
Lemma sub_bracket (x y : spec_float) (a b : Z) :
  normal prec emax K x a -> normal prec emax K y b ->
  a - b = 0 \/ 2 ^ (prec - 1) <= Z.abs (a - b) < 2 ^ (emax - 1 + K) ->
  exists v, normal prec emax K (SFsub prec emax x y) v /\ bracketed prec 0 (a - b) v.
Proof.
  intros Nx Ny H.
  destruct x as [sx| | |sx mx ex]; try contradiction;
  destruct y as [sy| | |sy my ey]; try contradiction.
  - cbn in Nx, Ny. subst. exists 0. split.
    + destruct sx, sy; cbn; reflexivity.
    + apply bracketed_zero; lia.
  - cbn in Nx. subst a. exists (- b). split.
    + exact (normal_opp _ _ Ny).
    + replace (0 - b) with (- b) by lia. apply bracketed_same.
  - cbn in Ny. subst b. rewrite Z.sub_0_r. exists a. split; [exact Nx | apply bracketed_same].
  - destruct Nx as (Dx & Ex & Mx & ->). destruct Ny as (Dy & Ey & My & ->).
    cbn [SFsub]. cbv zeta.
    set (ez := Z.min ex ey).
    rewrite !shl_align_fst by (unfold ez; lia).
    set (z := cond_Zopp sx (Zpos mx * 2 ^ (ex - ez)) - cond_Zopp sy (Zpos my * 2 ^ (ey - ez))).
    assert (V : z * 2 ^ (ez + K + 0) =
                cond_Zopp sx (Zpos mx * 2 ^ (ex + K)) - cond_Zopp sy (Zpos my * 2 ^ (ey + K))).
    { unfold z. rewrite Z.add_0_r, Z.mul_sub_distr_r, !cond_Zopp_mul.
      rewrite <- !Z.mul_assoc, <- !Z.pow_add_r by (unfold ez; lia).
      f_equal; f_equal; f_equal; f_equal; lia. }
    destruct (normalize_bracket prec emax K Hprec HK z ez 0 false) as (v & N & B & _).
    + lia.
    + unfold ez; lia.
    + rewrite V, !Z.add_0_r. exact H.
    + rewrite V in B. exists v. split; assumption.
Qed.

(** Multiplication: the exact product is on the scale [2 * K]. *)
Lemma mul_bracket (x y : spec_float) (a b : Z) :
  normal prec emax K x a -> normal prec emax K y b ->
  a * b = 0 \/ 2 ^ (prec - 1 + K) <= Z.abs (a * b) < 2 ^ (emax - 1 + K + K) ->
  exists v, normal prec emax K (SFmul prec emax x y) v /\ bracketed prec K (a * b) v.
Proof.
  intros Nx Ny H.
  destruct x as [sx| | |sx mx ex]; try contradiction;
  destruct y as [sy| | |sy my ey]; try contradiction.
  { cbn in Nx, Ny. subst a b. exists 0. split; [reflexivity|].
    apply bracketed_zero; lia. }
  { cbn in Nx. subst a. exists 0. split; [reflexivity|].
    rewrite Z.mul_0_l. apply bracketed_zero; lia. }
  { cbn in Ny. subst b. exists 0. split; [reflexivity|].
    rewrite Z.mul_0_r. apply bracketed_zero; lia. }
  pose proof (normal_abs_bounds _ _ _ _ Nx) as Ax.
  pose proof (normal_abs_bounds _ _ _ _ Ny) as Ay.
  destruct Nx as (Dx & Ex & Mx & ->). destruct Ny as (Dy & Ey & My & ->).
  cbn [SFmul].
  pose proof (digits_bounds mx) as [Lx Ux]. rewrite Dx in Lx, Ux.
  pose proof (digits_bounds my) as [Ly Uy]. rewrite Dy in Ly, Uy.
  pose proof (digits_bounds (mx * my)) as [Lp Up].
  assert (Pp : 0 < 2 ^ (prec - 1)) by (apply pow2_pos; lia).
  assert (Pe : 0 < 2 ^ (ex + ey + K + K)) by (apply pow2_pos; lia).
  set (X := Zpos (mx * my) * 2 ^ (ex + ey + K + K)).
  assert (V : cond_Zopp sx (Zpos mx * 2 ^ (ex + K)) * cond_Zopp sy (Zpos my * 2 ^ (ey + K))
              = cond_Zopp (xorb sx sy) X).
  { unfold X. rewrite Pos2Z.inj_mul.
    replace (ex + ey + K + K) with ((ex + K) + (ey + K)) by lia.
    rewrite (Z.pow_add_r 2 (ex + K) (ey + K)) by lia.
    destruct sx, sy; cbn [cond_Zopp xorb]; ring. }
  rewrite V in H.
  assert (PX : 0 < X) by (apply Z.mul_pos_pos; [lia | exact Pe]).
  assert (AX : Z.abs (cond_Zopp (xorb sx sy) X) = X).
  { destruct (xorb sx sy); cbn [cond_Zopp]; lia. }
  rewrite AX in H.
  destruct H as [H|[HL HU]]; [destruct (xorb sx sy); cbn [cond_Zopp] in H; lia|].
  assert (D1 : prec + (prec - 1) <= digits (mx * my)).
  { replace (prec + (prec - 1)) with ((prec - 1) + (prec - 1) + 1) by lia.
    apply lower_bound_digits; [lia|].
    rewrite Z.pow_add_r, Pos2Z.inj_mul by lia.
    apply Z.mul_le_mono_nonneg; lia. }
  assert (0 <= emax - 1 + K + K).
  { destruct (Z_lt_le_dec (emax - 1 + K + K) 0) as [N|N]; [|lia].
    rewrite (Z.pow_neg_r 2 (emax - 1 + K + K)) in HU by lia. lia. }
  assert (A : 0 <= ex + ey + (digits (mx * my) - prec) + K).
  { destruct (Z_lt_le_dec (ex + ey + (digits (mx * my) - prec) + K) 0) as [C|C]; [|lia].
    exfalso.
    assert (T : X < 2 ^ digits (mx * my) * 2 ^ (ex + ey + K + K))
      by (apply Z.mul_lt_mono_pos_r; [exact Pe | exact Up]).
    rewrite <- Z.pow_add_r in T by lia.
    pose proof (pow2_le (digits (mx * my) + (ex + ey + K + K)) (prec - 1 + K)). lia. }
  assert (B : ex + ey + (digits (mx * my) - prec) + 1 <= emax - prec).
  { destruct (Z_lt_le_dec (emax - prec) (ex + ey + (digits (mx * my) - prec) + 1)) as [C|C];
      [|lia]. exfalso.
    assert (T : 2 ^ (digits (mx * my) - 1) * 2 ^ (ex + ey + K + K) <= X)
      by (apply Z.mul_le_mono_nonneg_r; [lia | exact Lp]).
    rewrite <- Z.pow_add_r in T by lia.
    pose proof (pow2_le (emax - 1 + K + K) (digits (mx * my) - 1 + (ex + ey + K + K))). lia. }
  destruct (round_aux_bracket prec emax K Hprec HK (xorb sx sy) (mx * my) (ex + ey) K)
    as (v & N & P & Br); try lia.
  exists (cond_Zopp (xorb sx sy) v). split; [exact N|].
  rewrite V. apply bracketed_cond_Zopp.
  exact Br.
Qed.

(** Two normal numbers of the same sign compare as their values. *)
Lemma leb_normal (x y : spec_float) (a b : Z) :
  normal prec emax K x a -> normal prec emax K y b -> 0 < a -> 0 < b ->
  SFleb x y = true <-> a <= b.
Proof.
  intros Nx Ny Pa Pb.
  destruct x as [sx| | |sx mx ex]; try contradiction; [cbn in Nx; lia|].
  destruct y as [sy| | |sy my ey]; try contradiction; [cbn in Ny; lia|].
  pose proof (normal_abs_bounds _ _ _ _ Nx) as Ax.
  pose proof (normal_abs_bounds _ _ _ _ Ny) as Ay.
  destruct Nx as (Dx & Ex & Mx & Va). destruct Ny as (Dy & Ey & My & Vb).
  assert (Px : 0 < 2 ^ (ex + K)) by (apply pow2_pos; lia).
  assert (Py : 0 < 2 ^ (ey + K)) by (apply pow2_pos; lia).
  assert (sx = false) by (destruct sx; [cbn [cond_Zopp] in Va; nia | reflexivity]).
  assert (sy = false) by (destruct sy; [cbn [cond_Zopp] in Vb; nia | reflexivity]).
  subst sx sy. cbn [cond_Zopp] in Va, Vb.
  rewrite Z.abs_eq in Ax, Ay by lia.
  assert (P2 : 2 ^ prec = 2 * 2 ^ (prec - 1)).
  { replace prec with (1 + (prec - 1)) at 1 by lia. rewrite Z.pow_add_r by lia. reflexivity. }
  unfold SFleb, SFcompare.
  destruct (Z.compare_spec ex ey) as [E|E|E].
  - subst ey. fold (Pos.compare mx my). rewrite Va, Vb.
    destruct (Pos.compare_spec mx my) as [C|C|C].
    + subst. split; [lia | reflexivity].
    + split; [intros _; nia | reflexivity].
    + split; [discriminate | intros; exfalso; nia].
  - split; [intros _ | reflexivity].
    assert (2 ^ (ex + K) * 2 <= 2 ^ (ey + K)).
    { replace (ey + K) with ((ex + K) + 1 + (ey - ex - 1)) by lia.
      rewrite (Z.pow_add_r 2 (ex + K + 1) (ey - ex - 1)), (Z.pow_add_r 2 (ex + K) 1) by lia.
      pose proof (pow2_pos (ey - ex - 1)). change (2 ^ 1) with 2. nia. }
    nia.
  - split; [discriminate | intros; exfalso].
    assert (2 ^ (ey + K) * 2 <= 2 ^ (ex + K)).
    { replace (ex + K) with ((ey + K) + 1 + (ex - ey - 1)) by lia.
      rewrite (Z.pow_add_r 2 (ey + K + 1) (ex - ey - 1)), (Z.pow_add_r 2 (ey + K) 1) by lia.
      pose proof (pow2_pos (ex - ey - 1)). change (2 ^ 1) with 2. nia. }
    nia.
Qed.
End Operations.

(* ================================================================= *)
(** ** The floating-point expressions of the program *)

Lemma pow2_lt (a b : Z) : 0 <= a < b -> 2 ^ a < 2 ^ b.
Proof. intros. apply Z.pow_lt_mono_r; lia. Qed.

Lemma bracketed_exact0 (prec w v : Z) :
  bracketed prec 0 w v -> representable prec w -> v = w.
Proof.
  intros B R. destruct (B w w R R); change (2 ^ 0) with 1; lia.
Qed.

Lemma representable_scaled (prec z j : Z) :
  Z.abs z < 2 ^ prec -> 0 <= j -> representable prec (z * 2 ^ j).
Proof. intros A J. exists z, j. repeat split; assumption. Qed.

Lemma representable_scaled_le (prec z j : Z) :
  0 < prec -> Z.abs z <= 2 ^ prec -> 0 <= j -> representable prec (z * 2 ^ j).
Proof.
  intros P A J. destruct (Z_lt_le_dec (Z.abs z) (2 ^ prec)) as [C|C].
  - apply representable_scaled; assumption.
  - assert (1 < 2 ^ prec).
    { change 1 with (2 ^ 0). apply pow2_lt. lia. }
    exists (Z.sgn z), (prec + j). split; [lia|]. split.
    + destruct z; cbn [Z.sgn Z.abs]; lia.
    + rewrite Z.pow_add_r by lia.
      assert (z = Z.sgn z * 2 ^ prec) by (destruct z; cbn [Z.sgn Z.abs] in *; lia).
      rewrite H0 at 1. ring.
Qed.

Section Exact.
Variables prec emax K : Z.
Hypothesis Hprec : 1 < prec.
Hypothesis HK : emin prec emax <= - K.
Hypothesis HK0 : 0 <= K.

(** A product the format represents is computed exactly. *)
Lemma mul_exact (x y : spec_float) (a b w : Z) :
  normal prec emax K x a -> normal prec emax K y b ->
  a * b = w * 2 ^ K -> representable prec w ->
  w = 0 \/ 2 ^ (prec - 1) <= Z.abs w < 2 ^ (emax - 1 + K) ->
  normal prec emax K (SFmul prec emax x y) w.
Proof.
  intros Nx Ny E R M.
  assert (PK : 0 < 2 ^ K) by (apply pow2_pos; lia).
  destruct (mul_bracket prec emax K Hprec HK HK0 x y a b Nx Ny) as (v & N & B).
  - rewrite E. destruct M as [->|[L U]]; [left; reflexivity | right].
    rewrite Z.abs_mul, (Z.abs_eq (2 ^ K)) by lia.
    assert (0 <= emax - 1 + K).
    { destruct (Z_lt_le_dec (emax - 1 + K) 0) as [C|C]; [|lia].
      rewrite (Z.pow_neg_r 2 (emax - 1 + K)) in U by lia. lia. }
    rewrite !Z.pow_add_r by lia. nia.
  - rewrite E in B. rewrite (bracketed_exact prec K w v B R) in N. exact N.
Qed.

(** A sum the format represents is computed exactly. *)
Lemma add_exact (x y : spec_float) (a b : Z) :
  normal prec emax K x a -> normal prec emax K y b ->
  representable prec (a + b) ->
  a + b = 0 \/ 2 ^ (prec - 1) <= Z.abs (a + b) < 2 ^ (emax - 1 + K) ->
  normal prec emax K (SFadd prec emax x y) (a + b).
Proof.
  intros Nx Ny R M.
  destruct (add_bracket prec emax K Hprec HK x y a b Nx Ny M) as (v & N & B).
  rewrite (bracketed_exact0 prec _ v B R) in N. exact N.
Qed.

Lemma sub_exact (x y : spec_float) (a b : Z) :
  normal prec emax K x a -> normal prec emax K y b ->
  representable prec (a - b) ->
  a - b = 0 \/ 2 ^ (prec - 1) <= Z.abs (a - b) < 2 ^ (emax - 1 + K) ->
  normal prec emax K (SFsub prec emax x y) (a - b).
Proof.
  intros Nx Ny R M.
  destruct (sub_bracket prec emax K Hprec HK x y a b Nx Ny M) as (v & N & B).
  rewrite (bracketed_exact0 prec _ v B R) in N. exact N.
Qed.

(** The size condition of the lemmas above, for [z * 2^j]. *)
Lemma scaled_size (z j b : Z) :
  prec - 1 <= j -> Z.abs z < 2 ^ b -> b + j <= emax - 1 + K ->
  z * 2 ^ j = 0 \/ 2 ^ (prec - 1) <= Z.abs (z * 2 ^ j) < 2 ^ (emax - 1 + K).
Proof.
  intros J B U. destruct (Z.eq_dec z 0) as [->|NZ]; [left; reflexivity | right].
  assert (Pj : 0 < 2 ^ j) by (apply pow2_pos; lia).
  assert (0 <= b).
  { destruct (Z_lt_le_dec b 0) as [C|C]; [|lia]. rewrite Z.pow_neg_r in B by lia. lia. }
  rewrite Z.abs_mul, (Z.abs_eq (2 ^ j)) by lia. split.
  - apply Z.le_trans with (2 ^ j); [apply pow2_le; lia | nia].
  - apply Z.lt_le_trans with (2 ^ b * 2 ^ j); [nia|].
    rewrite <- Z.pow_add_r by lia. apply pow2_le. lia.
Qed.

(** [(int) x] for a number worth [v]. *)
Lemma int_of_float_normal (x : spec_float) (v : Z) :
  normal prec emax K x v -> CInt.in_range (Z.quot v (2 ^ K)) ->
  int_of_float x = Z.quot v (2 ^ K).
Proof.
  intros N R.
  assert (PK : 0 < 2 ^ K) by (apply pow2_pos; lia).
  destruct x as [s| | |s m e]; try contradiction.
  - cbn in N. subst v. rewrite Z.quot_0_l by lia. reflexivity.
  - destruct N as (D & E & M & ->).
    set (a := if 0 <=? e then Zpos m * 2 ^ e else Zpos m / 2 ^ (- e)).
    assert (A : a = Zpos m * 2 ^ (e + K) / 2 ^ K).
    { unfold a. destruct (Z.leb_spec 0 e) as [C|C].
      - rewrite Z.pow_add_r, Z.mul_assoc by lia. symmetry. apply Z.div_mul. lia.
      - replace (2 ^ K) with (2 ^ (- e) * 2 ^ (e + K)).
        + symmetry. apply Z.div_mul_cancel_r; [|lia].
          pose proof (pow2_pos (- e)). lia.
        + rewrite <- Z.pow_add_r by lia. f_equal. lia. }
    assert (Q : Z.quot (cond_Zopp s (Zpos m * 2 ^ (e + K))) (2 ^ K) = cond_Zopp s a).
    { rewrite A. destruct s; cbn [cond_Zopp].
      - rewrite Z.quot_opp_l by lia. f_equal. apply Z.quot_div_nonneg; lia.
      - apply Z.quot_div_nonneg; lia. }
    rewrite Q in *. unfold int_of_float, truncate. fold a.
    replace (if s then - a else a) with (cond_Zopp s a) by reflexivity.
    destruct R as [R1 R2]. apply Z.leb_le in R1. apply Z.leb_le in R2.
    rewrite R1, R2. reflexivity.
Qed.
End Exact.

Lemma div_eucl_pair (a b : Z) : Z.div_eucl a b = (a / b, a mod b).
Proof.
  unfold Z.div, Z.modulo. destruct (Z.div_eucl a b). reflexivity.
Qed.

(** Dividing a normal [float] by [(float) INT_MAX], which is [2^31], only
    lowers its exponent. *)
Lemma fdiv_int_max (s : bool) (m : positive) (e : Z) :
  digits m = 24 -> -117 <= e <= 100 ->
  fdiv (S754_finite s m e) (float_of_int CInt.INT_MAX) = S754_finite s m (e - 31).
Proof.
  intros D E.
  replace (float_of_int CInt.INT_MAX) with (S754_finite false 8388608 8)
    by (vm_compute; reflexivity).
  unfold fdiv, SFdiv.
  assert (C : SFdiv_core_binary 24 128 (Zpos m) e 8388608 8
              = (Zpos m~0, e - 32, loc_Exact)).
  { unfold SFdiv_core_binary. cbn [Zdigits2]. fold (digits m). rewrite D.
    change (Zpos (digits2_pos 8388608)) with 24. cbv zeta.
    rewrite fexp_normal by (unfold emin; lia).
    rewrite Z.min_l by lia.
    replace (e - 8 - (24 + e - (24 + 8) - 24)) with 24 by lia.
    rewrite Z.shiftl_mul_pow2 by lia. rewrite div_eucl_pair.
    change (2 ^ 24) with (2 * 8388608).
    replace (Zpos m * (2 * 8388608)) with (Zpos m~0 * 8388608) by lia.
    rewrite Z.div_mul, Z.mod_mul by lia.
    f_equal. f_equal. lia. }
  rewrite C, xorb_false_r.
  pose proof (binary_round_aux_normal 24 128 ltac:(lia) s m~0 (e - 32)) as R.
  cbv zeta in R.
  assert (D2 : digits m~0 = 25).
  { unfold digits in *. cbn [digits2_pos]. lia. }
  rewrite D2 in R. replace (25 - 24) with 1 in R by lia. change (2 ^ 1) with 2 in R.
  destruct R as (m' & e' & -> & D' & E' & Q1 & Q2); try (unfold emin; lia).
  assert (M0 : Zpos m~0 mod 2 = 0).
  { rewrite Pos2Z.inj_xO, Z.mul_comm. apply Z.mod_mul. lia. }
  specialize (Q2 M0).
  assert (H2 : Zpos m~0 / 2 = Zpos m).
  { rewrite Pos2Z.inj_xO, Z.mul_comm. apply Z.div_mul. lia. }
  rewrite H2 in Q2.
  pose proof (digits_bounds m) as [L U]. rewrite D in L, U.
  pose proof (digits_bounds m') as [L' U']. rewrite D' in L', U'.
  change (2 ^ (24 - 1)) with 8388608 in *. change (2 ^ 24) with 16777216 in *.
  assert (e' = e - 32 + 1 \/ e' = e - 32 + 1 + 1) as [X|X] by lia; subst e'.
  - replace (e - 32 + 1 - (e - 32 + 1)) with 0 in Q2 by lia.
    change (2 ^ 0) with 1 in Q2. f_equal; lia.
  - exfalso. replace (e - 32 + 1 + 1 - (e - 32 + 1)) with 1 in Q2 by lia.
    change (2 ^ 1) with 2 in Q2. lia.
Qed.

Lemma ltb_zero_positive (prec emax K : Z) (x : spec_float) (v : Z) :
  0 <= K -> normal prec emax K x v -> 0 < v -> SFltb (S754_zero false) x = true.
Proof.
  intros HK N P. destruct x as [s| | |s m e]; try contradiction.
  - cbn in N. lia.
  - destruct N as (_ & E & _ & ->).
    assert (0 < Zpos m * 2 ^ (e + K)) by (apply Z.mul_pos_pos; [lia | apply pow2_pos; lia]).
    destruct s; cbn [cond_Zopp] in P; [lia | reflexivity].
Qed.

Lemma ltb_zero_negative (prec emax K : Z) (x : spec_float) (v : Z) :
  0 <= K -> normal prec emax K x v -> v <= 0 -> SFltb (S754_zero false) x = false.
Proof.
  intros HK N P. destruct x as [s| | |s m e]; try contradiction.
  - reflexivity.
  - destruct N as (_ & E & _ & ->).
    assert (0 < Zpos m * 2 ^ (e + K)) by (apply Z.mul_pos_pos; [lia | apply pow2_pos; lia]).
    destruct s; cbn [cond_Zopp] in P; [reflexivity | lia].
Qed.

Section Program.
Variable K : Z.
Hypothesis HK : 100 <= K <= 149.

Lemma emin_float : emin 24 128 <= - K.
Proof. unfold emin. lia. Qed.

Lemma emin_double : emin 53 1024 <= - K.
Proof. unfold emin. lia. Qed.

(** Magnitudes between [2^lo] and [2^hi] on scale [K]. *)
Lemma magnitude (z lo hi p q : Z) :
  z <> 0 -> 0 <= lo -> 2 ^ lo <= Z.abs z < 2 ^ hi ->
  0 <= p <= lo + K -> hi + K <= q ->
  2 ^ p <= Z.abs (z * 2 ^ K) < 2 ^ q.
Proof.
  intros NZ L [A B] P Q.
  assert (PK : 0 < 2 ^ K) by (apply pow2_pos; lia).
  rewrite Z.abs_mul, (Z.abs_eq (2 ^ K)) by lia.
  assert (0 <= hi).
  { destruct (Z_lt_le_dec hi 0) as [C|C]; [|lia]. rewrite Z.pow_neg_r in B by lia. lia. }
  split.
  - apply Z.le_trans with (2 ^ lo * 2 ^ K); [|nia].
    rewrite <- Z.pow_add_r by lia. apply pow2_le. lia.
  - apply Z.lt_le_trans with (2 ^ hi * 2 ^ K); [nia|].
    rewrite <- Z.pow_add_r by lia. apply pow2_le. lia.
Qed.

Lemma normal_float_of_int (z : Z) :
  Z.abs z <= 2 ^ 24 -> normal 24 128 K (float_of_int z) (z * 2 ^ K).
Proof.
  intros A. unfold float_of_int.
  destruct (normalize_bracket 24 128 K ltac:(lia) emin_float z 0 0 false)
    as (v & N & B & _); [lia | lia | | ].
  - destruct (Z.eq_dec z 0) as [->|NZ]; [left; reflexivity | right].
    rewrite Z.add_0_l, !Z.add_0_r.
    apply (magnitude z 0 25); lia.
  - rewrite Z.add_0_l, Z.add_0_r in B.
    rewrite (bracketed_exact0 24 _ _ B) in N; [exact N|].
    apply representable_scaled_le; lia.
Qed.

Lemma normal_double_of_int (z : Z) :
  Z.abs z <= 2 ^ 53 -> normal 53 1024 K (double_of_int z) (z * 2 ^ K).
Proof.
  intros A. unfold double_of_int.
  destruct (normalize_bracket 53 1024 K ltac:(lia) emin_double z 0 0 false)
    as (v & N & B & _); [lia | lia | | ].
  - destruct (Z.eq_dec z 0) as [->|NZ]; [left; reflexivity | right].
    rewrite Z.add_0_l, !Z.add_0_r.
    apply (magnitude z 0 54); lia.
  - rewrite Z.add_0_l, Z.add_0_r in B.
    rewrite (bracketed_exact0 53 _ _ B) in N; [exact N|].
    apply representable_scaled_le; lia.
Qed.

(** A [float] is a [double] of the same value. *)
Lemma normal_double_of_float (x : float) (v : Z) :
  normal 24 128 K x v -> v = 0 \/ 2 ^ 52 <= Z.abs v ->
  normal 53 1024 K (double_of_float x) v.
Proof.
  intros N S. destruct x as [s| | |s m e]; try contradiction; [exact N|].
  pose proof (normal_abs_bounds 24 128 K ltac:(lia) s m e v N) as [AL AU].
  destruct N as (D & E & M & ->). cbn [double_of_float].
  assert (PE : 0 < 2 ^ (e + K)) by (apply pow2_pos; lia).
  assert (29 <= e + K).
  { destruct S as [S|S]; [destruct s; cbn [cond_Zopp] in S; nia|].
    destruct (Z_lt_le_dec (e + K) 29) as [C|C]; [|lia]. exfalso.
    rewrite <- Z.pow_add_r in AU by lia.
    pose proof (pow2_le (24 + (e + K)) 52). lia. }
  pose proof (round_bracket 53 1024 K ltac:(lia) emin_double s m e 0) as R.
  cbv zeta in R. rewrite D in R. destruct R as (w & N & P & B); try lia.
  rewrite Z.add_0_r in B.
  rewrite (bracketed_exact0 53 _ w B) in N; [exact N|].
  apply representable_scaled; [|lia].
  pose proof (digits_bounds m) as [_ U]. rewrite D in U. lia.
Qed.

(** Storing a [double] into a [float] rounds it. *)
Lemma float_of_double_bracket (x : double) (a : Z) :
  normal 53 1024 K x a -> Z.abs a < 2 ^ (127 + K) ->
  exists v, normal 24 128 K (float_of_double x) v /\ bracketed 24 0 a v.
Proof.
  intros N A. destruct x as [s| | |s m e]; try contradiction.
  - cbn in N. subst a. exists 0. split; [reflexivity | apply bracketed_zero; lia].
  - pose proof (normal_abs_bounds 53 1024 K ltac:(lia) s m e a N) as [AL AU].
    destruct N as (D & E & M & ->). cbn [float_of_double].
    assert (e + 52 < 127).
    { destruct (Z_lt_le_dec (e + 52) 127) as [C|C]; [lia|]. exfalso.
      rewrite <- Z.pow_add_r in AL by lia.
      pose proof (pow2_le (127 + K) (53 - 1 + (e + K))). lia. }
    pose proof (round_bracket 24 128 K ltac:(lia) emin_float s m e 0) as R.
    cbv zeta in R. rewrite D in R. destruct R as (w & N & P & B); try lia.
    rewrite Z.add_0_r in B.
    exists (cond_Zopp s w). split; [exact N|].
    apply bracketed_cond_Zopp. exact B.
Qed.

(** The constants. *)
Lemma normal_V0 : normal 24 128 K V0 (- 2 ^ (K - 1)).
Proof.
  unfold V0. cbn [normal cond_Zopp]. repeat split; try lia.
  replace (K - 1) with (23 + (-24 + K)) by lia.
  rewrite (Z.pow_add_r 2 23 (-24 + K)) by lia. reflexivity.
Qed.

Lemma normal_d_0_5 : normal 53 1024 K d_0_5 (2 ^ (K - 1)).
Proof.
  unfold d_0_5. cbn [normal cond_Zopp]. repeat split; try lia.
  replace (K - 1) with (52 + (-53 + K)) by lia.
  rewrite (Z.pow_add_r 2 52 (-53 + K)) by lia. reflexivity.
Qed.

Lemma normal_d_0_25 : normal 53 1024 K d_0_25 (2 ^ (K - 2)).
Proof.
  unfold d_0_25. cbn [normal cond_Zopp]. repeat split; try lia.
  replace (K - 2) with (52 + (-54 + K)) by lia.
  rewrite (Z.pow_add_r 2 52 (-54 + K)) by lia. reflexivity.
Qed.

(** [0.5 * GRAV] as a double: 13421773 / 2^29. *)
Lemma normal_half_GRAV :
  normal 53 1024 K (dmul d_0_5 (double_of_float GRAV)) (13421773 * 2 ^ (K - 29)).
Proof.
  replace (dmul d_0_5 (double_of_float GRAV))
    with (S754_finite false 7205759511166976 (-58)) by (vm_compute; reflexivity).
  cbn [normal cond_Zopp]. repeat split; try lia.
  replace (K - 29) with (29 + (-58 + K)) by lia.
  rewrite (Z.pow_add_r 2 29 (-58 + K)) by lia.
  change (2 ^ 29) with 536870912. lia.
Qed.

(** The row of the bird in closed form, while every step is exact:
    [h0 - t/2 + (13421773/2^29) * t^2], truncated. *)
Lemma position_exact (a n : Z) :
  Z.abs a <= 2 ^ 24 -> 0 <= n <= 2 ^ 24 -> Z.abs (2 * a - n) <= 2 ^ 24 ->
  13421773 * n * n <= 2 ^ 53 ->
  Z.abs ((2 * a - n) * 2 ^ 28 + 13421773 * n * n) <= 2 ^ 53 ->
  get_flappy_position (mk_flappy a n)
  = Z.quot ((2 * a - n) * 2 ^ 28 + 13421773 * n * n) (2 ^ 29).
Proof.
  intros Ha Hn Hs Hq HN.
  set (N := (2 * a - n) * 2 ^ 28 + 13421773 * n * n) in *.
  assert (PK : 0 < 2 ^ K) by (apply pow2_pos; lia).
  assert (K1 : 2 ^ K = 2 * 2 ^ (K - 1)).
  { replace K with (1 + (K - 1)) at 1 by lia. rewrite Z.pow_add_r by lia. reflexivity. }
  assert (K29 : 2 ^ K = 2 ^ 29 * 2 ^ (K - 29)).
  { replace K with (29 + (K - 29)) at 1 by lia. rewrite Z.pow_add_r by lia. reflexivity. }
  assert (K28 : 2 ^ (K - 1) = 2 ^ 28 * 2 ^ (K - 29)).
  { replace (K - 1) with (28 + (K - 29)) at 1 by lia. rewrite Z.pow_add_r by lia. reflexivity. }
  (* h0 + V0 * t, in float *)
  pose proof (normal_float_of_int a Ha) as Na.
  pose proof (normal_float_of_int n ltac:(lia)) as Nn.
  assert (Np : normal 24 128 K (fmul V0 (float_of_int n)) ((- n) * 2 ^ (K - 1))).
  { apply (mul_exact 24 128 K ltac:(lia) emin_float ltac:(lia) _ _ _ _ _ normal_V0 Nn).
    - ring.
    - apply representable_scaled_le; lia.
    - apply (scaled_size 24 128 K ltac:(lia) (- n) (K - 1) 25); lia. }
  assert (Ns : normal 24 128 K (fadd (float_of_int a) (fmul V0 (float_of_int n)))
                 ((2 * a - n) * 2 ^ (K - 1))).
  { replace ((2 * a - n) * 2 ^ (K - 1)) with (a * 2 ^ K + (- n) * 2 ^ (K - 1))
      by (rewrite K1; ring).
    apply (add_exact 24 128 K ltac:(lia) emin_float _ _ _ _ Na Np).
    - replace (a * 2 ^ K + (- n) * 2 ^ (K - 1)) with ((2 * a - n) * 2 ^ (K - 1))
        by (rewrite K1; ring).
      apply representable_scaled_le; lia.
    - replace (a * 2 ^ K + (- n) * 2 ^ (K - 1)) with ((2 * a - n) * 2 ^ (K - 1))
        by (rewrite K1; ring).
      apply (scaled_size 24 128 K ltac:(lia) (2 * a - n) (K - 1) 25); lia. }
  assert (Nd : normal 53 1024 K
                 (double_of_float (fadd (float_of_int a) (fmul V0 (float_of_int n))))
                 ((2 * a - n) * 2 ^ (K - 1))).
  { apply normal_double_of_float; [exact Ns|].
    destruct (scaled_size 53 1024 K ltac:(lia) (2 * a - n) (K - 1) 25) as [Z|Z]; try lia. }
  (* 0.5 * GRAV * t * t, in double *)
  pose proof (normal_double_of_int n ltac:(lia)) as Nt.
  assert (N1 : normal 53 1024 K
                 (dmul (dmul d_0_5 (double_of_float GRAV)) (double_of_int n))
                 (13421773 * n * 2 ^ (K - 29))).
  { apply (mul_exact 53 1024 K ltac:(lia) emin_double ltac:(lia) _ _ _ _ _
             normal_half_GRAV Nt).
    - ring.
    - apply representable_scaled; lia.
    - apply (scaled_size 53 1024 K ltac:(lia) (13421773 * n) (K - 29) 53); lia. }
  assert (N2 : normal 53 1024 K
                 (dmul (dmul (dmul d_0_5 (double_of_float GRAV)) (double_of_int n))
                       (double_of_int n))
                 (13421773 * n * n * 2 ^ (K - 29))).
  { apply (mul_exact 53 1024 K ltac:(lia) emin_double ltac:(lia) _ _ _ _ _ N1 Nt).
    - ring.
    - apply representable_scaled_le; lia.
    - apply (scaled_size 53 1024 K ltac:(lia) (13421773 * n * n) (K - 29) 54); lia. }
  assert (E : (2 * a - n) * 2 ^ (K - 1) + 13421773 * n * n * 2 ^ (K - 29)
              = N * 2 ^ (K - 29)).
  { unfold N. rewrite K28. ring. }
  assert (Nf : normal 53 1024 K
                 (dadd (double_of_float (fadd (float_of_int a) (fmul V0 (float_of_int n))))
                       (dmul (dmul (dmul d_0_5 (double_of_float GRAV)) (double_of_int n))
                             (double_of_int n)))
                 (N * 2 ^ (K - 29))).
  { rewrite <- E.
    apply (add_exact 53 1024 K ltac:(lia) emin_double _ _ _ _ Nd N2).
    - rewrite E. apply representable_scaled_le; lia.
    - rewrite E. apply (scaled_size 53 1024 K ltac:(lia) N (K - 29) 54); lia. }
  unfold get_flappy_position. cbn [h0 t].
  assert (Q : Z.quot (N * 2 ^ (K - 29)) (2 ^ K) = Z.quot N (2 ^ 29)).
  { rewrite K29. apply Z.quot_mul_cancel_r; [lia|].
    pose proof (pow2_pos (K - 29)). lia. }
  rewrite <- Q.
  apply (int_of_float_normal 53 1024 K ltac:(lia) _ _ Nf).
  rewrite Q. unfold CInt.in_range, CInt.INT_MIN, CInt.INT_MAX.
  assert (Z.abs (Z.quot N (2 ^ 29)) <= 2 ^ 24).
  { rewrite <- Z.quot_abs by lia. 
    apply Z.quot_le_upper_bound; lia. }
  lia.
Qed.

Lemma normal_quarter : normal 24 128 K (S754_finite false 8388608 (-25)) (2 ^ (K - 2)).
Proof.
  cbn [normal cond_Zopp]. repeat split; try lia.
  replace (K - 2) with (23 + (-25 + K)) by lia.
  rewrite (Z.pow_add_r 2 23 (-25 + K)) by lia. reflexivity.
Qed.

Lemma normal_three_quarters :
  normal 24 128 K (S754_finite false 12582912 (-24)) (3 * 2 ^ (K - 2)).
Proof.
  cbn [normal cond_Zopp]. repeat split; try lia.
  replace (K - 2) with (22 + (-24 + K)) by lia.
  rewrite (Z.pow_add_r 2 22 (-24 + K)) by lia. change (2 ^ 22) with 4194304. lia.
Qed.

(** Every opening the generator draws is worth between 1/4 and 3/4. *)
Lemma random_opening_normal (r : Z) :
  0 <= r <= CInt.INT_MAX ->
  exists v, normal 24 128 K (random_opening r) v /\ 2 ^ (K - 2) <= v <= 3 * 2 ^ (K - 2).
Proof.
  unfold CInt.INT_MAX. intros Hr.
  assert (PK : 0 < 2 ^ K) by (apply pow2_pos; lia).
  assert (P2 : 0 < 2 ^ (K - 2)) by (apply pow2_pos; lia).
  destruct (Z.eq_dec r 0) as [->|NZ].
  { replace (random_opening 0) with (S754_finite false 8388608 (-25))
      by (vm_compute; reflexivity).
    exists (2 ^ (K - 2)). split; [exact normal_quarter | lia]. }
  (* (float) rand() *)
  destruct (normalize_bracket 24 128 K ltac:(lia) emin_float r 0 0 false)
    as (v1 & N1 & B1 & P1 & _); [lia | lia | | ].
  { right. rewrite Z.add_0_l, !Z.add_0_r. apply (magnitude r 0 31); lia. }
  rewrite Z.add_0_l, Z.add_0_r in B1. specialize (P1 ltac:(lia)).
  destruct (B1 (1 * 2 ^ K) (1 * 2 ^ (31 + K))) as [L1 U1].
  { apply representable_scaled; lia. }
  { apply representable_scaled; lia. }
  { change (2 ^ 0) with 1. rewrite (Z.pow_add_r 2 31 K) by lia. nia. }
  rewrite Z.mul_1_l in L1, U1.
  fold (float_of_int r) in N1.
  unfold random_opening.
  destruct (float_of_int r) as [s| | |s m e]; try contradiction;
    [cbn in N1; lia|].
  pose proof (normal_abs_bounds 24 128 K ltac:(lia) s m e v1 N1) as [AL AU].
  rewrite Z.abs_eq in AL, AU by lia.
  destruct N1 as (D & E & M & V1).
  assert (s = false).
  { destruct s; [|reflexivity]. cbn [cond_Zopp] in V1.
    pose proof (pow2_pos (e + K) E). nia. }
  subst s. cbn [cond_Zopp] in V1.
  assert (E1 : -23 <= e).
  { destruct (Z_lt_le_dec e (-23)) as [C|C]; [|lia]. exfalso.
    rewrite <- Z.pow_add_r in AU by lia. pose proof (pow2_le (24 + (e + K)) K). lia. }
  assert (E2 : e <= 8).
  { destruct (Z_lt_le_dec 8 e) as [C|C]; [|lia]. exfalso.
    rewrite <- Z.pow_add_r in AL by lia.
    pose proof (pow2_lt (31 + K) (24 - 1 + (e + K))). lia. }
  rewrite fdiv_int_max by lia.
  (* the quotient, as a double *)
  set (v2 := Zpos m * 2 ^ (e - 31 + K)).
  assert (N2 : normal 24 128 K (S754_finite false m (e - 31)) v2).
  { cbn [normal cond_Zopp]. repeat split; try lia. }
  assert (V2 : v1 = v2 * 2 ^ 31).
  { unfold v2. rewrite V1, <- Z.mul_assoc, <- Z.pow_add_r by lia.
    f_equal. f_equal. lia. }
  assert (L2 : 2 ^ (K - 31) <= v2).
  { assert (2 ^ K = 2 ^ (K - 31) * 2 ^ 31).
    { rewrite <- Z.pow_add_r by lia. f_equal. lia. }
    nia. }
  assert (U2 : v2 <= 2 ^ K).
  { rewrite (Z.pow_add_r 2 31 K) in U1 by lia. nia. }
  assert (P31 : 0 < 2 ^ (K - 31)) by (apply pow2_pos; lia).
  assert (N3 := normal_double_of_float _ _ N2).
  specialize (N3 ltac:(right; rewrite Z.abs_eq by lia;
                       pose proof (pow2_le 52 (K - 31)); lia)).
  (* times 0.5 *)
  assert (K1 : 2 ^ K = 2 * 2 ^ (K - 1)).
  { replace K with (1 + (K - 1)) at 1 by lia. rewrite Z.pow_add_r by lia. reflexivity. }
  assert (K2 : 2 ^ (K - 1) = 2 * 2 ^ (K - 2)).
  { replace (K - 1) with (1 + (K - 2)) at 1 by lia. rewrite Z.pow_add_r by lia. reflexivity. }
  assert (K32 : 2 ^ (K - 1) = 2 ^ (K - 32) * 2 ^ 31).
  { rewrite <- Z.pow_add_r by lia. f_equal. lia. }
  assert (K31 : 2 ^ (K - 31) = 2 * 2 ^ (K - 32)).
  { replace (K - 31) with (1 + (K - 32)) at 1 by lia. rewrite Z.pow_add_r by lia. reflexivity. }
  assert (P32 : 0 < 2 ^ (K - 32)) by (apply pow2_pos; lia).
  destruct (mul_bracket 53 1024 K ltac:(lia) emin_double ltac:(lia) _ _ _ _ N3 normal_d_0_5)
    as (v4 & N4 & B4).
  { right. rewrite Z.abs_eq by nia. split.
    - apply Z.le_trans with (2 ^ (K - 31) * 2 ^ (K - 1)); [|nia].
      rewrite <- Z.pow_add_r by lia. apply pow2_le. lia.
    - apply Z.le_lt_trans with (2 ^ K * 2 ^ (K - 1)); [nia|].
      rewrite <- Z.pow_add_r by lia. apply pow2_lt. lia. }
  destruct (B4 (1 * 2 ^ (K - 32)) (1 * 2 ^ (K - 1))) as [L4 U4].
  { apply representable_scaled; lia. }
  { apply representable_scaled; lia. }
  { rewrite !Z.mul_1_l. split; nia. }
  rewrite Z.mul_1_l in L4, U4.
  (* plus 0.25 *)
  destruct (add_bracket 53 1024 K ltac:(lia) emin_double _ _ _ _ N4 normal_d_0_25)
    as (v5 & N5 & B5).
  { right. rewrite Z.abs_eq by lia. split.
    - apply Z.le_trans with (2 ^ (K - 2)); [apply pow2_le; lia | lia].
    - apply Z.le_lt_trans with (2 ^ K); [lia | apply pow2_lt; lia]. }
  destruct (B5 (1 * 2 ^ (K - 2)) (3 * 2 ^ (K - 2))) as [L5 U5].
  { apply representable_scaled; lia. }
  { apply representable_scaled; lia. }
  { change (2 ^ 0) with 1. lia. }
  rewrite Z.mul_1_l in L5.
  (* stored in a float *)
  destruct (float_of_double_bracket _ _ N5) as (v6 & N6 & B6).
  { rewrite Z.abs_eq by lia.
    apply Z.le_lt_trans with (2 ^ K); [lia | apply pow2_lt; lia]. }
  exists v6. split; [exact N6|].
  destruct (B6 (1 * 2 ^ (K - 2)) (3 * 2 ^ (K - 2))) as [L6 U6].
  { apply representable_scaled; lia. }
  { apply representable_scaled; lia. }
  { change (2 ^ 0) with 1. lia. }
  lia.
Qed.
Lemma normal_GRAV : normal 24 128 K GRAV (13421773 * 2 ^ (K - 28)).
Proof.
  unfold GRAV. cbn [normal cond_Zopp]. repeat split; try lia.
  f_equal. f_equal. lia.
Qed.

(** [GRAV * t], as a float, between two bounds [lo/32 <= GRAV * t <= hi]. *)
Lemma GRAV_times (n lo hi : Z) :
  0 <= n <= 20000 -> 0 <= lo < 2 ^ 24 -> 0 < hi < 2 ^ 24 ->
  lo * 2 ^ 23 <= 13421773 * n <= hi * 2 ^ 23 ->
  exists v, normal 24 128 K (fmul GRAV (float_of_int n)) v /\
            lo * 2 ^ (K - 5) <= v <= hi * 2 ^ (K - 5).
Proof.
  intros Hn Hlo Hhi [L U].
  assert (PK : 0 < 2 ^ K) by (apply pow2_pos; lia).
  assert (P28 : 0 < 2 ^ (K - 28)) by (apply pow2_pos; lia).
  assert (K5 : 2 ^ (K - 5) = 2 ^ 23 * 2 ^ (K - 28)).
  { rewrite <- Z.pow_add_r by lia. f_equal. lia. }
  pose proof (normal_float_of_int n ltac:(lia)) as Nn.
  assert (E : 13421773 * 2 ^ (K - 28) * (n * 2 ^ K) = 13421773 * n * 2 ^ (K - 28) * 2 ^ K)
    by ring.
  destruct (mul_bracket 24 128 K ltac:(lia) emin_float ltac:(lia) _ _ _ _
              normal_GRAV Nn) as (v & N & B).
  { rewrite E. destruct (Z.eq_dec n 0) as [->|NZ]; [left; reflexivity | right].
    rewrite Z.abs_mul, (Z.abs_eq (2 ^ K)) by lia.
    destruct (scaled_size 24 128 K ltac:(lia) (13421773 * n) (K - 28) 40) as [Z|[A1 A2]];
      try lia.
    split.
    - replace (24 - 1 + K) with (24 - 1 + K) by lia.
      rewrite (Z.pow_add_r 2 (24 - 1) K) by lia.
      apply Z.mul_le_mono_nonneg_r; lia.
    - apply Z.lt_le_trans with (2 ^ (128 - 1 + K) * 2 ^ K).
      + apply Z.mul_lt_mono_pos_r; lia.
      + rewrite <- Z.pow_add_r by lia. apply pow2_le. lia. }
  exists v. split; [exact N|].
  rewrite E in B.
  apply (B (lo * 2 ^ (K - 5)) (hi * 2 ^ (K - 5))).
  - apply representable_scaled; lia.
  - apply representable_scaled; lia.
  - rewrite K5. split.
    + replace (lo * (2 ^ 23 * 2 ^ (K - 28)) * 2 ^ K)
        with (lo * 2 ^ 23 * (2 ^ (K - 28) * 2 ^ K)) by ring.
      replace (13421773 * n * 2 ^ (K - 28) * 2 ^ K)
        with (13421773 * n * (2 ^ (K - 28) * 2 ^ K)) by ring.
      apply Z.mul_le_mono_nonneg_r; [|lia].
      apply Z.lt_le_incl, Z.mul_pos_pos; lia.
    + replace (hi * (2 ^ 23 * 2 ^ (K - 28)) * 2 ^ K)
        with (hi * 2 ^ 23 * (2 ^ (K - 28) * 2 ^ K)) by ring.
      replace (13421773 * n * 2 ^ (K - 28) * 2 ^ K)
        with (13421773 * n * (2 ^ (K - 28) * 2 ^ K)) by ring.
      apply Z.mul_le_mono_nonneg_r; [|lia].
      apply Z.lt_le_incl, Z.mul_pos_pos; lia.
Qed.

(** [GRAV * t + V0], given [GRAV * t]. *)
Lemma plus_V0 (x : float) (v lo hi : Z) :
  normal 24 128 K x v ->
  lo * 2 ^ (K - 5) <= v <= hi * 2 ^ (K - 5) ->
  (0 <= lo /\ hi <= 15) \/ 17 <= lo -> lo <= hi < 2 ^ 24 ->
  exists w, normal 24 128 K (fadd x V0) w /\
            (lo - 16) * 2 ^ (K - 5) <= w <= (hi - 16) * 2 ^ (K - 5).
Proof.
  intros N [L U] Hs Hr.
  assert (P5 : 0 < 2 ^ (K - 5)) by (apply pow2_pos; lia).
  assert (K1 : 2 ^ (K - 1) = 16 * 2 ^ (K - 5)).
  { replace (K - 1) with (4 + (K - 5)) by lia. rewrite Z.pow_add_r by lia. reflexivity. }
  assert (S1 : (lo - 16) * 2 ^ (K - 5) <= v + - 2 ^ (K - 1) <= (hi - 16) * 2 ^ (K - 5))
    by (rewrite K1; lia).
  destruct (add_bracket 24 128 K ltac:(lia) emin_float _ _ _ _ N normal_V0)
    as (w & Nw & B).
  { right.
    assert (A : 2 ^ (K - 5) <= Z.abs (v + - 2 ^ (K - 1)) <= 2 ^ 24 * 2 ^ (K - 5)).
    { assert (M : forall c, 1 <= c <= 2 ^ 24 ->
                       2 ^ (K - 5) <= c * 2 ^ (K - 5) <= 2 ^ 24 * 2 ^ (K - 5)).
      { intros c Hc. split.
        - apply Z.le_trans with (1 * 2 ^ (K - 5)); [lia|].
          apply Z.mul_le_mono_nonneg_r; lia.
        - apply Z.mul_le_mono_nonneg_r; lia. }
      destruct Hs as [Hs|Hs].
      - pose proof (M (16 - hi) ltac:(lia)). pose proof (M (16 - lo) ltac:(lia)). lia.
      - pose proof (M (lo - 16) ltac:(lia)). pose proof (M (hi - 16) ltac:(lia)). lia. }
    split.
    - apply Z.le_trans with (2 ^ (K - 5)); [apply pow2_le; lia | lia].
    - apply Z.le_lt_trans with (2 ^ 24 * 2 ^ (K - 5)); [lia|].
      rewrite <- Z.pow_add_r by lia. apply pow2_lt. lia. }
  exists w. split; [exact Nw|].
  apply (B ((lo - 16) * 2 ^ (K - 5)) ((hi - 16) * 2 ^ (K - 5))).
  - apply representable_scaled; lia.
  - apply representable_scaled; lia.
  - change (2 ^ 0) with 1. lia.
Qed.

(** The test [GRAV * t + V0 > 0]: false up to tick 10, true from tick 11. *)
Lemma descending_test (a n : Z) :
  0 <= n <= 20000 -> descending (mk_flappy a n) = (11 <=? n).
Proof.
  intros Hn. unfold descending. cbn [t]. unfold lt.
  change (float_of_int 0) with (S754_zero false).
  destruct (Z_le_gt_dec n 9) as [C|C]; [|destruct (Z.eq_dec n 10) as [->|NE]].
  - destruct (GRAV_times n 0 15) as (v & N & B); try lia.
    destruct (plus_V0 _ v 0 15 N B) as (w & Nw & Bw); try lia.
    assert (P5 : 0 < 2 ^ (K - 5)) by (apply pow2_pos; lia).
    rewrite (ltb_zero_negative 24 128 K _ w ltac:(lia) Nw) by lia.
    symmetry. apply Z.leb_gt. lia.
  - vm_compute. reflexivity.
  - destruct (GRAV_times n 17 65536) as (v & N & B); try lia.
    destruct (plus_V0 _ v 17 65536 N B) as (w & Nw & Bw); try lia.
    assert (P5 : 0 < 2 ^ (K - 5)) by (apply pow2_pos; lia).
    rewrite (ltb_zero_positive 24 128 K _ w ltac:(lia) Nw) by lia.
    symmetry. apply Z.leb_le. lia.
Qed.
(** The two edges of the gap of an opening worth between 1/4 and 3/4: with
    [F] the integer part of [opening_height * 23], the top edge is [F - 3]
    and the bottom edge is [F + 3] or, when the float sum rounds up to the
    next integer, [F + 4]. *)
Lemma gap_rows (oh : float) (c v : Z) :
  normal 24 128 K oh v -> 2 ^ (K - 2) <= v <= 3 * 2 ^ (K - 2) ->
  let p := mk_vpipe oh c in
  2 <= get_orow p 1 <= 14 /\ 8 <= get_orow p 0 <= 20 /\
  6 <= get_orow p 0 - get_orow p 1 <= 7.
Proof.
  intros N [VL VU] p. unfold get_orow, p. cbn [opening_height].
  change (NUM_ROWS -i 1) with 23.
  change ((if 1 =? 0 then -1 else 1) *i OPENING_WIDTH /i 2) with 3.
  change ((if 0 =? 0 then -1 else 1) *i OPENING_WIDTH /i 2) with (-3).
  assert (PK : 0 < 2 ^ K) by (apply pow2_pos; lia).
  assert (P2 : 0 < 2 ^ (K - 2)) by (apply pow2_pos; lia).
  assert (K2 : 2 ^ K = 4 * 2 ^ (K - 2)).
  { replace K with (2 + (K - 2)) at 1 by lia. rewrite Z.pow_add_r by lia. reflexivity. }
  pose proof (normal_float_of_int 23 ltac:(lia)) as N23.
  pose proof (normal_float_of_int 3 ltac:(lia)) as N3.
  pose proof (normal_float_of_int (-3) ltac:(lia)) as N3'.
  (* x = opening_height * 23 *)
  destruct (mul_bracket 24 128 K ltac:(lia) emin_float ltac:(lia) _ _ _ _ N N23)
    as (x & Nx & Bx).
  { right. rewrite Z.abs_eq by (apply Z.mul_nonneg_nonneg; lia). split.
    - apply Z.le_trans with (2 ^ (K - 2) * (1 * 2 ^ K)).
      + rewrite Z.mul_1_l, <- Z.pow_add_r by lia. apply pow2_le. lia.
      + apply Z.mul_le_mono_nonneg; lia.
    - apply Z.le_lt_trans with (2 ^ K * (2 ^ 5 * 2 ^ K)).
      + apply Z.mul_le_mono_nonneg; lia.
      + rewrite <- !Z.pow_add_r by lia. apply pow2_lt. lia. }
  fold (fmul oh (float_of_int 23)) in Nx.
  set (xf := fmul oh (float_of_int 23)) in *. clearbody xf.
  destruct (Bx (23 * 2 ^ (K - 2)) (69 * 2 ^ (K - 2))) as [XL XU].
  { apply representable_scaled; lia. }
  { apply representable_scaled; lia. }
  { split.
    - replace (23 * 2 ^ (K - 2) * 2 ^ K) with (2 ^ (K - 2) * (23 * 2 ^ K)) by ring.
      apply Z.mul_le_mono_nonneg_r; lia.
    - replace (69 * 2 ^ (K - 2) * 2 ^ K) with (3 * 2 ^ (K - 2) * (23 * 2 ^ K)) by ring.
      apply Z.mul_le_mono_nonneg_r; lia. }
  (* its integer part *)
  set (F := x / 2 ^ K).
  assert (FL : F * 2 ^ K <= x) by (unfold F; rewrite Z.mul_comm; apply Z.mul_div_le; lia).
  assert (FU : x < (F + 1) * 2 ^ K).
  { unfold F. pose proof (Z.mul_succ_div_gt x (2 ^ K) PK). lia. }
  assert (FR : 5 <= F <= 17).
  { unfold F. split.
    - apply Z.div_le_lower_bound; lia.
    - apply Z.lt_succ_r. apply Z.div_lt_upper_bound; lia. }
  (* the top edge: x - 3 is exact *)
  assert (Rt : representable 24 (x - 3 * 2 ^ K)).
  { destruct xf as [s| | |s m e]; try contradiction.
    { cbn in Nx. lia. }
    pose proof (normal_abs_bounds 24 128 K ltac:(lia) s m e x Nx) as [AL AU].
    rewrite Z.abs_eq in AL, AU by lia.
    destruct Nx as (D & E & M & V).
    assert (PE : 0 < 2 ^ (e + K)) by (apply pow2_pos; lia).
    assert (s = false).
    { destruct s; [|reflexivity]. cbn [cond_Zopp] in V.
      assert (0 < Zpos m * 2 ^ (e + K)) by (apply Z.mul_pos_pos; lia). lia. }
    subst s. cbn [cond_Zopp] in V.
    assert (E0 : e <= -19).
    { destruct (Z_lt_le_dec (-19) e) as [C|C]; [|lia]. exfalso.
      rewrite <- Z.pow_add_r in AL by lia.
      pose proof (pow2_le (K + 5) (24 - 1 + (e + K)) ltac:(lia)).
      assert (2 ^ (K + 5) = 128 * 2 ^ (K - 2)).
      { replace (K + 5) with (7 + (K - 2)) by lia. rewrite Z.pow_add_r by lia. reflexivity. }
      lia. }
    assert (KE : 2 ^ K = 2 ^ (- e) * 2 ^ (e + K)).
    { rewrite <- Z.pow_add_r by lia. f_equal. lia. }
    exists (Zpos m - 3 * 2 ^ (- e)), (e + K). split; [lia|]. split.
    - pose proof (digits_bounds m) as [_ U]. rewrite D in U.
      assert (0 < 2 ^ (- e)) by (apply pow2_pos; lia).
      assert (3 * 2 ^ (- e) * 2 ^ (e + K) < Zpos m * 2 ^ (e + K)).
      { rewrite <- Z.mul_assoc, <- KE. lia. }
      assert (3 * 2 ^ (- e) < Zpos m).
      { apply Z.mul_lt_mono_pos_r with (p := 2 ^ (e + K)); assumption. }
      lia.
    - rewrite V, KE. ring. }
  assert (Nt : normal 24 128 K (fsub xf (float_of_int 3))
                 (x - 3 * 2 ^ K)).
  { apply (sub_exact 24 128 K ltac:(lia) emin_float _ _ _ _ Nx N3 Rt).
    right. rewrite Z.abs_eq by lia. split.
    - apply Z.le_trans with (2 ^ (K - 2)); [apply pow2_le; lia | lia].
    - apply Z.le_lt_trans with (2 ^ (K + 5)); [|apply pow2_lt; lia].
      replace (K + 5) with (7 + (K - 2)) by lia. rewrite Z.pow_add_r by lia.
      change (2 ^ 7) with 128. lia. }
  assert (Qt : Z.quot (x - 3 * 2 ^ K) (2 ^ K) = F - 3).
  { rewrite Z.quot_div_nonneg by lia.
    replace (x - 3 * 2 ^ K) with (x + (-3) * 2 ^ K) by ring.
    rewrite Z.div_add by lia. reflexivity. }
  rewrite (int_of_float_normal 24 128 K ltac:(lia) _ _ Nt)
    by (rewrite Qt; unfold CInt.in_range, CInt.INT_MIN, CInt.INT_MAX; lia).
  rewrite Qt.
  (* the bottom edge: x + 3 is rounded *)
  destruct (sub_bracket 24 128 K ltac:(lia) emin_float _ _ _ _ Nx N3')
    as (b & Nb & Bb).
  { right. rewrite Z.abs_eq by lia. split.
    - apply Z.le_trans with (2 ^ (K - 2)); [apply pow2_le; lia | lia].
    - apply Z.le_lt_trans with (2 ^ (K + 5)); [|apply pow2_lt; lia].
      replace (K + 5) with (7 + (K - 2)) by lia. rewrite Z.pow_add_r by lia.
      change (2 ^ 7) with 128. lia. }
  fold (fsub xf (float_of_int (-3))) in Nb.
  destruct (Bb ((F + 3) * 2 ^ K) ((F + 4) * 2 ^ K)) as [BL BU].
  { apply representable_scaled; lia. }
  { apply representable_scaled; lia. }
  { change (2 ^ 0) with 1. lia. }
  destruct (Bb (35 * 2 ^ (K - 2)) (81 * 2 ^ (K - 2))) as [BL' BU'].
  { apply representable_scaled; lia. }
  { apply representable_scaled; lia. }
  { change (2 ^ 0) with 1. lia. }
  assert (Qb : F + 3 <= Z.quot b (2 ^ K) <= F + 4 /\ Z.quot b (2 ^ K) <= 20).
  { rewrite Z.quot_div_nonneg by lia. repeat split.
    - apply Z.div_le_lower_bound; lia.
    - apply Z.div_le_upper_bound; lia.
    - apply Z.lt_succ_r. apply Z.div_lt_upper_bound; lia. }
  rewrite (int_of_float_normal 24 128 K ltac:(lia) _ _ Nb)
    by (unfold CInt.in_range, CInt.INT_MIN, CInt.INT_MAX; lia).
  lia.
Qed.
End Program.

(* ================================================================= *)
(** ** Collision tests *)

Lemma int_of_float_in_range (x : spec_float) : CInt.in_range (int_of_float x).
Proof.
  unfold int_of_float, CInt.in_range.
  destruct (truncate x) as [v|]; [|unfold CInt.INT_MIN, CInt.INT_MAX; lia].
  destruct (CInt.INT_MIN <=? v) eqn:A; destruct (v <=? CInt.INT_MAX) eqn:B; simpl;
    try (unfold CInt.INT_MIN, CInt.INT_MAX; lia).
  apply Z.leb_le in A. apply Z.leb_le in B. lia.
Qed.

(** C1.  For a pipe whose centre is an [int] and whose gap rows are not at
    the two ends of the [int] range, [crashed_into_pipe] returns 1 exactly
    when [FLAPPY_COL] is in [center - PIPE_RADIUS - 1, center + PIPE_RADIUS + 1]
    and the bird's row is outside [get_orow(p,1) + 1, get_orow(p,0) - 1]; it
    returns 0 otherwise, in particular for every row when the column is
    outside the band. *)
Theorem crashed_into_pipe_iff (f : flappy) (p : vpipe) :
  CInt.in_range (center p) ->
  get_orow p 1 < CInt.INT_MAX ->
  CInt.INT_MIN < get_orow p 0 ->
  let in_band := center p - PIPE_RADIUS - 1 <= FLAPPY_COL <= center p + PIPE_RADIUS + 1 in
  let in_gap := get_orow p 1 + 1 <= get_flappy_position f <= get_orow p 0 - 1 in
  (crashed_into_pipe f p = 1 <-> in_band /\ ~ in_gap) /\
  (crashed_into_pipe f p = 0 <-> ~ (in_band /\ ~ in_gap)) /\
  (~ in_band -> crashed_into_pipe f p = 0).
Proof.
  intros Hc Htop Hbot in_band in_gap.
  pose proof (column_test (center p) Hc) as Hcol. fold in_band in Hcol.
  pose proof (int_of_float_in_range
    (fsub (fmul (opening_height p) (float_of_int (NUM_ROWS -i 1)))
          (float_of_int ((if 1 =? 0 then -1 else 1) *i OPENING_WIDTH /i 2)))) as R1.
  pose proof (int_of_float_in_range
    (fsub (fmul (opening_height p) (float_of_int (NUM_ROWS -i 1)))
          (float_of_int ((if 0 =? 0 then -1 else 1) *i OPENING_WIDTH /i 2)))) as R0.
  fold (get_orow p 1) in R1. fold (get_orow p 0) in R0.
  assert (E1 : get_orow p 1 +i 1 = get_orow p 1 + 1).
  { apply int_add_exact. unfold CInt.in_range in *. lia. }
  assert (E0 : get_orow p 0 -i 1 = get_orow p 0 - 1).
  { apply int_sub_exact. unfold CInt.in_range in *. lia. }
  assert (Hgap : (get_flappy_position f >=? get_orow p 1 +i 1) &&
                 (get_flappy_position f <=? get_orow p 0 -i 1) = true <-> in_gap).
  { rewrite E1, E0, andb_true_iff, Z.geb_le, Z.leb_le. reflexivity. }
  unfold crashed_into_pipe.
  destruct ((FLAPPY_COL >=? center p -i PIPE_RADIUS -i 1) &&
            (FLAPPY_COL <=? center p +i PIPE_RADIUS +i 1)) eqn:B;
  destruct ((get_flappy_position f >=? get_orow p 1 +i 1) &&
            (get_flappy_position f <=? get_orow p 0 -i 1)) eqn:G.
  - assert (in_band) by tauto. assert (in_gap) by tauto.
    intuition congruence.
  - assert (in_band) by tauto.
    assert (~ in_gap) by (intros X; apply Hgap in X; discriminate).
    intuition congruence.
  - assert (~ in_band) by (intros X; apply Hcol in X; discriminate).
    intuition congruence.
  - assert (~ in_band) by (intros X; apply Hcol in X; discriminate).
    intuition congruence.
Qed.

(** The theorem at the bird of a new game and a pipe standing on its column. *)
Lemma crashed_into_pipe_iff_witness :
  crashed_into_pipe (mk_flappy 12 0) (mk_vpipe (random_opening 0) 10) = 1.
Proof.
  assert (R : CInt.in_range (center (mk_vpipe (random_opening 0) 10))).
  { unfold CInt.in_range, CInt.INT_MIN, CInt.INT_MAX; simpl; lia. }
  assert (A : get_orow (mk_vpipe (random_opening 0) 10) 1 < CInt.INT_MAX).
  { vm_compute; reflexivity. }
  assert (B : CInt.INT_MIN < get_orow (mk_vpipe (random_opening 0) 10) 0).
  { vm_compute; reflexivity. }
  apply (proj1 (crashed_into_pipe_iff (mk_flappy 12 0) _ R A B)).
  split.
  - unfold FLAPPY_COL, PIPE_RADIUS; simpl; lia.
  - vm_compute. intros [X Y]. apply Y. reflexivity.
Defined.

(** C4.  The floor-and-ceiling test of [draw_flappy] holds exactly when the
    bird's row is [<= 0] or [>= NUM_ROWS - 1]; when it holds [draw_flappy]
    is the failure screen whatever the pipes are; on the rows 1 to
    [NUM_ROWS - 2] it never holds, and failure comes from the pipes only. *)
Theorem boundary_collision_iff (f : flappy) :
  let h := get_flappy_position f in
  (hits_floor_or_ceiling h = true <-> h <= 0 \/ h >= NUM_ROWS - 1) /\
  (forall key g, hits_floor_or_ceiling h = true ->
     draw_flappy key f g = (failure_screen key g, [])) /\
  (forall key g, 1 <= h <= NUM_ROWS - 2 ->
     hits_floor_or_ceiling h = false /\
     draw_flappy key f g =
       if negb (crashed_into_pipe f (p1 g) =? 0) || negb (crashed_into_pipe f (p2 g) =? 0)
       then (failure_screen key g, [])
       else (Returned 0 g, flappy_glyph (frame g) f h)).
Proof.
  intros h. unfold hits_floor_or_ceiling, NUM_ROWS. repeat split.
  - rewrite orb_true_iff, Z.leb_le, Z.geb_le. lia.
  - rewrite orb_true_iff, Z.leb_le, Z.geb_le. lia.
  - intros key g H. unfold draw_flappy. fold h.
    unfold hits_floor_or_ceiling, NUM_ROWS. rewrite H. reflexivity.
  - apply orb_false_iff. split; [apply Z.leb_gt | rewrite Z.geb_leb; apply Z.leb_gt]; lia.
  - unfold draw_flappy. fold h. unfold hits_floor_or_ceiling, NUM_ROWS.
    replace ((h <=? 0) || (h >=? 24 - 1)) with false; [reflexivity|].
    symmetry. apply orb_false_iff.
    split; [apply Z.leb_gt | rewrite Z.geb_leb; apply Z.leb_gt]; lia.
Qed.

(** The theorem at a bird on the ceiling row and at the bird of a new game. *)
Lemma boundary_collision_iff_witness :
  draw_flappy CHAR_q (mk_flappy 0 0) initial_globals
    = (failure_screen CHAR_q initial_globals, []) /\
  hits_floor_or_ceiling (get_flappy_position (mk_flappy 12 0)) = false.
Proof.
  split.
  - apply (boundary_collision_iff (mk_flappy 0 0)). vm_compute; reflexivity.
  - apply (proj2 (proj2 (boundary_collision_iff (mk_flappy 12 0))) 0 initial_globals).
    vm_compute. split; discriminate.
Defined.

(* ================================================================= *)
(** ** Score and digit counters *)

(** What [pipe_refresh] leaves of the globals when the pipe is recycled. *)
Lemma pipe_refresh_recycled (r : Z) (p : vpipe) (g : globals) :
  center p +i PIPE_RADIUS < 0 ->
  pipe_refresh r p g =
    (mk_vpipe (random_opening r) (NUM_COLS +i PIPE_RADIUS -i 1),
     let g1 := set_score (score g +i 1) g in
     if (sdigs g1 =? 1) && (score g1 >? 9) then set_sdigs (sdigs g1 +i 1) g1
     else if (sdigs g1 =? 2) && (score g1 >? 99) then set_sdigs (sdigs g1 +i 1) g1
     else g1).
Proof.
  intros H. unfold pipe_refresh. apply Z.ltb_lt in H. rewrite H. reflexivity.
Qed.

Lemma pipe_refresh_kept (r : Z) (p : vpipe) (g : globals) :
  0 <= center p +i PIPE_RADIUS ->
  pipe_refresh r p g = (mk_vpipe (opening_height p) (center p -i 1), g).
Proof.
  intros H. unfold pipe_refresh. apply Z.ltb_ge in H. rewrite H. reflexivity.
Qed.

Lemma pipe_refresh_cases (r : Z) (p : vpipe) (g : globals) :
  let g' := snd (pipe_refresh r p g) in
  frame g' = frame g /\ best_score g' = best_score g /\ bdigs g' = bdigs g /\
  p1 g' = p1 g /\ p2 g' = p2 g /\
  (sdigs g' = sdigs g \/
   (sdigs g = 1 /\ sdigs g' = 2) \/ (sdigs g = 2 /\ sdigs g' = 3)).
Proof.
  destruct (Z_lt_le_dec (center p +i PIPE_RADIUS) 0) as [H|H].
  - rewrite (pipe_refresh_recycled r p g H).
    destruct g as [fr sc sd bs bd q1 q2]. cbn [snd]. cbv zeta.
    unfold set_score. cbn [frame score sdigs best_score bdigs p1 p2].
    destruct (Z.eqb_spec sd 1) as [->|N1].
    + destruct (sc +i 1 >? 9); cbn [andb]; unfold set_sdigs;
        cbn [frame score sdigs best_score bdigs p1 p2];
        repeat split; auto; right; left; split; reflexivity.
    + cbn [andb]. destruct (Z.eqb_spec sd 2) as [->|N2].
      * destruct (sc +i 1 >? 99); cbn [andb]; unfold set_sdigs;
          cbn [frame score sdigs best_score bdigs p1 p2];
          repeat split; auto; right; right; split; reflexivity.
      * cbn [andb frame score sdigs best_score bdigs p1 p2]. repeat split; auto.
  - rewrite (pipe_refresh_kept r p g H). cbn [snd]. cbv zeta. repeat split; auto.
Qed.

(** C6.  In a [pipe_refresh] that recycles its pipe, the score going from 9
    to 10 takes [sdigs] from 1 to 2, the score going from 99 to 100 takes it
    from 2 to 3; once [sdigs] is 3 (or more) no score changes it. *)
Theorem score_width_upgrade (r : Z) (p : vpipe) (g : globals) :
  let g' := snd (pipe_refresh r p g) in
  (center p +i PIPE_RADIUS < 0 -> score g = 9 -> sdigs g = 1 ->
     score g' = 10 /\ sdigs g' = 2) /\
  (center p +i PIPE_RADIUS < 0 -> score g = 99 -> sdigs g = 2 ->
     score g' = 100 /\ sdigs g' = 3) /\
  (3 <= sdigs g -> sdigs g' = sdigs g).
Proof.
  cbv zeta. split; [|split].
  - intros H S D. rewrite (pipe_refresh_recycled r p g H).
    destruct g as [fr sc sd bs bd q1 q2]. cbn in S, D. subst sc sd.
    split; reflexivity.
  - intros H S D. rewrite (pipe_refresh_recycled r p g H).
    destruct g as [fr sc sd bs bd q1 q2]. cbn in S, D. subst sc sd.
    split; reflexivity.
  - intros H. pose proof (pipe_refresh_cases r p g) as C. cbv zeta in C. lia.
Qed.

(** The theorem at a pipe that has just left the screen, at scores 9 and 99,
    and at a four-digit score. *)
Lemma score_width_upgrade_witness :
  let off := mk_vpipe (S754_zero false) (-4) in
  sdigs (snd (pipe_refresh 0 off (mk_globals 0 9 1 0 1 off off))) = 2 /\
  sdigs (snd (pipe_refresh 0 off (mk_globals 0 99 2 0 1 off off))) = 3 /\
  sdigs (snd (pipe_refresh 0 off (mk_globals 0 999 3 0 1 off off))) = 3.
Proof.
  intros off. split; [|split].
  - apply (proj1 (score_width_upgrade 0 off (mk_globals 0 9 1 0 1 off off)));
      vm_compute; reflexivity.
  - apply (proj1 (proj2 (score_width_upgrade 0 off (mk_globals 0 99 2 0 1 off off))));
      vm_compute; reflexivity.
  - apply (proj2 (proj2 (score_width_upgrade 0 off (mk_globals 0 999 3 0 1 off off)))).
    vm_compute. discriminate.
Defined.

(* ================================================================= *)
(** ** The failure screen and the loop *)

Lemma failure_screen_quit (key : Z) (g : globals) :
  CInt.to_char key = CHAR_q -> failure_screen key g = Exited g.
Proof.
  intros H. unfold failure_screen. rewrite H. reflexivity.
Qed.

Lemma failure_screen_again (key : Z) (g : globals) :
  CInt.to_char key <> CHAR_q ->
  exists g', failure_screen key g = Returned 1 g' /\
    score g' = 0 /\ sdigs g' = 1 /\ frame g' = frame g /\
    p1 g' = p1 g /\ p2 g' = p2 g /\
    best_score g' = Z.max (score g) (best_score g) /\
    (bdigs g' = bdigs g \/
     (bdigs g = 1 /\ bdigs g' = 2) \/ (bdigs g = 2 /\ bdigs g' = 3)).
Proof.
  intros H. unfold failure_screen.
  destruct (Z.eqb_spec (CInt.to_char key) CHAR_q) as [E|_]; [contradiction|].
  eexists. split; [reflexivity|].
  destruct g as [fr sc sd bs bd q1 q2].
  cbn [frame score sdigs best_score bdigs p1 p2].
  assert (M : best_score (if sc >? bs
                          then set_best_score sc (mk_globals fr sc sd bs bd q1 q2)
                          else mk_globals fr sc sd bs bd q1 q2) = Z.max sc bs).
  { destruct (sc >? bs) eqn:C; cbn.
    - apply Z.gtb_lt in C. lia.
    - rewrite Z.gtb_ltb in C. apply Z.ltb_ge in C. lia. }
  destruct (sc >? bs); unfold set_best_score in *;
    cbn [frame score sdigs best_score bdigs p1 p2] in *;
    (destruct (Z.eqb_spec bd 1) as [->|N1];
     [ match goal with |- context [?a >? 9] => destruct (a >? 9) end
     | destruct (Z.eqb_spec bd 2) as [->|N2];
       [ match goal with |- context [?a >? 99] => destruct (a >? 99) end | ] ]);
    cbn [andb]; unfold set_sdigs, set_score, set_bdigs;
    cbn [frame score sdigs best_score bdigs p1 p2];
    repeat split; auto;
    solve [ right; left; split; reflexivity | right; right; split; reflexivity ].
Qed.

Lemma start_game_counters (i : frame_input) (g : globals) :
  let g' := fst (start_game i g) in
  frame g' = frame g /\ score g' = score g /\ sdigs g' = sdigs g /\
  best_score g' = best_score g /\ bdigs g' = bdigs g.
Proof. cbn. repeat split. Qed.

(** What the failure screen and the exits of the loop do to [best_score]:
    ['q'] on the failure screen exits with the globals as they were; a call
    of [failure_screen] that returns was given another key and stores the
    larger of the two scores; no exit of the loop body changes [best_score]. *)
Lemma best_score_at_exit :
  (forall g, failure_screen CHAR_q g = Exited g) /\
  (forall key g v g', failure_screen key g = Returned v g' ->
     CInt.to_char key <> CHAR_q /\
     best_score g' = Z.max (score g) (best_score g)) /\
  (forall i g l g', main_loop_body i g l = Exited g' ->
     best_score g' = best_score g).
Proof.
  split; [|split].
  - intros g. apply failure_screen_quit. reflexivity.
  - intros key g v g' H.
    destruct (Z.eq_dec (CInt.to_char key) CHAR_q) as [E|E].
    + rewrite (failure_screen_quit key g E) in H. discriminate.
    + split; [exact E|].
      destruct (failure_screen_again key g E) as (g2 & H2 & _ & _ & _ & _ & _ & B & _).
      rewrite H2 in H. inversion H; subst. exact B.
  - intros i g l g' H. unfold main_loop_body in H.
    destruct (if restart l then start_game i g else (g, bird l)) as [g0 f0] eqn:S.
    assert (B0 : best_score g0 = best_score g).
    { destruct (restart l).
      - pose proof (start_game_counters i g) as C. rewrite S in C. cbn in C. tauto.
      - inversion S; reflexivity. }
    destruct (key_polled i =? CHAR_q).
    { inversion H; subst. exact B0. }
    set (f1 := if key_polled i =? KEY_UP then boost f0
               else mk_flappy (h0 f0) (t f0 +i 1)) in H.
    pose proof (pipe_refresh_cases (rand_pipe1 i) (p1 g0) g0) as C1.
    destruct (pipe_refresh (rand_pipe1 i) (p1 g0) g0) as [q1 g1].
    pose proof (pipe_refresh_cases (rand_pipe2 i) (p2 (set_p1 q1 g1)) (set_p1 q1 g1)) as C2.
    destruct (pipe_refresh (rand_pipe2 i) (p2 (set_p1 q1 g1)) (set_p1 q1 g1)) as [q2 g2].
    cbn [snd] in C1, C2. cbv zeta in C1, C2.
    assert (B2 : best_score (set_p2 q2 g2) = best_score g).
    { unfold set_p2; cbn. destruct C2 as (_ & -> & _). unfold set_p1; cbn.
      destruct C1 as (_ & -> & _). exact B0. }
    unfold draw_flappy in H.
    set (gg := set_p2 q2 g2) in *.
    assert (F : forall o, (o = failure_screen (key_failure i) gg) ->
                match o with
                | Exited g3 => best_score g3 = best_score g
                | Returned _ _ => True
                end).
    { intros o ->. destruct (Z.eq_dec (CInt.to_char (key_failure i)) CHAR_q) as [E|E].
      - rewrite (failure_screen_quit _ gg E). exact B2.
      - destruct (failure_screen_again _ gg E) as (g3 & -> & _). exact I. }
    destruct (hits_floor_or_ceiling (get_flappy_position f1)).
    { cbn [fst] in H. specialize (F _ eq_refl).
      destruct (failure_screen (key_failure i) gg).
      - inversion H; subst. exact F.
      - destruct (negb (v =? 0)); discriminate. }
    destruct (negb (crashed_into_pipe f1 (p1 gg) =? 0)
              || negb (crashed_into_pipe f1 (p2 gg) =? 0)).
    { cbn [fst] in H. specialize (F _ eq_refl).
      destruct (failure_screen (key_failure i) gg).
      - inversion H; subst. exact F.
      - destruct (negb (v =? 0)); discriminate. }
    cbn in H. discriminate.
Qed.

(** A restart is the loop body run on the game [start_game] sets up. *)
Lemma main_loop_body_restart (i : frame_input) (g : globals) (l : locals) :
  restart l = true ->
  main_loop_body i g l =
  main_loop_body i (fst (start_game i g)) (mk_locals (snd (start_game i g)) false).
Proof.
  intros R. unfold main_loop_body. rewrite R. cbn [restart bird].
  destruct (start_game i g) as [g0 f0]. reflexivity.
Qed.

(** C8, as stated, fails: the first pipe of a new game is not at 1.2 times
    the width of the playfield (96), nor the second at 1.75 times (140). *)
Lemma start_columns_counterexample :
  let g' := fst (start_game (mk_input 0 0 0 0 0 0) initial_globals) in
  ~ (10 * center (p1 g') = 12 * NUM_COLS /\ 100 * center (p2 g') = 175 * NUM_COLS).
Proof.
  vm_compute. intros [A _]. discriminate A.
Qed.

(** C8, amended.  Every iteration entered with [restart] set, the first one
    and the one after each failure, starts from [start_game], which puts the
    two pipes at columns 94 and 138: 1.2 times and 1.75 times
    [NUM_COLS - 1], truncated.  Both are off-screen to the right
    ([>= NUM_COLS]). *)
Theorem start_columns (i : frame_input) (g : globals) :
  let g' := fst (start_game i g) in
  let c1 := center (p1 g') in
  let c2 := center (p2 g') in
  (c1 = 94 /\ c2 = 138) /\
  (10 * c1 <= 12 * (NUM_COLS - 1) < 10 * (c1 + 1) /\
   100 * c2 <= 175 * (NUM_COLS - 1) < 100 * (c2 + 1)) /\
  (NUM_COLS <= c1 /\ NUM_COLS <= c2) /\
  (forall l, restart l = true ->
     main_loop_body i g l = main_loop_body i g' (mk_locals (snd (start_game i g)) false)).
Proof.
  cbv zeta. split; [|split; [|split]].
  - split; vm_compute; reflexivity.
  - assert (E1 : center (p1 (fst (start_game i g))) = 94) by (vm_compute; reflexivity).
    assert (E2 : center (p2 (fst (start_game i g))) = 138) by (vm_compute; reflexivity).
    rewrite E1, E2. unfold NUM_COLS. lia.
  - assert (E1 : center (p1 (fst (start_game i g))) = 94) by (vm_compute; reflexivity).
    assert (E2 : center (p2 (fst (start_game i g))) = 138) by (vm_compute; reflexivity).
    rewrite E1, E2. unfold NUM_COLS. lia.
  - intros l R. apply main_loop_body_restart. exact R.
Qed.

(** The theorem at the first iteration of the program. *)
Lemma start_columns_witness :
  let i := mk_input (-1) 7 11 0 0 0 in
  let l := mk_locals (mk_flappy 0 0) true in
  main_loop_body i initial_globals l =
  main_loop_body i (fst (start_game i initial_globals))
    (mk_locals (snd (start_game i initial_globals)) false).
Proof.
  intros i l.
  apply (proj2 (proj2 (proj2 (start_columns i initial_globals))) l).
  reflexivity.
Defined.

(* ================================================================= *)
(** ** Invariant of the digit counters *)

(** What one iteration that returns does to the two counters. *)
Lemma main_loop_body_counters (i : frame_input) (g : globals) (l : locals)
      (l' : locals) (g' : globals) :
  main_loop_body i g l = Returned l' g' ->
  (restart l' = true -> sdigs g' = 1) /\
  (restart l' = false ->
     sdigs g' = sdigs g \/ (1 <= sdigs g < sdigs g' /\ sdigs g' <= 3)) /\
  (bdigs g' = bdigs g \/ (1 <= bdigs g < bdigs g' /\ bdigs g' <= 3)).
Proof.
  intros H. unfold main_loop_body in H.
  destruct (if restart l then start_game i g else (g, bird l)) as [g0 f0] eqn:S.
  assert (B0 : sdigs g0 = sdigs g /\ bdigs g0 = bdigs g).
  { destruct (restart l).
    - pose proof (start_game_counters i g) as C. rewrite S in C. cbn in C. tauto.
    - inversion S; split; reflexivity. }
  destruct (key_polled i =? CHAR_q); [discriminate|].
  set (f1 := if key_polled i =? KEY_UP then boost f0
             else mk_flappy (h0 f0) (t f0 +i 1)) in H.
  pose proof (pipe_refresh_cases (rand_pipe1 i) (p1 g0) g0) as C1.
  destruct (pipe_refresh (rand_pipe1 i) (p1 g0) g0) as [q1 g1].
  pose proof (pipe_refresh_cases (rand_pipe2 i) (p2 (set_p1 q1 g1)) (set_p1 q1 g1)) as C2.
  destruct (pipe_refresh (rand_pipe2 i) (p2 (set_p1 q1 g1)) (set_p1 q1 g1)) as [q2 g2].
  cbn [snd] in C1, C2. cbv zeta in C1, C2.
  set (gg := set_p2 q2 g2) in *.
  assert (Sg : sdigs gg = sdigs g \/ (1 <= sdigs g < sdigs gg /\ sdigs gg <= 3)).
  { unfold gg, set_p2; cbn [sdigs]. unfold set_p1 in C2; cbn [sdigs] in C2. lia. }
  assert (Bg : bdigs gg = bdigs g).
  { unfold gg, set_p2; cbn [bdigs]. unfold set_p1 in C2; cbn [bdigs] in C2. lia. }
  assert (F : forall v g3, failure_screen (key_failure i) gg = Returned v g3 ->
                v = 1 /\ sdigs g3 = 1 /\
                (bdigs g3 = bdigs g \/ (1 <= bdigs g < bdigs g3 /\ bdigs g3 <= 3))).
  { intros v g3 E.
    destruct (Z.eq_dec (CInt.to_char (key_failure i)) CHAR_q) as [Q|Q].
    - rewrite (failure_screen_quit _ gg Q) in E. discriminate.
    - destruct (failure_screen_again _ gg Q) as (g4 & E4 & _ & D & _ & _ & _ & _ & B).
      rewrite E4 in E. inversion E; subst. split; [reflexivity|]. split; [exact D|]. lia. }
  unfold draw_flappy in H.
  destruct (hits_floor_or_ceiling (get_flappy_position f1)).
  { cbn [fst] in H. destruct (failure_screen (key_failure i) gg) as [|v g3] eqn:E;
      [discriminate|].
    destruct (F v g3 eq_refl) as (-> & D & B). cbn in H. inversion H; subst.
    cbn [restart]. split; [intros _; exact D|]. split; [discriminate | exact B]. }
  destruct (negb (crashed_into_pipe f1 (p1 gg) =? 0)
            || negb (crashed_into_pipe f1 (p2 gg) =? 0)).
  { cbn [fst] in H. destruct (failure_screen (key_failure i) gg) as [|v g3] eqn:E;
      [discriminate|].
    destruct (F v g3 eq_refl) as (-> & D & B). cbn in H. inversion H; subst.
    cbn [restart]. split; [intros _; exact D|]. split; [discriminate | exact B]. }
  cbn in H. inversion H; subst. cbn [restart sdigs bdigs set_frame].
  split; [discriminate|]. split; [intros _; exact Sg | left; exact Bg].
Qed.

Lemma reachable_digits_ok (s : globals * locals) :
  reachable s -> 1 <= sdigs (fst s) <= 3 /\ 1 <= bdigs (fst s) <= 3.
Proof.
  induction 1 as [f | i g l g' l' R IH H].
  - cbn. lia.
  - cbn [fst] in *. destruct (main_loop_body_counters i g l l' g' H) as (A & B & C).
    destruct (restart l') eqn:E.
    + specialize (A eq_refl). lia.
    + specialize (B eq_refl). lia.
Qed.

(** Every state a run of the loop ends in is reachable. *)
Lemma run_reachable (inputs : list frame_input) :
  forall s s', reachable s -> run inputs s = Some s' -> reachable s'.
Proof.
  induction inputs as [|i rest IH]; intros [g l] s' R H; cbn [run fst snd] in H.
  - inversion H; subst. exact R.
  - destruct (main_loop_body i g l) as [|l1 g1] eqn:E; [discriminate|].
    apply (IH (g1, l1) s'); [|exact H].
    exact (reach_step i g l g1 l1 R E).
Qed.

(** C10.  In every state the loop reaches, [sdigs] and [bdigs] are 1, 2 or
    3, whatever the scores are; an iteration never lowers [bdigs], and one
    that ends in a restart leaves [sdigs] at 1. *)
Theorem digit_counters_invariant (s : globals * locals) :
  reachable s ->
  (1 <= sdigs (fst s) <= 3 /\ 1 <= bdigs (fst s) <= 3) /\
  (forall i l' g', main_loop_body i (fst s) (snd s) = Returned l' g' ->
     bdigs (fst s) <= bdigs g' /\ (restart l' = true -> sdigs g' = 1)).
Proof.
  intros R. split.
  - exact (reachable_digits_ok s R).
  - intros i l' g' H.
    destruct (main_loop_body_counters i (fst s) (snd s) l' g' H) as (A & _ & C).
    split; [lia | exact A].
Qed.

(** The theorem at the end of a game that lasted 538 frames: after 537
    frames the score is 11 and [sdigs] is 2; in the next frame the bird
    reaches the floor, Enter is typed on the failure screen, and the game
    restarts with [sdigs] back at 1 and [bdigs] raised from 1 to 2. *)
Lemma digit_counters_invariant_witness :
  exists g l l' g',
    run (hover 24 ++ repeat idle_frame 33) (entry_state (mk_flappy 0 0)) = Some (g, l) /\
    main_loop_body idle_frame g l = Returned l' g' /\
    (score g = 11 /\ sdigs g = 2 /\ bdigs g = 1) /\
    (restart l' = true /\ best_score g' = 11 /\ bdigs g' = 2) /\
    (1 <= sdigs g <= 3 /\ 1 <= bdigs g <= 3) /\
    bdigs g <= bdigs g' /\ sdigs g' = 1.
Proof.
  destruct (run (hover 24 ++ repeat idle_frame 33) (entry_state (mk_flappy 0 0)))
    as [[g l]|] eqn:E; [|vm_compute in E; discriminate].
  pose proof (digit_counters_invariant (g, l)
                (run_reachable _ _ _ (reach_entry (mk_flappy 0 0)) E)) as (A & B).
  cbn [fst snd] in A, B.
  vm_compute in E. injection E as Eg El.
  destruct (main_loop_body idle_frame g l) as [|l' g'] eqn:S;
    [rewrite <- Eg, <- El in S; vm_compute in S; discriminate|].
  destruct (B idle_frame l' g' S) as (B1 & B2).
  assert (S0 := S). rewrite <- Eg, <- El in S0. vm_compute in S0. injection S0 as Sl Sg.
  assert (R : restart l' = true) by (rewrite <- Sl; reflexivity).
  exists g, l, l', g'. split; [reflexivity|]. split; [exact S|].
  split; [rewrite <- Eg; repeat split; reflexivity|].
  split; [split; [exact R | rewrite <- Sg; split; reflexivity]|].
  split; [exact A|]. split; [exact B1 | exact (B2 R)].
Defined.

(* ================================================================= *)
(** ** Trajectory, recycling and the gap *)

(** The row of a bird that has just been boosted is its reference height,
    as long as a [float] holds that height exactly. *)
Lemma position_at_rest (a : Z) :
  Z.abs a <= 2 ^ 24 -> get_flappy_position (mk_flappy a 0) = a.
Proof.
  intros Ha. set (K := 128).
  assert (HK : 100 <= K <= 149) by (unfold K; lia).
  assert (PK : 0 < 2 ^ K) by (apply pow2_pos; lia).
  pose proof (normal_float_of_int K HK a Ha) as Na.
  unfold get_flappy_position. cbn [h0 t].
  replace (fmul V0 (float_of_int 0)) with (S754_zero true) by (vm_compute; reflexivity).
  replace (dmul (dmul (dmul d_0_5 (double_of_float GRAV)) (double_of_int 0)) (double_of_int 0))
    with (S754_zero false) by (vm_compute; reflexivity).
  assert (Sz : a * 2 ^ K = 0 \/ 2 ^ (53 - 1) <= Z.abs (a * 2 ^ K) < 2 ^ (1024 - 1 + K)).
  { apply (scaled_size 53 1024 K ltac:(lia) a K 25); lia. }
  assert (Sf : a * 2 ^ K = 0 \/ 2 ^ (24 - 1) <= Z.abs (a * 2 ^ K) < 2 ^ (128 - 1 + K)).
  { apply (scaled_size 24 128 K ltac:(lia) a K 25); lia. }
  assert (N1 : normal 24 128 K (fadd (float_of_int a) (S754_zero true)) (a * 2 ^ K + 0)).
  { apply (add_exact 24 128 K ltac:(lia) (emin_float K HK) _ _ _ _ Na);
      [reflexivity | | ]; rewrite Z.add_0_r.
    - apply representable_scaled_le; lia.
    - exact Sf. }
  rewrite Z.add_0_r in N1.
  assert (N2 := normal_double_of_float K HK _ _ N1).
  specialize (N2 ltac:(destruct Sz as [Z|Z]; [left; exact Z | right; lia])).
  assert (N3 : normal 53 1024 K
                 (dadd (double_of_float (fadd (float_of_int a) (S754_zero true)))
                       (S754_zero false)) (a * 2 ^ K + 0)).
  { apply (add_exact 53 1024 K ltac:(lia) (emin_double K HK) _ _ _ _ N2);
      [reflexivity | | ]; rewrite Z.add_0_r.
    - apply representable_scaled_le; lia.
    - exact Sz. }
  rewrite Z.add_0_r in N3.
  rewrite (int_of_float_normal 53 1024 K ltac:(lia) _ _ N3).
  - apply Z.quot_mul. lia.
  - rewrite Z.quot_mul by lia.
    unfold CInt.in_range, CInt.INT_MIN, CInt.INT_MAX. lia.
Qed.

(** The closed form of the row, with the scale instantiated. *)
Lemma get_flappy_position_exact (a n : Z) :
  Z.abs a <= 2 ^ 20 -> 0 <= n <= 20000 ->
  get_flappy_position (mk_flappy a n)
  = Z.quot ((2 * a - n) * 2 ^ 28 + 13421773 * n * n) (2 ^ 29).
Proof.
  intros Ha Hn.
  apply (position_exact 128); try lia; nia.
Qed.

(** Far beyond any game the boost is not exact: after 25921 ticks from
    height 12 the row would be 16784507, which no [float] holds; a boost
    there would store 16784507 in [h0] and the row computed from it would be
    16784508.  The loop never holds such a bird: it fails on the floor by
    tick 42. *)
Lemma boost_beyond_float_range :
  let f := mk_flappy 12 25921 in
  get_flappy_position f = 16784507 /\
  get_flappy_position (boost f) = 16784508.
Proof.
  split; vm_compute; reflexivity.
Qed.

(** For every bird whose row is at most 2^24 in absolute value (every row
    of the screen is), the boost, which stores the row in [h0] and resets
    [t] to 0, leaves the row as it was. *)
Lemma boost_keeps_position (f : flappy) :
  Z.abs (get_flappy_position f) <= 2 ^ 24 ->
  t (boost f) = 0 /\
  h0 (boost f) = get_flappy_position f /\
  get_flappy_position (boost f) = get_flappy_position f.
Proof.
  intros H. unfold boost. cbn [t h0].
  split; [reflexivity|]. split; [reflexivity|].
  apply position_at_rest. exact H.
Qed.

(** C3, as stated, fails: when [rand()] returns [INT_MAX] the new opening
    is 0.75 itself, not below it. *)
Lemma pipe_refresh_counterexample :
  let p := mk_vpipe (S754_zero false) (- PIPE_RADIUS - 1) in
  let p' := fst (pipe_refresh CInt.INT_MAX p initial_globals) in
  opening_height p' = f_0_75 /\ lt (opening_height p') f_0_75 = false.
Proof. vm_compute. split; reflexivity. Qed.

(** C3, amended.  A pipe with centre [-PIPE_RADIUS - 1] is recycled by
    [pipe_refresh]: its centre becomes [NUM_COLS + PIPE_RADIUS - 1], its
    opening is drawn anew within [0.25, 0.75], both ends included, and the
    score (below [INT_MAX]) grows by exactly 1. *)
Theorem pipe_refresh_recycles (r : Z) (p : vpipe) (g : globals) :
  center p = - PIPE_RADIUS - 1 ->
  0 <= r <= CInt.INT_MAX ->
  CInt.INT_MIN <= score g < CInt.INT_MAX ->
  let p' := fst (pipe_refresh r p g) in
  let g' := snd (pipe_refresh r p g) in
  center p' = NUM_COLS + PIPE_RADIUS - 1 /\
  opening_height p' = random_opening r /\
  le f_0_25 (opening_height p') = true /\
  le (opening_height p') f_0_75 = true /\
  score g' = score g + 1.
Proof.
  intros Hc Hr Hs. cbv zeta.
  assert (R : center p +i PIPE_RADIUS < 0) by (rewrite Hc; vm_compute; reflexivity).
  rewrite (pipe_refresh_recycled r p g R). cbn [fst snd center opening_height].
  split; [vm_compute; reflexivity|]. split; [reflexivity|].
  assert (HK : 100 <= 128 <= 149) by lia.
  destruct (random_opening_normal 128 HK r Hr) as (v & N & L & U).
  assert (P : 0 < 2 ^ (128 - 2)) by (apply pow2_pos; lia).
  split; [|split].
  - apply (leb_normal 24 128 128 ltac:(lia) (emin_float 128 HK) _ _ _ _
             (normal_quarter 128 HK) N); lia.
  - apply (leb_normal 24 128 128 ltac:(lia) (emin_float 128 HK) _ _ _ _
             N (normal_three_quarters 128 HK)); lia.
  - assert (E : score g +i 1 = score g + 1).
    { apply int_add_exact. unfold CInt.in_range, CInt.INT_MIN, CInt.INT_MAX in *. lia. }
    destruct g as [fr sc sd bs bd q1 q2]. cbn [score sdigs] in *.
    unfold set_score. cbn [frame score sdigs best_score bdigs p1 p2].
    destruct ((sd =? 1) && (sc +i 1 >? 9)); [unfold set_sdigs; cbn [score]; exact E|].
    destruct ((sd =? 2) && (sc +i 1 >? 99)); [unfold set_sdigs; cbn [score]; exact E|].
    cbn [score]. exact E.
Qed.

(** The theorem at a pipe that has just left the screen, in a new game. *)
Lemma pipe_refresh_recycles_witness :
  let p := mk_vpipe (S754_zero false) (-4) in
  center (fst (pipe_refresh 1000000 p initial_globals)) = NUM_COLS + PIPE_RADIUS - 1 /\
  score (snd (pipe_refresh 1000000 p initial_globals)) = 1.
Proof.
  intros p.
  assert (H : center p = - PIPE_RADIUS - 1) by reflexivity.
  assert (R : 0 <= 1000000 <= CInt.INT_MAX) by (unfold CInt.INT_MAX; lia).
  assert (S : CInt.INT_MIN <= score initial_globals < CInt.INT_MAX)
    by (unfold CInt.INT_MIN, CInt.INT_MAX; cbn; lia).
  pose proof (pipe_refresh_recycles 1000000 p initial_globals H R S) as T.
  cbv zeta in T. split; [apply T | apply T].
Defined.

(** [GRAV * t + V0 > 0], the test of [draw_flappy] for "going down", first
    holds at tick 11: at tick 10 the float product [GRAV * 10] rounds to
    0.5 and the sum is zero. *)
Lemma descending_from_11 (a n : Z) :
  0 <= n <= 20000 -> descending (mk_flappy a n) = (11 <=? n).
Proof.
  apply (descending_test 128). lia.
Qed.

(** C5, as stated, fails: during the ascent the row can stay the same from
    one tick to the next; from height 12 it is 11 at ticks 1 and 2. *)
Lemma ascent_counterexample :
  descending (mk_flappy 12 1) = false /\
  descending (mk_flappy 12 2) = false /\
  ~ get_flappy_position (mk_flappy 12 2) < get_flappy_position (mk_flappy 12 1).
Proof.
  assert (A : get_flappy_position (mk_flappy 12 1) = 11) by (vm_compute; reflexivity).
  assert (B : get_flappy_position (mk_flappy 12 2) = 11) by (vm_compute; reflexivity).
  rewrite A, B. repeat split; try (vm_compute; reflexivity). lia.
Qed.

(** Why the reference height is bounded below: from height 2^24 the float
    sum [h0 + V0 * t] is rounded to an even integer, and the row goes down
    from tick 13 to tick 14 although the bird is past the apex. *)
Lemma descent_large_height :
  descending (mk_flappy 16777216 13) = true /\
  get_flappy_position (mk_flappy 16777216 13) = 16777214 /\
  get_flappy_position (mk_flappy 16777216 14) = 16777213.
Proof. vm_compute. repeat split. Qed.

(** C5, amended.  For a reference height of at most 2^20 in absolute value
    and the ticks 0 to 20000: [GRAV * t + V0 > 0] holds exactly from tick 11
    on; from tick 10 on the row never decreases from one tick to the next,
    so it is non-decreasing wherever [GRAV * t + V0 > 0]; before tick 10 it
    never increases (it need not decrease); tick 10, which is [-V0 / GRAV],
    is the apex: no tick has a smaller row. *)
Theorem trajectory_shape (a n : Z) :
  Z.abs a <= 2 ^ 20 -> 0 <= n < 20000 ->
  let row k := get_flappy_position (mk_flappy a k) in
  (descending (mk_flappy a n) = true <-> 11 <= n) /\
  (descending (mk_flappy a n) = true -> row n <= row (n + 1)) /\
  (10 <= n -> row n <= row (n + 1)) /\
  (n < 10 -> row (n + 1) <= row n) /\
  row 10 <= row n.
Proof.
  intros Ha Hn row.
  assert (D : descending (mk_flappy a n) = true <-> 11 <= n).
  { rewrite descending_from_11 by lia. apply Z.leb_le. }
  assert (M : 10 <= n -> row n <= row (n + 1)).
  { intros H. unfold row. rewrite !get_flappy_position_exact by lia.
    apply Z.quot_le_mono; [lia | nia]. }
  split; [exact D|]. split; [intros H; apply M; apply D in H; lia|].
  split; [exact M|]. split.
  - intros H. unfold row. rewrite !get_flappy_position_exact by lia.
    apply Z.quot_le_mono; [lia | nia].
  - unfold row. rewrite !get_flappy_position_exact by lia.
    apply Z.quot_le_mono; [lia|].
    assert (F : 0 <= (n - 10) * (13421773 * (n + 10) - 2 ^ 28)).
    { destruct (Z_le_gt_dec 10 n);
        [apply Z.mul_nonneg_nonneg | apply Z.mul_nonpos_nonpos]; lia. }
    lia.
Qed.

(** The theorem at the bird of a new game, falling at tick 15 and rising at
    tick 3. *)
Lemma trajectory_shape_witness :
  get_flappy_position (mk_flappy 12 15) <= get_flappy_position (mk_flappy 12 16) /\
  get_flappy_position (mk_flappy 12 4) <= get_flappy_position (mk_flappy 12 3).
Proof.
  assert (A : Z.abs 12 <= 2 ^ 20) by (vm_compute; discriminate).
  split.
  - apply (proj1 (proj2 (proj2 (trajectory_shape 12 15 A ltac:(lia))))). lia.
  - apply (proj1 (proj2 (proj2 (proj2 (trajectory_shape 12 3 A ltac:(lia)))))). lia.
Defined.

(** X1.  The gap of every pipe the generator can draw: both edges strictly
    between the ceiling row and the floor row, and 6 or 7 rows apart. *)
Lemma gap_rows_generated (r c : Z) :
  0 <= r <= CInt.INT_MAX ->
  let p := mk_vpipe (random_opening r) c in
  0 < get_orow p 1 < NUM_ROWS - 1 /\ 0 < get_orow p 0 < NUM_ROWS - 1 /\
  6 <= get_orow p 0 - get_orow p 1 <= 7.
Proof.
  intros Hr p.
  assert (HK : 100 <= 128 <= 149) by lia.
  destruct (random_opening_normal 128 HK r Hr) as (v & N & L).
  pose proof (gap_rows 128 HK (random_opening r) c v N L) as G. cbv zeta in G.
  fold p in G. unfold NUM_ROWS. lia.
Qed.

(** C9: the code at an opening the generator produces, the one drawn when
    [rand()] returns 420159744.  [opening_height * 23] is the float just
    below 8; adding 3 rounds it up to 11, so the gap spans rows 4 to 11. *)
Theorem gap_rows_at_420159744 :
  let p := mk_vpipe (random_opening 420159744) NUM_COLS in
  opening_height p = S754_finite false 11671106 (-25) /\
  le f_0_25 (opening_height p) = true /\ le (opening_height p) f_0_75 = true /\
  get_orow p 1 = 4 /\ get_orow p 0 = 11 /\
  get_orow p 0 - get_orow p 1 = 7.
Proof. vm_compute. repeat split. Qed.

(* ================================================================= *)
(** ** Counted loops *)

(** A loop [for (i = a; i < b; i += s)] with a positive stride ends, after
    at most [b - a] rounds; it runs its body at [a], [a + s], [a + 2s], ...
    below [b] and leaves [i] at the first of these that is not below [b]. *)
Lemma for_loop_stride (test : Z -> bool) (body : Z -> list cell) (b s : Z) :
  (forall i, test i = (i <? b)) ->
  1 <= s -> b + s <= CInt.INT_MAX + 1 ->
  forall (fuel : nat) (a : Z),
    CInt.INT_MIN <= a -> Z.max 0 (b - a) < Z.of_nat fuel ->
    exists cs j,
      for_loop fuel test (fun i => i +i s) body a = Some (cs, j) /\
      (b <= a -> j = a) /\ (a < b -> b <= j < b + s) /\
      forall c, In c cs <->
        exists k, 0 <= k /\ a + k * s < b /\ In c (body (a + k * s)).
Proof.
  intros T Hs Hb. induction fuel as [|n IH]; intros a Ha Hf; [lia|].
  cbn [for_loop]. rewrite T. destruct (Z.ltb_spec a b) as [L|L].
  - assert (E : a +i s = a + s).
    { apply int_add_exact. unfold CInt.in_range, CInt.INT_MIN, CInt.INT_MAX in *. lia. }
    rewrite E. destruct (IH (a + s)) as (cs & j & R & J1 & J2 & M); [lia | lia |].
    rewrite R. exists (body a ++ cs), j. split; [reflexivity|].
    split; [lia|]. split.
    + intros _. destruct (Z_lt_le_dec (a + s) b) as [C|C]; [apply J2 in C | apply J1 in C]; lia.
    + intros c. rewrite in_app_iff, M. split.
      * intros [H | (k & K0 & K1 & K2)].
        -- exists 0. rewrite Z.mul_0_l, Z.add_0_r. repeat split; [lia | lia | exact H].
        -- exists (k + 1). replace (a + (k + 1) * s) with (a + s + k * s) by ring.
           repeat split; [lia | lia | exact K2].
      * intros (k & K0 & K1 & K2). destruct (Z.eq_dec k 0) as [->|NZ].
        -- left. rewrite Z.mul_0_l, Z.add_0_r in K2. exact K2.
        -- right. exists (k - 1). replace (a + s + (k - 1) * s) with (a + k * s) by ring.
           repeat split; [lia | lia | exact K2].
  - exists [], a. split; [reflexivity|]. split; [reflexivity|]. split; [lia|].
    intros c. split; [intros []|]. intros (k & K0 & K1 & _).
    assert (0 <= k * s) by (apply Z.mul_nonneg_nonneg; lia). lia.
Qed.

(** The loop [for (i = a; i < b; i++)]: the body runs at every [i] from
    [a] to [b - 1], and [i] is left at [b], or at [a] if the loop did not
    run. *)
Lemma for_loop_up (test : Z -> bool) (body : Z -> list cell) (a b : Z) (fuel : nat) :
  (forall i, test i = (i <? b)) ->
  CInt.INT_MIN <= a -> b <= CInt.INT_MAX -> Z.max 0 (b - a) < Z.of_nat fuel ->
  exists cs,
    for_loop fuel test (fun i => i +i 1) body a = Some (cs, Z.max a b) /\
    forall c, In c cs <-> exists i, a <= i < b /\ In c (body i).
Proof.
  intros T Ha Hb Hf.
  destruct (for_loop_stride test body b 1 T ltac:(lia) ltac:(lia) fuel a Ha Hf)
    as (cs & j & R & J1 & J2 & M).
  exists cs. split.
  - rewrite R. f_equal. f_equal. lia.
  - intros c. rewrite M. split.
    + intros (k & K0 & K1 & K2). exists (a + k * 1). split; [lia | exact K2].
    + intros (i & I & K). exists (i - a). replace (a + (i - a) * 1) with i by ring.
      repeat split; [lia | lia | exact K].
Qed.

(** The loop [for (i = a; i > b; i--)]: the body runs at every [i] from
    [a] down to [b + 1], and [i] is left at [b], or at [a] if the loop did
    not run. *)
Lemma for_loop_down (body : Z -> list cell) (b : Z) :
  CInt.INT_MIN <= b ->
  forall (fuel : nat) (a : Z),
    a <= CInt.INT_MAX -> Z.max 0 (a - b) < Z.of_nat fuel ->
    exists cs,
      for_loop fuel (fun i => i >? b) (fun i => i -i 1) body a = Some (cs, Z.min a b) /\
      forall c, In c cs <-> exists i, b < i <= a /\ In c (body i).
Proof.
  intros Hb. induction fuel as [|n IH]; intros a Ha Hf; [lia|].
  cbn [for_loop]. rewrite Z.gtb_ltb. destruct (Z.ltb_spec b a) as [L|L].
  - assert (E : a -i 1 = a - 1).
    { apply int_sub_exact. unfold CInt.in_range, CInt.INT_MIN, CInt.INT_MAX in *. lia. }
    rewrite E. destruct (IH (a - 1)) as (cs & R & M); [lia | lia |].
    rewrite R. exists (body a ++ cs). split; [f_equal; f_equal; lia|].
    intros c. rewrite in_app_iff, M. split.
    + intros [H | (i & I & K)]; [exists a | exists i]; (split; [lia | assumption]).
    + intros (i & I & K). destruct (Z.eq_dec i a) as [->|NE]; [left; exact K|].
      right. exists i. split; [lia | exact K].
  - exists []. split; [f_equal; f_equal; lia|].
    intros c. split; [intros [] | intros (i & I & _); lia].
Qed.
(* ================================================================= *)
(** ** What is drawn *)

Lemma in_one_cell (row col row' col' : Z) (ch ch' : ascii) :
  In (row, col, ch) [(row', col', ch')] <-> row = row' /\ col = col' /\ ch = ch'.
Proof.
  cbn [In]. split.
  - intros [E | []]. inversion E. auto.
  - intros (-> & -> & ->). left. reflexivity.
Qed.

(** The screen test of [draw_pipe] on a column [c + d]: the sum is taken
    in [int], and where it wraps the column is off the screen. *)
Lemma on_screen_column (c d : Z) :
  CInt.in_range c -> -3 <= d <= 3 ->
  ((c +i d >=? 0) && (c +i d <? NUM_COLS -i 1) = true <-> 0 <= c + d < NUM_COLS - 1) /\
  (0 <= c + d < NUM_COLS - 1 -> c +i d = c + d).
Proof.
  unfold CInt.in_range, CInt.INT_MIN, CInt.INT_MAX. intros Hc Hd.
  change (NUM_COLS -i 1) with 79. change (NUM_COLS - 1) with 79.
  rewrite andb_true_iff, Z.geb_le, Z.ltb_lt. unwrap. lia.
Qed.

Lemma pipe_cap_in (p : vpipe) (hch : ascii) (r i row col : Z) (ch : ascii) :
  CInt.in_range (center p) -> -3 <= i <= 3 ->
  In (row, col, ch) (pipe_cap p hch r i) <->
  row = r /\ ch = hch /\ col = center p + i /\ 0 <= col < NUM_COLS - 1.
Proof.
  intros Hc Hi. unfold pipe_cap.
  destruct (on_screen_column (center p) i Hc Hi) as [S E].
  destruct ((center p +i i >=? 0) && (center p +i i <? NUM_COLS -i 1)) eqn:B.
  - rewrite in_one_cell. rewrite E by (apply S; reflexivity).
    pose proof (proj1 S eq_refl). intuition (subst; auto).
  - cbn [In]. split; [intros [] | ]. intros (_ & _ & -> & H).
    apply S in H. discriminate.
Qed.

Lemma pipe_walls_in (p : vpipe) (vch : ascii) (i row col : Z) (ch : ascii) :
  CInt.in_range (center p) ->
  In (row, col, ch) (pipe_walls p vch i) <->
  row = i /\ ch = vch /\ Z.abs (col - center p) = PIPE_RADIUS /\ 0 <= col < NUM_COLS - 1.
Proof.
  intros Hc. unfold pipe_walls. rewrite in_app_iff.
  assert (L : In (row, col, ch)
                (if (center p -i PIPE_RADIUS >=? 0) && (center p -i PIPE_RADIUS <? NUM_COLS -i 1)
                 then [(i, center p -i PIPE_RADIUS, vch)] else [])
              <-> In (row, col, ch) (pipe_cap p vch i (- PIPE_RADIUS))).
  { unfold pipe_cap. replace (center p +i - PIPE_RADIUS) with (center p -i PIPE_RADIUS);
      [reflexivity|]. unfold CInt.add, CInt.sub. f_equal. }
  rewrite L. change (if (center p +i PIPE_RADIUS >=? 0) && (center p +i PIPE_RADIUS <? NUM_COLS -i 1)
                     then [(i, center p +i PIPE_RADIUS, vch)] else [])
    with (pipe_cap p vch i PIPE_RADIUS).
  rewrite !pipe_cap_in by (unfold PIPE_RADIUS; try assumption; lia).
  unfold PIPE_RADIUS.
  assert (A : Z.abs (col - center p) = 3 <-> col = center p + -3 \/ col = center p + 3) by lia.
  rewrite A. tauto.
Qed.

(** The horizontal loops of [draw_pipe]: the end of the pipe on row [r]. *)
Lemma cap_loop (fuel : nat) (p : vpipe) (hch : ascii) (r : Z) :
  CInt.in_range (center p) -> 7 < Z.of_nat fuel ->
  exists cs j,
    for_loop fuel (fun i => i <=? PIPE_RADIUS) (fun i => i +i 1)
      (pipe_cap p hch r) (- PIPE_RADIUS) = Some (cs, j) /\
    forall row col ch, In (row, col, ch) cs <->
      row = r /\ ch = hch /\ Z.abs (col - center p) <= PIPE_RADIUS /\
      0 <= col < NUM_COLS - 1.
Proof.
  intros Hc Hf.
  destruct (for_loop_up (fun i => i <=? PIPE_RADIUS) (pipe_cap p hch r)
              (- PIPE_RADIUS) (PIPE_RADIUS + 1) fuel) as (cs & R & M).
  - intros i. unfold PIPE_RADIUS.
    destruct (Z.leb_spec i 3), (Z.ltb_spec i (3 + 1)); try reflexivity; lia.
  - unfold CInt.INT_MIN, PIPE_RADIUS. lia.
  - unfold CInt.INT_MAX, PIPE_RADIUS. lia.
  - unfold PIPE_RADIUS. lia.
  - exists cs, (Z.max (- PIPE_RADIUS) (PIPE_RADIUS + 1)). split; [exact R|].
    intros row col ch. rewrite M. unfold PIPE_RADIUS. split.
    + intros (i & I & H). apply pipe_cap_in in H; [|exact Hc | lia].
      destruct H as (-> & -> & -> & S). repeat split; lia.
    + intros (-> & -> & A & S). exists (col - center p). split; [lia|].
      apply pipe_cap_in; [exact Hc | lia |]. repeat split; lia.
Qed.

(** [draw_pipe] returns, and writes exactly this: the two walls on the
    rows above the opening and below it, and the two ends of the pipe on
    the rows the vertical loops stop at. *)
Lemma draw_pipe_spec (fuel : nat) (p : vpipe) (vch hcht hchb : ascii)
    (ceiling_row floor_row : Z) :
  CInt.in_range (center p) ->
  CInt.INT_MIN <= ceiling_row < CInt.INT_MAX ->
  CInt.INT_MIN < floor_row <= CInt.INT_MAX ->
  Z.max 7 (Z.max (get_orow p 1 - ceiling_row) (floor_row - get_orow p 0))
    < Z.of_nat fuel ->
  exists cs,
    draw_pipe fuel p vch hcht hchb ceiling_row floor_row = Some cs /\
    forall row col ch, In (row, col, ch) cs <->
      0 <= col < NUM_COLS - 1 /\
      ((Z.abs (col - center p) = PIPE_RADIUS /\ ch = vch /\
        (ceiling_row < row < get_orow p 1 \/ get_orow p 0 < row < floor_row)) \/
       (Z.abs (col - center p) <= PIPE_RADIUS /\
        ((row = Z.max (ceiling_row + 1) (get_orow p 1) /\ ch = hcht) \/
         (row = Z.min (floor_row - 1) (get_orow p 0) /\ ch = hchb)))).
Proof.
  intros Hc Hce Hfl Hf.
  pose proof (int_of_float_in_range
    (fsub (fmul (opening_height p) (float_of_int (NUM_ROWS -i 1)))
          (float_of_int ((if 1 =? 0 then -1 else 1) *i OPENING_WIDTH /i 2)))) as R1.
  pose proof (int_of_float_in_range
    (fsub (fmul (opening_height p) (float_of_int (NUM_ROWS -i 1)))
          (float_of_int ((if 0 =? 0 then -1 else 1) *i OPENING_WIDTH /i 2)))) as R0.
  fold (get_orow p 1) in R1. fold (get_orow p 0) in R0.
  set (top := get_orow p 1) in *. set (bottom := get_orow p 0) in *.
  unfold CInt.in_range in R1, R0.
  assert (E1 : ceiling_row +i 1 = ceiling_row + 1).
  { apply int_add_exact. unfold CInt.in_range. lia. }
  assert (E2 : floor_row -i 1 = floor_row - 1).
  { apply int_sub_exact. unfold CInt.in_range. lia. }
  unfold draw_pipe. fold top bottom. rewrite E1, E2.
  destruct (for_loop_up (fun i => i <? top) (pipe_walls p vch) (ceiling_row + 1) top fuel)
    as (upper & U & MU); [reflexivity | lia | lia | lia |].
  rewrite U.
  destruct (cap_loop fuel p hcht (Z.max (ceiling_row + 1) top) Hc ltac:(lia))
    as (upper_end & j1 & UE & MUE).
  rewrite UE.
  destruct (for_loop_down (pipe_walls p vch) bottom ltac:(lia) fuel (floor_row - 1))
    as (lower & L & ML); [lia | lia |].
  rewrite L.
  destruct (cap_loop fuel p hchb (Z.min (floor_row - 1) bottom) Hc ltac:(lia))
    as (lower_end & j2 & LE & MLE).
  rewrite LE.
  eexists. split; [reflexivity|].
  intros row col ch. rewrite !in_app_iff, MU, MUE, ML, MLE. split.
  - intros [(i & I & H) | [H | [(i & I & H) | H]]].
    + apply pipe_walls_in in H; [|exact Hc]. destruct H as (-> & -> & A & S).
      split; [exact S|]. left. repeat split; try assumption. left. lia.
    + destruct H as (-> & -> & A & S). split; [exact S|]. right. split; [exact A|].
      left. split; reflexivity.
    + apply pipe_walls_in in H; [|exact Hc]. destruct H as (-> & -> & A & S).
      split; [exact S|]. left. repeat split; try assumption. right. lia.
    + destruct H as (-> & -> & A & S). split; [exact S|]. right. split; [exact A|].
      right. split; reflexivity.
  - intros (S & [(A & -> & [I | I]) | (A & [(-> & ->) | (-> & ->)])]).
    + left. exists row. split; [lia|]. apply pipe_walls_in; [exact Hc|]. auto.
    + right. right. left. exists row. split; [lia|]. apply pipe_walls_in; [exact Hc|]. auto.
    + right. left. auto.
    + right. right. right. auto.
Qed.

(** The rows of the opening of a generated pipe. *)
Lemma generated_rows (p : vpipe) :
  generated p ->
  2 <= get_orow p 1 <= 14 /\ 8 <= get_orow p 0 <= 20 /\
  6 <= get_orow p 0 - get_orow p 1 <= 7.
Proof.
  intros (r & Hr & E).
  assert (HK : 100 <= 128 <= 149) by lia.
  destruct (random_opening_normal 128 HK r Hr) as (v & N & L).
  pose proof (gap_rows 128 HK (random_opening r) (center p) v N L) as G.
  cbv zeta in G. rewrite <- E in G. destruct p as [oh c]. exact G.
Qed.

(** A bird that [crashed_into_pipe] lets through while it is within the
    columns of the pipe is on a row of the opening. *)
Lemma survives_pipe (f : flappy) (p : vpipe) :
  CInt.in_range (center p) ->
  get_orow p 1 < CInt.INT_MAX -> CInt.INT_MIN < get_orow p 0 ->
  crashed_into_pipe f p = 0 ->
  center p - PIPE_RADIUS - 1 <= FLAPPY_COL <= center p + PIPE_RADIUS + 1 ->
  get_orow p 1 + 1 <= get_flappy_position f <= get_orow p 0 - 1.
Proof.
  intros Hc Htop Hbot C B.
  pose proof (int_of_float_in_range
    (fsub (fmul (opening_height p) (float_of_int (NUM_ROWS -i 1)))
          (float_of_int ((if 1 =? 0 then -1 else 1) *i OPENING_WIDTH /i 2)))) as R1.
  pose proof (int_of_float_in_range
    (fsub (fmul (opening_height p) (float_of_int (NUM_ROWS -i 1)))
          (float_of_int ((if 0 =? 0 then -1 else 1) *i OPENING_WIDTH /i 2)))) as R0.
  fold (get_orow p 1) in R1. fold (get_orow p 0) in R0.
  assert (E1 : get_orow p 1 +i 1 = get_orow p 1 + 1).
  { apply int_add_exact. unfold CInt.in_range in *. lia. }
  assert (E0 : get_orow p 0 -i 1 = get_orow p 0 - 1).
  { apply int_sub_exact. unfold CInt.in_range in *. lia. }
  apply (column_test (center p) Hc) in B.
  unfold crashed_into_pipe in C. rewrite B, E1, E0 in C.
  destruct ((get_flappy_position f >=? get_orow p 1 + 1) &&
            (get_flappy_position f <=? get_orow p 0 - 1)) eqn:G; [|discriminate].
  apply andb_true_iff in G. rewrite Z.geb_le, Z.leb_le in G. exact G.
Qed.

(* ================================================================= *)
(** ** The pipes on the screen *)

(** X2.  [draw_pipe] returns for every pipe, and a character is written at a
    place exactly when the column is on the screen (0 to [NUM_COLS - 2])
    and either it is a wall ([vch], three columns from the centre, on a row
    between the ceiling and the top of the opening or between its bottom and
    the floor) or an end ([hcht] or [hchb], within three columns of the
    centre, on the row the vertical loop stopped at). *)
Theorem draw_pipe_cells (fuel : nat) (p : vpipe) (vch hcht hchb : ascii)
    (ceiling_row floor_row : Z) :
  CInt.in_range (center p) ->
  CInt.INT_MIN <= ceiling_row < CInt.INT_MAX ->
  CInt.INT_MIN < floor_row <= CInt.INT_MAX ->
  Z.max 7 (Z.max (get_orow p 1 - ceiling_row) (floor_row - get_orow p 0))
    < Z.of_nat fuel ->
  exists cs,
    draw_pipe fuel p vch hcht hchb ceiling_row floor_row = Some cs /\
    forall row col ch, In (row, col, ch) cs <->
      0 <= col < NUM_COLS - 1 /\
      ((Z.abs (col - center p) = PIPE_RADIUS /\ ch = vch /\
        (ceiling_row < row < get_orow p 1 \/ get_orow p 0 < row < floor_row)) \/
       (Z.abs (col - center p) <= PIPE_RADIUS /\
        ((row = Z.max (ceiling_row + 1) (get_orow p 1) /\ ch = hcht) \/
         (row = Z.min (floor_row - 1) (get_orow p 0) /\ ch = hchb)))).
Proof.
  intros Hc Hce Hfl Hf. exact (draw_pipe_spec fuel p vch hcht hchb _ _ Hc Hce Hfl Hf).
Qed.

(** The theorem at a pipe in the middle of the screen: its left wall is
    drawn on row 1. *)
Lemma draw_pipe_cells_witness :
  exists cs,
    draw_pipe 24 (mk_vpipe (random_opening 0) 40) "|" "=" "=" 0 23 = Some cs /\
    In (1, 37, "|"%char) cs.
Proof.
  assert (Hc : CInt.in_range (center (mk_vpipe (random_opening 0) 40))).
  { unfold CInt.in_range, CInt.INT_MIN, CInt.INT_MAX. simpl. lia. }
  assert (Hce : CInt.INT_MIN <= 0 < CInt.INT_MAX).
  { unfold CInt.INT_MIN, CInt.INT_MAX. lia. }
  assert (Hfl : CInt.INT_MIN < 23 <= CInt.INT_MAX).
  { unfold CInt.INT_MIN, CInt.INT_MAX. lia. }
  assert (Hf : Z.max 7 (Z.max (get_orow (mk_vpipe (random_opening 0) 40) 1 - 0)
                              (23 - get_orow (mk_vpipe (random_opening 0) 40) 0))
               < Z.of_nat 24).
  { vm_compute. reflexivity. }
  destruct (draw_pipe_cells 24 (mk_vpipe (random_opening 0) 40) "|" "=" "=" 0 23
              Hc Hce Hfl Hf) as (cs & E & M).
  exists cs. split; [exact E|]. apply M.
  split; [unfold NUM_COLS; lia|]. left. split; [reflexivity|]. split; [reflexivity|].
  left. split; [lia|]. vm_compute. reflexivity.
Defined.

(** X3.  In the game ([draw_pipe(p, '|', '=', '=', 0, NUM_ROWS - 1)] on a pipe
    whose opening [rand()] gave) everything a pipe writes is on the screen,
    within three columns of its centre, below the ceiling row and above the
    floor row, and outside the rows of the opening. *)
Theorem draw_pipe_in_game (fuel : nat) (p : vpipe) (vch hcht hchb : ascii) :
  generated p -> CInt.in_range (center p) -> NUM_ROWS <= Z.of_nat fuel ->
  exists cs,
    draw_pipe fuel p vch hcht hchb 0 (NUM_ROWS -i 1) = Some cs /\
    forall row col ch, In (row, col, ch) cs ->
      0 <= col < NUM_COLS - 1 /\
      center p - PIPE_RADIUS <= col <= center p + PIPE_RADIUS /\
      (0 < row <= get_orow p 1 \/ get_orow p 0 <= row < NUM_ROWS - 1).
Proof.
  intros G Hc Hf. destruct (generated_rows p G) as (T & B & D).
  change (NUM_ROWS -i 1) with 23. unfold NUM_ROWS, PIPE_RADIUS in *.
  destruct (draw_pipe_spec fuel p vch hcht hchb 0 23 Hc) as (cs & E & M).
  - unfold CInt.INT_MIN, CInt.INT_MAX. lia.
  - unfold CInt.INT_MIN, CInt.INT_MAX. lia.
  - lia.
  - exists cs. split; [exact E|]. intros row col ch H. apply M in H.
    unfold PIPE_RADIUS in H. lia.
Qed.

Lemma draw_pipe_in_game_witness :
  exists cs,
    draw_pipe 24 (mk_vpipe (random_opening 0) 40) "|" "=" "=" 0 (NUM_ROWS -i 1) = Some cs /\
    forall row col ch, In (row, col, ch) cs -> 0 < row < NUM_ROWS - 1.
Proof.
  assert (G : generated (mk_vpipe (random_opening 0) 40)).
  { exists 0. split; [unfold CInt.INT_MAX; lia | reflexivity]. }
  assert (Hc : CInt.in_range (center (mk_vpipe (random_opening 0) 40))).
  { unfold CInt.in_range, CInt.INT_MIN, CInt.INT_MAX. simpl. lia. }
  assert (Hf : NUM_ROWS <= Z.of_nat 24) by (unfold NUM_ROWS; simpl; lia).
  destruct (draw_pipe_in_game 24 (mk_vpipe (random_opening 0) 40) "|" "=" "=" G Hc Hf)
    as (cs & E & M).
  exists cs. split; [exact E|]. intros row col ch H.
  destruct (M row col ch H) as (_ & _ & R).
  assert (T : get_orow (mk_vpipe (random_opening 0) 40) 1 = 2) by (vm_compute; reflexivity).
  assert (B : get_orow (mk_vpipe (random_opening 0) 40) 0 = 8) by (vm_compute; reflexivity).
  rewrite T, B in R. unfold NUM_ROWS in *. lia.
Defined.

(** X4.  A pipe writes nothing exactly when it is wholly off the screen: its
    centre more than three columns left of column 0, or at least three
    right of the last column drawn.  The centre [pipe_refresh] recycles a
    pipe at and the one it gives it are both such. *)
Theorem draw_pipe_nothing (fuel : nat) (p : vpipe) (vch hcht hchb : ascii)
    (ceiling_row floor_row : Z) :
  CInt.in_range (center p) ->
  CInt.INT_MIN <= ceiling_row < CInt.INT_MAX ->
  CInt.INT_MIN < floor_row <= CInt.INT_MAX ->
  Z.max 7 (Z.max (get_orow p 1 - ceiling_row) (floor_row - get_orow p 0))
    < Z.of_nat fuel ->
  (draw_pipe fuel p vch hcht hchb ceiling_row floor_row = Some [] <->
   center p + PIPE_RADIUS < 0 \/ NUM_COLS - 1 <= center p - PIPE_RADIUS).
Proof.
  intros Hc Hce Hfl Hf.
  destruct (draw_pipe_spec fuel p vch hcht hchb _ _ Hc Hce Hfl Hf) as (cs & E & M).
  rewrite E. unfold PIPE_RADIUS, NUM_COLS in *. split.
  - intros X. inversion X; subst.
    destruct (Z_lt_le_dec (center p + 3) 0) as [A|A]; [left; exact A|].
    destruct (Z_le_gt_dec (80 - 1) (center p - 3)) as [B|B]; [right; exact B|].
    exfalso.
    apply (proj2 (M (Z.max (ceiling_row + 1) (get_orow p 1)) (Z.max 0 (center p - 3)) hcht)).
    split; [lia|]. right. split; [lia|]. left. split; reflexivity.
  - intros O. destruct cs as [|[[row col] ch] rest]; [reflexivity|]. exfalso.
    assert (H : In (row, col, ch) ((row, col, ch) :: rest)) by (left; reflexivity).
    apply M in H. lia.
Qed.

(** The theorem at a pipe about to be recycled. *)
Lemma draw_pipe_nothing_witness :
  draw_pipe 24 (mk_vpipe (random_opening 0) (-4)) "|" "=" "=" 0 23 = Some [].
Proof.
  assert (Hc : CInt.in_range (center (mk_vpipe (random_opening 0) (-4)))).
  { unfold CInt.in_range, CInt.INT_MIN, CInt.INT_MAX. simpl. lia. }
  assert (Hce : CInt.INT_MIN <= 0 < CInt.INT_MAX).
  { unfold CInt.INT_MIN, CInt.INT_MAX. lia. }
  assert (Hfl : CInt.INT_MIN < 23 <= CInt.INT_MAX).
  { unfold CInt.INT_MIN, CInt.INT_MAX. lia. }
  assert (Hf : Z.max 7 (Z.max (get_orow (mk_vpipe (random_opening 0) (-4)) 1 - 0)
                              (23 - get_orow (mk_vpipe (random_opening 0) (-4)) 0))
               < Z.of_nat 24).
  { vm_compute. reflexivity. }
  apply (proj2 (draw_pipe_nothing 24 (mk_vpipe (random_opening 0) (-4)) "|" "=" "=" 0 23
                  Hc Hce Hfl Hf)).
  left. unfold PIPE_RADIUS. simpl. lia.
Defined.

(** X5.  Collision and drawing agree: where [crashed_into_pipe] lets the bird
    through, the pipe as drawn has no character on the bird's body nor on
    the two places beside it. *)
Theorem draw_pipe_spares_bird (fuel : nat) (f : flappy) (p : vpipe)
    (vch hcht hchb : ascii) :
  generated p -> CInt.in_range (center p) -> NUM_ROWS <= Z.of_nat fuel ->
  crashed_into_pipe f p = 0 ->
  exists cs,
    draw_pipe fuel p vch hcht hchb 0 (NUM_ROWS -i 1) = Some cs /\
    forall col ch, FLAPPY_COL - 1 <= col <= FLAPPY_COL + 1 ->
      ~ In (get_flappy_position f, col, ch) cs.
Proof.
  intros G Hc Hf C. destruct (generated_rows p G) as (T & B & D).
  change (NUM_ROWS -i 1) with 23. unfold NUM_ROWS in *.
  destruct (draw_pipe_spec fuel p vch hcht hchb 0 23 Hc) as (cs & E & M).
  - unfold CInt.INT_MIN, CInt.INT_MAX. lia.
  - unfold CInt.INT_MIN, CInt.INT_MAX. lia.
  - lia.
  - exists cs. split; [exact E|]. intros col ch Hcol H. apply M in H.
    assert (S : center p - PIPE_RADIUS - 1 <= FLAPPY_COL <= center p + PIPE_RADIUS + 1 ->
                get_orow p 1 + 1 <= get_flappy_position f <= get_orow p 0 - 1).
    { apply survives_pipe; try assumption; unfold CInt.INT_MIN, CInt.INT_MAX; lia. }
    unfold PIPE_RADIUS, FLAPPY_COL in *. lia.
Qed.

(** The theorem at the bird of a new game, in the opening of a pipe that
    stands on its column. *)
Lemma draw_pipe_spares_bird_witness :
  exists cs,
    draw_pipe 24 (mk_vpipe (random_opening CInt.INT_MAX) 10) "|" "=" "=" 0 (NUM_ROWS -i 1)
      = Some cs /\
    ~ In (get_flappy_position (mk_flappy 15 0), FLAPPY_COL, "="%char) cs.
Proof.
  assert (G : generated (mk_vpipe (random_opening CInt.INT_MAX) 10)).
  { exists CInt.INT_MAX. split; [unfold CInt.INT_MAX; lia | reflexivity]. }
  assert (Hc : CInt.in_range (center (mk_vpipe (random_opening CInt.INT_MAX) 10))).
  { unfold CInt.in_range, CInt.INT_MIN, CInt.INT_MAX. simpl. lia. }
  assert (Hf : NUM_ROWS <= Z.of_nat 24) by (unfold NUM_ROWS; simpl; lia).
  assert (C : crashed_into_pipe (mk_flappy 15 0) (mk_vpipe (random_opening CInt.INT_MAX) 10) = 0).
  { vm_compute. reflexivity. }
  destruct (draw_pipe_spares_bird 24 (mk_flappy 15 0) _ "|" "=" "=" G Hc Hf C)
    as (cs & E & M).
  exists cs. split; [exact E|]. apply M. unfold FLAPPY_COL. lia.
Defined.

(* ================================================================= *)
(** ** The floor and the ceiling *)

(** X6.  With a positive spacing [draw_floor_and_ceiling] returns; it writes
    [ch] and nothing else, at the columns [col_start], [col_start + spacing],
    ... below [NUM_COLS - 1]: on the floor row at each of them, on the
    ceiling row at those left of [SCORE_START_COL - sdigs - bdigs], where
    the score line starts. *)
Theorem draw_floor_and_ceiling_cells (fuel : nat) (g : globals)
    (ceiling_row floor_row : Z) (ch : ascii) (spacing col_start : Z) :
  1 <= spacing <= CInt.INT_MAX - NUM_COLS ->
  CInt.INT_MIN <= col_start ->
  Z.max 0 (NUM_COLS - 1 - col_start) < Z.of_nat fuel ->
  exists cs,
    draw_floor_and_ceiling fuel g ceiling_row floor_row ch spacing col_start = Some cs /\
    forall row col c, In (row, col, c) cs <->
      c = ch /\ col < NUM_COLS - 1 /\
      (exists k, 0 <= k /\ col = col_start + k * spacing) /\
      (row = floor_row \/
       (row = ceiling_row /\ col < SCORE_START_COL -i sdigs g -i bdigs g)).
Proof.
  intros Hs Hc Hf. unfold draw_floor_and_ceiling.
  change (NUM_COLS -i 1) with 79. unfold NUM_COLS in *.
  set (body := fun i : Z =>
     (if i <? SCORE_START_COL -i sdigs g -i bdigs g then [(ceiling_row, i, ch)] else [])
     ++ [(floor_row, i, ch)]).
  destruct (for_loop_stride (fun i => i <? 79) body 79 spacing) with (fuel := fuel) (a := col_start)
    as (cs & j & R & _ & _ & M);
    [intros i; reflexivity | lia | unfold CInt.INT_MAX in *; lia | exact Hc | lia |].
  - rewrite R. exists cs. split; [reflexivity|].
    intros row col c. rewrite M. unfold body. split.
    + intros (k & K0 & K1 & H). apply in_app_iff in H.
      destruct (col_start + k * spacing <? SCORE_START_COL -i sdigs g -i bdigs g) eqn:Q.
      * apply Z.ltb_lt in Q.
        destruct H as [H | H]; apply in_one_cell in H; destruct H as (-> & -> & ->);
          (split; [reflexivity|]); (split; [lia|]); (split; [exists k; split; [lia | reflexivity]|]).
        -- right. split; [reflexivity | exact Q].
        -- left. reflexivity.
      * destruct H as [[] | H]. apply in_one_cell in H. destruct H as (-> & -> & ->).
        split; [reflexivity|]. split; [lia|]. split; [exists k; split; [lia | reflexivity]|].
        left. reflexivity.
    + intros (-> & L & (k & K0 & ->) & [-> | (-> & Q)]).
      * exists k. split; [exact K0|]. split; [lia|]. apply in_app_iff. right.
        apply in_one_cell. auto.
      * exists k. split; [exact K0|]. split; [lia|]. apply in_app_iff. left.
        apply Z.ltb_lt in Q. rewrite Q. apply in_one_cell. auto.
Qed.

(** The theorem at the call of [main] in an even frame: column 60 of the
    floor is written. *)
Lemma draw_floor_and_ceiling_cells_witness :
  exists cs,
    draw_floor_and_ceiling 80 initial_globals 0 23 "/" 2 0 = Some cs /\
    In (23, 60, "/"%char) cs.
Proof.
  assert (Hs : 1 <= 2 <= CInt.INT_MAX - NUM_COLS).
  { unfold CInt.INT_MAX, NUM_COLS. lia. }
  assert (Hc : CInt.INT_MIN <= 0) by (unfold CInt.INT_MIN; lia).
  assert (Hf : Z.max 0 (NUM_COLS - 1 - 0) < Z.of_nat 80).
  { vm_compute. reflexivity. }
  destruct (draw_floor_and_ceiling_cells 80 initial_globals 0 23 "/" 2 0 Hs Hc Hf)
    as (cs & E & M).
  exists cs. split; [exact E|]. apply M.
  split; [reflexivity|]. split; [unfold NUM_COLS; lia|].
  split; [exists 30; lia | left; reflexivity].
Defined.

(** X7.  With a spacing of 0 the loop of [draw_floor_and_ceiling] never moves
    on: from a starting column on the screen the function does not return,
    whatever the number of rounds it is given. *)
Theorem draw_floor_and_ceiling_spacing_0 (fuel : nat) (g : globals)
    (ceiling_row floor_row : Z) (ch : ascii) (col_start : Z) :
  CInt.INT_MIN <= col_start < NUM_COLS - 1 ->
  draw_floor_and_ceiling fuel g ceiling_row floor_row ch 0 col_start = None.
Proof.
  intros Hc. unfold draw_floor_and_ceiling.
  change (NUM_COLS -i 1) with 79. unfold NUM_COLS in Hc.
  assert (E : col_start +i 0 = col_start).
  { rewrite int_add_exact; [lia|].
    unfold CInt.in_range, CInt.INT_MIN, CInt.INT_MAX in *. lia. }
  assert (L : for_loop fuel (fun i => i <? 79) (fun i => i +i 0)
                (fun i => (if i <? SCORE_START_COL -i sdigs g -i bdigs g
                           then [(ceiling_row, i, ch)] else []) ++ [(floor_row, i, ch)])
                col_start = None).
  { induction fuel as [|n IH]; [reflexivity|].
    cbn [for_loop]. destruct (Z.ltb_spec col_start 79) as [_|X]; [|lia].
    rewrite E, IH. reflexivity. }
  rewrite L. reflexivity.
Qed.

Lemma draw_floor_and_ceiling_spacing_0_witness :
  draw_floor_and_ceiling 1000 initial_globals 0 23 "/" 0 0 = None.
Proof.
  apply draw_floor_and_ceiling_spacing_0.
  unfold CInt.INT_MIN, NUM_COLS. lia.
Defined.

(* ================================================================= *)
(** ** One iteration of the loop, taken apart *)

(** What an iteration that returns has done: the game it ran on, the two
    calls of [pipe_refresh], the bird it moved, and either the bird passed
    the tests of [draw_flappy] or the failure screen returned. *)
Lemma main_loop_body_inv (i : frame_input) (g : globals) (l : locals)
      (l' : locals) (g' : globals) :
  main_loop_body i g l = Returned l' g' ->
  exists g0 f0 q1 g1 q2 g2,
    (if restart l then start_game i g else (g, bird l)) = (g0, f0) /\
    key_polled i <> CHAR_q /\
    pipe_refresh (rand_pipe1 i) (p1 g0) g0 = (q1, g1) /\
    pipe_refresh (rand_pipe2 i) (p2 g0) (set_p1 q1 g1) = (q2, g2) /\
    bird l' = (if key_polled i =? KEY_UP then boost f0
               else mk_flappy (h0 f0) (t f0 +i 1)) /\
    p1 g' = q1 /\ p2 g' = q2 /\
    (restart l' = false ->
       hits_floor_or_ceiling (get_flappy_position (bird l')) = false /\
       crashed_into_pipe (bird l') q1 = 0 /\ crashed_into_pipe (bird l') q2 = 0 /\
       g' = set_frame (frame g2 +i 1) (set_p2 q2 g2)) /\
    (restart l' = true ->
       failure_screen (key_failure i) (set_p2 q2 g2) = Returned 1 g').
Proof.
  intros H. unfold main_loop_body in H.
  destruct (if restart l then start_game i g else (g, bird l)) as [g0 f0] eqn:S.
  destruct (Z.eqb_spec (key_polled i) CHAR_q) as [|NQ]; [discriminate|].
  set (f1 := if key_polled i =? KEY_UP then boost f0
             else mk_flappy (h0 f0) (t f0 +i 1)) in *.
  pose proof (pipe_refresh_cases (rand_pipe1 i) (p1 g0) g0) as C1.
  destruct (pipe_refresh (rand_pipe1 i) (p1 g0) g0) as [q1 g1] eqn:R1.
  cbn [snd] in C1. cbv zeta in C1.
  assert (P2 : p2 (set_p1 q1 g1) = p2 g0) by (unfold set_p1; cbn [p2]; tauto).
  rewrite P2 in H.
  pose proof (pipe_refresh_cases (rand_pipe2 i) (p2 g0) (set_p1 q1 g1)) as C2.
  destruct (pipe_refresh (rand_pipe2 i) (p2 g0) (set_p1 q1 g1)) as [q2 g2] eqn:R2.
  cbn [snd] in C2. cbv zeta in C2.
  assert (P1 : p1 g2 = q1) by (destruct C2 as (_ & _ & _ & -> & _); reflexivity).
  exists g0, f0, q1, g1, q2, g2.
  split; [reflexivity|]. split; [exact NQ|]. split; [exact R1|]. split; [exact R2|].
  remember (set_p2 q2 g2) as gg eqn:Egg.
  assert (G1 : p1 gg = q1) by (rewrite Egg; unfold set_p2; cbn [p1]; exact P1).
  assert (G2 : p2 gg = q2) by (rewrite Egg; reflexivity).
  assert (F : forall v g3, failure_screen (key_failure i) gg = Returned v g3 ->
                v = 1 /\ p1 g3 = q1 /\ p2 g3 = q2).
  { intros v g3 E.
    destruct (Z.eq_dec (CInt.to_char (key_failure i)) CHAR_q) as [Q|Q].
    - rewrite (failure_screen_quit _ gg Q) in E. discriminate.
    - destruct (failure_screen_again _ gg Q) as (g4 & E4 & _ & _ & _ & A & B & _).
      rewrite E4 in E. inversion E; subst. rewrite A, B. auto. }
  unfold draw_flappy in H. rewrite G1, G2 in H.
  destruct (hits_floor_or_ceiling (get_flappy_position f1)) eqn:HF.
  { cbn [fst] in H. destruct (failure_screen (key_failure i) gg) as [|v g3] eqn:E;
      [discriminate|].
    destruct (F v g3 eq_refl) as (-> & A & B). cbn in H. inversion H; subst.
    cbn [restart bird]. repeat split; auto; discriminate. }
  destruct (Z.eqb_spec (crashed_into_pipe f1 q1) 0) as [K1|K1];
    [destruct (Z.eqb_spec (crashed_into_pipe f1 q2) 0) as [K2|K2] |]; cbn [negb orb fst] in H.
  - cbn in H. inversion H; subst. cbn [restart bird].
    repeat split; auto; discriminate.
  - destruct (failure_screen (key_failure i) gg) as [|v g3] eqn:E; [discriminate|].
    destruct (F v g3 eq_refl) as (-> & A & B). cbn in H. inversion H; subst.
    cbn [restart bird]. repeat split; auto; discriminate.
  - destruct (failure_screen (key_failure i) gg) as [|v g3] eqn:E; [discriminate|].
    destruct (F v g3 eq_refl) as (-> & A & B). cbn in H. inversion H; subst.
    cbn [restart bird]. repeat split; auto; discriminate.
Qed.

(* ================================================================= *)
(** ** The pipes during a game *)

(** The centre [pipe_refresh] leaves a pipe with, and what it does to the
    score, for a pipe that is on the screen or about to enter or leave it. *)
Lemma pipe_refresh_center (r : Z) (p : vpipe) (g : globals) :
  -4 <= center p <= 200 ->
  center (fst (pipe_refresh r p g)) = (if center p =? -4 then 82 else center p - 1) /\
  score (snd (pipe_refresh r p g)) = (if center p =? -4 then score g +i 1 else score g) /\
  (center p <> -4 -> opening_height (fst (pipe_refresh r p g)) = opening_height p) /\
  (center p = -4 -> opening_height (fst (pipe_refresh r p g)) = random_opening r).
Proof.
  intros Hc.
  assert (E : center p +i PIPE_RADIUS = center p + 3).
  { apply int_add_exact. unfold CInt.in_range, CInt.INT_MIN, CInt.INT_MAX, PIPE_RADIUS. lia. }
  destruct (Z.eqb_spec (center p) (-4)) as [C|C].
  - rewrite pipe_refresh_recycled by (rewrite E; lia). cbn [fst snd]. cbv zeta.
    split; [reflexivity|]. split; [|split; [intros X; contradiction | reflexivity]].
    destruct g as [fr sc sd bs bd q1 q2]. unfold set_score.
    cbn [frame score sdigs best_score bdigs p1 p2].
    destruct ((sd =? 1) && (sc +i 1 >? 9)); [reflexivity|].
    destruct ((sd =? 2) && (sc +i 1 >? 99)); reflexivity.
  - rewrite pipe_refresh_kept by (rewrite E; lia). cbn [fst snd center opening_height].
    split; [apply int_sub_exact; unfold CInt.in_range, CInt.INT_MIN, CInt.INT_MAX; lia|].
    split; [reflexivity|]. split; [reflexivity | intros X; contradiction].
Qed.

(** The pipes of a new game: [start_game] puts them at columns 94 and 138
    and gives each an opening drawn with [rand()]. *)
Lemma start_game_pipes (i : frame_input) (g : globals) :
  center (p1 (fst (start_game i g))) = 94 /\
  center (p2 (fst (start_game i g))) = 138 /\
  opening_height (p1 (fst (start_game i g))) = random_opening (rand_start1 i) /\
  opening_height (p2 (fst (start_game i g))) = random_opening (rand_start2 i) /\
  snd (start_game i g) = mk_flappy 12 0 /\
  score (fst (start_game i g)) = score g.
Proof.
  unfold start_game. cbn [fst snd p1 p2 set_p1 set_p2 center opening_height score].
  repeat split; vm_compute; reflexivity.
Qed.

(** Where the two pipes are while a game is on: 44 columns apart, the
    second behind the first, or, once the first has been recycled and
    until the second is, 43 columns apart the other way round. *)
Lemma reachable_centers (s : globals * locals) :
  reachable s -> restart (snd s) = false ->
  (center (p2 (fst s)) = center (p1 (fst s)) + 44 /\ -4 <= center (p1 (fst s)) <= 93) \/
  (center (p1 (fst s)) = center (p2 (fst s)) + 43 /\ -4 <= center (p2 (fst s)) <= 39).
Proof.
  induction 1 as [f | i g l g' l' R IH H]; [discriminate|].
  cbn [fst snd] in *. intros Rl'.
  destruct (main_loop_body_inv i g l l' g' H)
    as (g0 & f0 & q1 & g1 & q2 & g2 & S & _ & R1 & R2 & _ & P1 & P2 & _).
  rewrite P1, P2.
  assert (C : (center (p1 g0) = 94 /\ center (p2 g0) = 138) \/
              (center (p2 g0) = center (p1 g0) + 44 /\ -4 <= center (p1 g0) <= 93) \/
              (center (p1 g0) = center (p2 g0) + 43 /\ -4 <= center (p2 g0) <= 39)).
  { destruct (restart l).
    - left. pose proof (start_game_pipes i g) as Q. rewrite S in Q. cbn [fst] in Q. tauto.
    - right. inversion S; subst. apply IH. reflexivity. }
  pose proof (pipe_refresh_center (rand_pipe1 i) (p1 g0) g0) as [A1 _].
  { lia. }
  pose proof (pipe_refresh_center (rand_pipe2 i) (p2 g0) (set_p1 q1 g1)) as [A2 _].
  { lia. }
  rewrite R1 in A1. rewrite R2 in A2. cbn [fst] in A1, A2. rewrite A1, A2.
  destruct (Z.eqb_spec (center (p1 g0)) (-4)), (Z.eqb_spec (center (p2 g0)) (-4)); lia.
Qed.

(** A bird left to fall for 42 ticks from a row of the screen is on the
    floor or below. *)
Lemma free_fall_floor (a : Z) :
  1 <= a <= 22 -> 23 <= get_flappy_position (mk_flappy a 42).
Proof.
  intros Ha. rewrite get_flappy_position_exact by lia.
  apply Z.quot_le_lower_bound; [reflexivity|].
  change (2 ^ 29) with 536870912. change (2 ^ 28) with 268435456. lia.
Qed.

Lemma off_boundary (h : Z) :
  hits_floor_or_ceiling h = false <-> 0 < h < NUM_ROWS - 1.
Proof.
  unfold hits_floor_or_ceiling. rewrite orb_false_iff, Z.leb_gt, Z.geb_leb, Z.leb_gt. lia.
Qed.

(** The bird while a game is on: on a row between the ceiling and the
    floor, with a reference height that is such a row, and no more than 41
    ticks after its last boost. *)
Lemma reachable_bird (s : globals * locals) :
  reachable s -> restart (snd s) = false ->
  1 <= h0 (bird (snd s)) <= 22 /\ 0 <= t (bird (snd s)) <= 41 /\
  1 <= get_flappy_position (bird (snd s)) <= 22.
Proof.
  induction 1 as [f | i g l g' l' R IH H]; [discriminate|].
  cbn [fst snd] in *. intros Rl'.
  destruct (main_loop_body_inv i g l l' g' H)
    as (g0 & f0 & q1 & g1 & q2 & g2 & S & _ & _ & _ & B & _ & _ & D & _).
  destruct (D Rl') as (HF & _). apply off_boundary in HF. unfold NUM_ROWS in HF.
  assert (B0 : 1 <= h0 f0 <= 22 /\ 0 <= t f0 <= 41 /\ 1 <= get_flappy_position f0 <= 22).
  { destruct (restart l).
    - pose proof (start_game_pipes i g) as Q. rewrite S in Q. cbn [snd] in Q.
      destruct Q as (_ & _ & _ & _ & -> & _). cbn [h0 t].
      rewrite position_at_rest by (change (2 ^ 24) with 16777216; lia). lia.
    - inversion S; subst. apply IH. reflexivity. }
  rewrite B in *. destruct (key_polled i =? KEY_UP).
  - unfold boost in *. cbn [h0 t].
    rewrite position_at_rest by (change (2 ^ 24) with 16777216; lia). lia.
  - cbn [h0 t] in *.
    assert (E : t f0 +i 1 = t f0 + 1).
    { apply int_add_exact. unfold CInt.in_range, CInt.INT_MIN, CInt.INT_MAX. lia. }
    rewrite E in *. split; [lia|]. split; [|lia].
    destruct (Z.eq_dec (t f0) 41) as [X|X]; [|lia]. exfalso.
    rewrite X in HF. change (41 + 1) with 42 in HF.
    pose proof (free_fall_floor (h0 f0)). lia.
Qed.

(** An iteration on inputs [rand()] can give leaves two pipes whose
    openings [rand()] gave. *)
Lemma step_generated (i : frame_input) (g : globals) (l : locals)
      (l' : locals) (g' : globals) :
  rand_ok i -> reachable (g, l) ->
  (restart l = false -> generated (p1 g) /\ generated (p2 g)) ->
  main_loop_body i g l = Returned l' g' ->
  generated (p1 g') /\ generated (p2 g').
Proof.
  intros (I1 & I2 & I3 & I4) R G H.
  destruct (main_loop_body_inv i g l l' g' H)
    as (g0 & f0 & q1 & g1 & q2 & g2 & S & _ & R1 & R2 & _ & P1 & P2 & _).
  assert (C : (-4 <= center (p1 g0) <= 200 /\ -4 <= center (p2 g0) <= 200) /\
              generated (p1 g0) /\ generated (p2 g0)).
  { destruct (restart l) eqn:Rl.
    - pose proof (start_game_pipes i g) as Q. rewrite S in Q. cbn [fst] in Q.
      destruct Q as (A & B & C & D & _). split; [lia|].
      split; [exists (rand_start1 i) | exists (rand_start2 i)]; auto.
    - inversion S; subst. split; [|apply G; reflexivity].
      pose proof (reachable_centers (g0, l) R Rl) as Q. cbn [fst] in Q. lia. }
  destruct C as ((C1 & C2) & G1 & G2).
  pose proof (pipe_refresh_center (rand_pipe1 i) (p1 g0) g0 C1) as (_ & _ & K1 & N1).
  pose proof (pipe_refresh_center (rand_pipe2 i) (p2 g0) (set_p1 q1 g1) C2) as (_ & _ & K2 & N2).
  rewrite R1 in K1, N1. rewrite R2 in K2, N2. cbn [fst] in K1, N1, K2, N2.
  rewrite P1, P2. split.
  - destruct (Z.eq_dec (center (p1 g0)) (-4)) as [X|X].
    + exists (rand_pipe1 i). auto.
    + destruct G1 as (r & Hr & Er). exists r. rewrite K1 by exact X. auto.
  - destruct (Z.eq_dec (center (p2 g0)) (-4)) as [X|X].
    + exists (rand_pipe2 i). auto.
    + destruct G2 as (r & Hr & Er). exists r. rewrite K2 by exact X. auto.
Qed.

(** Through a run on inputs [rand()] can give, the pipes keep openings
    [rand()] gave. *)
Lemma run_generated (inputs : list frame_input) :
  Forall rand_ok inputs ->
  forall s s', reachable s ->
    (restart (snd s) = false -> generated (p1 (fst s)) /\ generated (p2 (fst s))) ->
    run inputs s = Some s' ->
    reachable s' /\
    (restart (snd s') = false -> generated (p1 (fst s')) /\ generated (p2 (fst s'))).
Proof.
  induction 1 as [|i rest Hi Hrest IH]; intros [g l] s' R G H; cbn [run fst snd] in *.
  - inversion H; subst. split; [exact R | exact G].
  - destruct (main_loop_body i g l) as [|l1 g1] eqn:E; [discriminate|].
    apply (IH (g1, l1) s'); [exact (reach_step i g l g1 l1 R E) | | exact H].
    intros _. cbn [fst]. exact (step_generated i g l l1 g1 Hi R G E).
Qed.

(** A pipe that is not within [PIPE_RADIUS + 1] columns of the bird cannot
    be crashed into. *)
Lemma out_of_band (f : flappy) (p : vpipe) :
  CInt.in_range (center p) ->
  ~ center p - PIPE_RADIUS - 1 <= FLAPPY_COL <= center p + PIPE_RADIUS + 1 ->
  crashed_into_pipe f p = 0.
Proof.
  intros Hc N. unfold crashed_into_pipe.
  destruct ((FLAPPY_COL >=? center p -i PIPE_RADIUS -i 1) &&
            (FLAPPY_COL <=? center p +i PIPE_RADIUS +i 1)) eqn:B; [|reflexivity].
  apply (column_test (center p) Hc) in B. contradiction.
Qed.

(** X8.  While a game is on the two pipes are between columns -4 and 137 and 43
    or 44 columns apart, so that at most one of them is at the bird's
    column: whatever the bird, it cannot crash into both. *)
Theorem pipes_stay_apart (g : globals) (l : locals) :
  reachable (g, l) -> restart l = false ->
  -4 <= center (p1 g) <= 93 /\ -4 <= center (p2 g) <= 137 /\
  43 <= Z.abs (center (p2 g) - center (p1 g)) <= 44 /\
  forall f, crashed_into_pipe f (p1 g) = 0 \/ crashed_into_pipe f (p2 g) = 0.
Proof.
  intros R Rl. pose proof (reachable_centers (g, l) R Rl) as C. cbn [fst] in C.
  split; [lia|]. split; [lia|]. split; [lia|]. intros f.
  destruct (Z_le_gt_dec (center (p1 g)) 14) as [A|A]; [right | left];
    apply out_of_band;
    unfold CInt.in_range, CInt.INT_MIN, CInt.INT_MAX, PIPE_RADIUS, FLAPPY_COL; lia.
Qed.

(** The theorem at the state after the first frame of a game. *)
Lemma pipes_stay_apart_witness :
  exists g l,
    main_loop_body (mk_input 0 0 0 0 0 0) initial_globals
      (mk_locals (mk_flappy 0 0) true) = Returned l g /\
    43 <= Z.abs (center (p2 g) - center (p1 g)) <= 44.
Proof.
  destruct (main_loop_body (mk_input 0 0 0 0 0 0) initial_globals
              (mk_locals (mk_flappy 0 0) true)) as [|l g] eqn:E.
  - vm_compute in E. discriminate.
  - exists g, l. split; [reflexivity|].
    assert (Rl : restart l = false).
    { vm_compute in E. injection E as <- _. reflexivity. }
    exact (proj1 (proj2 (proj2 (pipes_stay_apart g l
      (reach_step _ _ _ _ _ (reach_entry (mk_flappy 0 0)) E) Rl)))).
Defined.



(** X10.  While a game is on the bird is on a row strictly between the ceiling
    and the floor, its reference height is such a row too, and its last
    boost is at most 41 ticks old; so a boost there leaves it on its row. *)
Theorem bird_stays_on_screen (g : globals) (l : locals) :
  reachable (g, l) -> restart l = false ->
  0 < get_flappy_position (bird l) < NUM_ROWS - 1 /\
  0 < h0 (bird l) < NUM_ROWS - 1 /\ 0 <= t (bird l) <= 41 /\
  get_flappy_position (boost (bird l)) = get_flappy_position (bird l).
Proof.
  intros R Rl. pose proof (reachable_bird (g, l) R Rl) as (A & B & C). cbn [snd] in *.
  unfold NUM_ROWS. split; [lia|]. split; [lia|]. split; [lia|].
  unfold boost. apply position_at_rest. change (2 ^ 24) with 16777216. lia.
Qed.

(** The theorem at the state after the first frame of a game. *)
Lemma bird_stays_on_screen_witness :
  exists g l,
    main_loop_body (mk_input 0 0 0 0 0 0) initial_globals
      (mk_locals (mk_flappy 0 0) true) = Returned l g /\
    0 < get_flappy_position (bird l) < NUM_ROWS - 1.
Proof.
  destruct (main_loop_body (mk_input 0 0 0 0 0 0) initial_globals
              (mk_locals (mk_flappy 0 0) true)) as [|l g] eqn:E.
  - vm_compute in E. discriminate.
  - exists g, l. split; [reflexivity|].
    assert (Rl : restart l = false).
    { vm_compute in E. injection E as <- _. reflexivity. }
    exact (proj1 (bird_stays_on_screen g l
      (reach_step _ _ _ _ _ (reach_entry (mk_flappy 0 0)) E) Rl)).
Defined.

(** X11.  Through every game played on values [rand()] can return, the opening
    of each pipe has its top edge on rows 2 to 14 and its bottom edge on
    rows 8 to 20, six or seven rows below the top. *)
Theorem gaps_stay_open (inputs : list frame_input) (f : flappy)
      (g : globals) (l : locals) (p : vpipe) :
  Forall rand_ok inputs -> run inputs (entry_state f) = Some (g, l) ->
  restart l = false -> p = p1 g \/ p = p2 g ->
  2 <= get_orow p 1 <= 14 /\ 8 <= get_orow p 0 <= 20 /\
  6 <= get_orow p 0 - get_orow p 1 <= 7.
Proof.
  intros I H Rl P.
  destruct (run_generated inputs I (entry_state f) (g, l) (reach_entry f)) as (_ & G).
  - discriminate.
  - exact H.
  - cbn [fst snd] in G. destruct (G Rl) as (G1 & G2).
    apply generated_rows. destruct P as [-> | ->]; assumption.
Qed.

(** The theorem at the first pipe after the first frame of a game. *)
Lemma gaps_stay_open_witness :
  exists g l,
    run [mk_input 0 0 0 0 0 0] (entry_state (mk_flappy 0 0)) = Some (g, l) /\
    6 <= get_orow (p1 g) 0 - get_orow (p1 g) 1 <= 7.
Proof.
  assert (I : Forall rand_ok [mk_input 0 0 0 0 0 0]).
  { constructor; [|constructor]. unfold rand_ok, CInt.INT_MAX. simpl. lia. }
  destruct (run [mk_input 0 0 0 0 0 0] (entry_state (mk_flappy 0 0))) as [[g l]|] eqn:E.
  - exists g, l. split; [reflexivity|].
    assert (Rl : restart l = false).
    { vm_compute in E. injection E as _ <-. reflexivity. }
    exact (proj2 (proj2 (gaps_stay_open _ _ g l (p1 g) I E Rl (or_introl eq_refl)))).
  - vm_compute in E. discriminate.
Defined.

(** [get_orow] reads the opening of the pipe only. *)
Lemma get_orow_opening (p q : vpipe) (top : Z) :
  opening_height p = opening_height q -> get_orow p top = get_orow q top.
Proof. intros E. unfold get_orow. rewrite E. reflexivity. Qed.

(** One pipe of a frame in which the bird is drawn: as [main] draws it,
    before [pipe_refresh] moves it, it has no character on the bird's body. *)
Lemma drawn_pipe_spares_bird (fuel : nat) (r : Z) (p : vpipe) (g : globals) (f : flappy) :
  generated p -> -4 <= center p <= 200 -> NUM_ROWS <= Z.of_nat fuel ->
  crashed_into_pipe f (fst (pipe_refresh r p g)) = 0 ->
  exists cs,
    draw_pipe fuel p "|" "=" "=" 0 (NUM_ROWS -i 1) = Some cs /\
    forall ch, ~ In (get_flappy_position f, FLAPPY_COL, ch) cs.
Proof.
  intros G Hc Hf C. destruct (generated_rows p G) as (T & B & D).
  assert (Rc : CInt.in_range (center p)).
  { unfold CInt.in_range, CInt.INT_MIN, CInt.INT_MAX. lia. }
  change (NUM_ROWS -i 1) with 23. unfold NUM_ROWS in *.
  destruct (draw_pipe_spec fuel p "|" "=" "=" 0 23 Rc) as (cs & E & M).
  - unfold CInt.INT_MIN, CInt.INT_MAX. lia.
  - unfold CInt.INT_MIN, CInt.INT_MAX. lia.
  - lia.
  - exists cs. split; [exact E|]. intros ch H. apply M in H.
    unfold PIPE_RADIUS, FLAPPY_COL, NUM_COLS in H.
    destruct (Z.eq_dec (center p) (-4)) as [X|X]; [lia|].
    pose proof (pipe_refresh_center r p g Hc) as (A & _ & K & _).
    destruct (Z.eqb_spec (center p) (-4)) as [|_]; [contradiction|].
    specialize (K X). set (q := fst (pipe_refresh r p g)) in *.
    assert (S : center q - PIPE_RADIUS - 1 <= FLAPPY_COL <= center q + PIPE_RADIUS + 1 ->
                get_orow q 1 + 1 <= get_flappy_position f <= get_orow q 0 - 1).
    { apply survives_pipe.
      - unfold CInt.in_range, CInt.INT_MIN, CInt.INT_MAX. lia.
      - rewrite (get_orow_opening q p 1 K). unfold CInt.INT_MAX. lia.
      - rewrite (get_orow_opening q p 0 K). unfold CInt.INT_MIN. lia.
      - exact C. }
    rewrite (get_orow_opening q p 1 K), (get_orow_opening q p 0 K), A in S.
    unfold PIPE_RADIUS, FLAPPY_COL in S. lia.
Qed.

(** X12.  What is seen is what is tested: in every frame of a game in which the
    bird is drawn, neither pipe, as that frame draws it, has a character on
    the place of the bird's body. *)
Theorem frame_spares_bird (fuel : nat) (inputs : list frame_input) (f : flappy)
      (i : frame_input) (g : globals) (l : locals) (l' : locals) (g' : globals) :
  Forall rand_ok inputs -> rand_ok i -> NUM_ROWS <= Z.of_nat fuel ->
  run inputs (entry_state f) = Some (g, l) ->
  main_loop_body i g l = Returned l' g' -> restart l' = false ->
  let g0 := if restart l then fst (start_game i g) else g in
  exists cs1 cs2,
    draw_pipe fuel (p1 g0) "|" "=" "=" 0 (NUM_ROWS -i 1) = Some cs1 /\
    draw_pipe fuel (p2 g0) "|" "=" "=" 0 (NUM_ROWS -i 1) = Some cs2 /\
    forall ch, ~ In (get_flappy_position (bird l'), FLAPPY_COL, ch) (cs1 ++ cs2).
Proof.
  intros I (I1 & I2 & _) Hf H E Rl' g0.
  destruct (run_generated inputs I (entry_state f) (g, l) (reach_entry f)
              ltac:(discriminate) H) as (R & G).
  cbn [fst snd] in G.
  destruct (main_loop_body_inv i g l l' g' E)
    as (g0' & f0 & q1 & g1 & q2 & g2 & S & _ & R1 & R2 & _ & _ & _ & D & _).
  destruct (D Rl') as (_ & C1 & C2 & _).
  assert (E0 : g0' = g0).
  { unfold g0. destruct (restart l); [rewrite S; reflexivity | inversion S; reflexivity]. }
  subst g0'.
  assert (C : (-4 <= center (p1 g0) <= 200 /\ -4 <= center (p2 g0) <= 200) /\
              generated (p1 g0) /\ generated (p2 g0)).
  { unfold g0. destruct (restart l) eqn:Rl.
    - pose proof (start_game_pipes i g) as (A & B & A' & B' & _). split; [lia|].
      split; [exists (rand_start1 i) | exists (rand_start2 i)]; auto.
    - split; [|apply G; reflexivity].
      pose proof (reachable_centers (g, l) R Rl) as Q. cbn [fst] in Q. lia. }
  destruct C as ((B1 & B2) & G1 & G2).
  destruct (drawn_pipe_spares_bird fuel (rand_pipe1 i) (p1 g0) g0 (bird l') G1 B1 Hf)
    as (cs1 & D1 & M1); [rewrite R1; exact C1|].
  destruct (drawn_pipe_spares_bird fuel (rand_pipe2 i) (p2 g0) (set_p1 q1 g1) (bird l')
              G2 B2 Hf) as (cs2 & D2 & M2); [rewrite R2; exact C2|].
  exists cs1, cs2. split; [exact D1|]. split; [exact D2|].
  intros ch X. apply in_app_iff in X. destruct X as [X | X]; [exact (M1 ch X) | exact (M2 ch X)].
Qed.


(* ================================================================= *)
(** ** The bird on the screen *)



(* ================================================================= *)
(** ** The widths of the two scores *)


Lemma failure_screen_returned (key : Z) (g : globals) (v : Z) (g' : globals) :
  failure_screen key g = Returned v g' ->
  score g' = 0 /\ sdigs g' = 1 /\
  best_score g' = Z.max (score g) (best_score g) /\
  (bdigs g' = bdigs g \/ (bdigs g = 1 /\ bdigs g' = 2) \/ (bdigs g = 2 /\ bdigs g' = 3)).
Proof.
  intros E. destruct (Z.eq_dec (CInt.to_char key) CHAR_q) as [Q|Q].
  - rewrite (failure_screen_quit _ g Q) in E. discriminate.
  - destruct (failure_screen_again _ g Q) as (g4 & E4 & A & B & _ & _ & _ & C & D).
    rewrite E4 in E. inversion E; subst. auto.
Qed.



(** X15.  The counter [bdigs] can fall behind: [failure_screen] raises it by one
    at most, so the first time a game ends with a best score of three
    digits while [bdigs] is 1, it is left at 2. *)
Theorem best_width_lags (key : Z) (g : globals) (v : Z) (g' : globals) :
  failure_screen key g = Returned v g' ->
  bdigs g <= bdigs g' <= bdigs g + 1 /\
  (bdigs g = 1 -> 100 <= score g -> best_score g < score g ->
   best_score g' = score g /\ bdigs g' = 2 /\ bdigs g' < width_of (best_score g')).
Proof.
  intros E. pose proof (failure_screen_returned key g v g' E) as (_ & _ & M & B).
  split; [lia|]. intros B1 S L.
  assert (Q : CInt.to_char key <> CHAR_q).
  { intros Q. rewrite (failure_screen_quit _ g Q) in E. discriminate. }
  unfold failure_screen in E.
  destruct (Z.eqb_spec (CInt.to_char key) CHAR_q) as [|_]; [contradiction|].
  destruct g as [fr sc sd bs bd q1 q2]. cbn [score best_score bdigs] in *. subst bd.
  assert (G : (sc >? bs) = true) by (apply Z.gtb_lt; lia).
  rewrite G in E. unfold set_best_score in E. cbn [frame score sdigs best_score bdigs p1 p2] in E.
  assert (G9 : (sc >? 9) = true) by (apply Z.gtb_lt; lia).
  rewrite G9 in E. cbn in E. inversion E; subst.
  unfold set_sdigs, set_score, set_bdigs. cbn [best_score bdigs].
  split; [reflexivity|]. split; [reflexivity|].
  unfold width_of. destruct (Z.ltb_spec sc 10); [lia|]. destruct (Z.ltb_spec sc 100); lia.
Qed.

(** The theorem at the end of a first game that scored 150. *)
Lemma best_width_lags_witness :
  exists g',
    failure_screen 10 (mk_globals 0 150 3 0 1 zero_pipe zero_pipe) = Returned 1 g' /\
    best_score g' = 150 /\ bdigs g' = 2.
Proof.
  destruct (failure_screen 10 (mk_globals 0 150 3 0 1 zero_pipe zero_pipe))
    as [|v g'] eqn:E.
  - vm_compute in E. discriminate.
  - assert (V : v = 1) by (vm_compute in E; injection E as <- _; reflexivity).
    subst v. exists g'. split; [reflexivity|].
    destruct (proj2 (best_width_lags 10 _ 1 g' E) eq_refl ltac:(simpl; lia) ltac:(simpl; lia))
      as (A & B & _).
    split; [exact A | exact B].
Defined.

(* ================================================================= *)
(** ** A flap *)

(** X16.  A boost lifts the bird by three rows and no more: ten ticks after it
    the bird is three rows above its reference height, and at no tick is
    it higher. *)
Theorem flap_height (a n : Z) :
  3 <= a <= 2 ^ 20 -> 0 <= n <= 20000 ->
  get_flappy_position (mk_flappy a 10) = a - 3 /\
  a - 3 <= get_flappy_position (mk_flappy a n).
Proof.
  intros Ha Hn. change (2 ^ 20) with 1048576 in Ha.
  rewrite !get_flappy_position_exact by (change (2 ^ 20) with 1048576; lia).
  change (2 ^ 29) with 536870912. change (2 ^ 28) with 268435456. split.
  - rewrite Z.quot_div_nonneg by lia. symmetry.
    apply Z.div_unique with (r := 268435476); lia.
  - apply Z.quot_le_lower_bound; [reflexivity|].
    pose proof (Z.square_nonneg (n - 10)) as Q.
    replace ((n - 10) * (n - 10)) with (n * n - 20 * n + 100) in Q by ring. lia.
Qed.

(** The theorem at the bird of a new game, thirty ticks after a boost. *)
Lemma flap_height_witness :
  12 - 3 <= get_flappy_position (mk_flappy 12 30).
Proof.
  assert (Ha : 3 <= 12 <= 2 ^ 20) by (change (2 ^ 20) with 1048576; lia).
  exact (proj2 (flap_height 12 30 Ha ltac:(lia))).
Defined.

(* ================================================================= *)
(** ** More on the failure screen and the bird *)

(** X17.  [failure_screen] reads the key into a [char], so it ends the process
    on every key code that is 113 (['q']) modulo 256, and on no other;
    every other key makes it return 1. *)
Theorem failure_screen_quit_keys (key : Z) (g : globals) :
  (failure_screen key g = Exited g <-> key mod 256 = 113) /\
  (key mod 256 <> 113 -> exists g', failure_screen key g = Returned 1 g').
Proof.
  assert (Q : CInt.to_char key = CHAR_q <-> key mod 256 = 113).
  { unfold CInt.to_char, CHAR_q.
    replace (key + 128) with (key + 128 * 1) by ring.
    pose proof (Z.mod_pos_bound key 256 ltac:(lia)).
    pose proof (Z.mod_pos_bound (key + 128 * 1) 256 ltac:(lia)).
    assert (E : (key + 128 * 1) mod 256 = (key mod 256 + 128) mod 256).
    { rewrite Z.mul_1_r. rewrite (Z.add_mod key 128 256) by lia. reflexivity. }
    rewrite E in *.
    destruct (Z_lt_le_dec (key mod 256) 128) as [C|C].
    - rewrite (Z.mod_small (key mod 256 + 128) 256) by lia. lia.
    - replace (key mod 256 + 128) with (key mod 256 - 128 + 1 * 256) by ring.
      rewrite Z.mod_add by lia. rewrite Z.mod_small by lia. lia. }
  split.
  - split.
    + intros E. apply Q. destruct (Z.eq_dec (CInt.to_char key) CHAR_q) as [X|X]; [exact X|].
      destruct (failure_screen_again key g X) as (g' & E' & _). congruence.
    + intros E. apply failure_screen_quit. apply Q. exact E.
  - intros N. destruct (failure_screen_again key g) as (g' & E' & _).
    + intros X. apply N. apply Q. exact X.
    + exists g'. exact E'.
Qed.



(** X19.  The row of the bird in closed form: for a reference height of at most
    2^20 in absolute value and up to 20000 ticks, every [float] and
    [double] operation of [get_flappy_position] is exact, and the row is
    [h0 - t/2 + g t^2 / 2] truncated towards zero, with
    [g = 13421773 / 2^28], the [float] that [GRAV] holds for 0.05. *)
Theorem flappy_position_closed_form (a n : Z) :
  Z.abs a <= 2 ^ 20 -> 0 <= n <= 20000 ->
  get_flappy_position (mk_flappy a n)
  = Z.quot ((2 * a - n) * 2 ^ 28 + 13421773 * n * n) (2 ^ 29).
Proof.
  intros Ha Hn. exact (get_flappy_position_exact a n Ha Hn).
Qed.

(** The theorem at the bird of a new game after 20 ticks: back on row 12. *)
Lemma flappy_position_closed_form_witness :
  get_flappy_position (mk_flappy 12 20)
  = Z.quot ((2 * 12 - 20) * 2 ^ 28 + 13421773 * 20 * 20) (2 ^ 29).
Proof.
  apply flappy_position_closed_form.
  - change (2 ^ 20) with 1048576. simpl. lia.
  - lia.
Defined.

(** The theorem at the smallest and the largest value of [rand()]. *)
Lemma gap_rows_generated_witness :
  6 <= get_orow (mk_vpipe (random_opening 0) 82) 0
       - get_orow (mk_vpipe (random_opening 0) 82) 1 <= 7 /\
  6 <= get_orow (mk_vpipe (random_opening CInt.INT_MAX) 82) 0
       - get_orow (mk_vpipe (random_opening CInt.INT_MAX) 82) 1 <= 7.
Proof.
  split.
  - apply (gap_rows_generated 0 82). unfold CInt.INT_MAX. lia.
  - apply (gap_rows_generated CInt.INT_MAX 82). unfold CInt.INT_MAX. lia.
Defined.

(** X20.  A new game always starts: the first iteration after a restart, on
    any key but ['q'], returns with the bird drawn on row 11 or 12 (12 if
    the key was a boost), the pipes at columns 93 and 137, off the screen,
    and the score as it was. *)
Theorem new_game_starts (i : frame_input) (g : globals) (l : locals) :
  restart l = true -> key_polled i <> CHAR_q ->
  exists l' g',
    main_loop_body i g l = Returned l' g' /\ restart l' = false /\
    center (p1 g') = 93 /\ center (p2 g') = 137 /\
    h0 (bird l') = NUM_ROWS / 2 /\
    11 <= get_flappy_position (bird l') <= 12 /\
    score g' = score g /\ frame g' = frame g +i 1.
Proof.
  intros Rl NQ. unfold main_loop_body. rewrite Rl.
  pose proof (start_game_pipes i g) as (A1 & A2 & _ & _ & F0 & S0).
  destruct (start_game i g) as [g0 f0] eqn:SG. cbn [fst snd] in *. subst f0.
  destruct (Z.eqb_spec (key_polled i) CHAR_q) as [|_]; [contradiction|].
  set (f1 := if key_polled i =? KEY_UP then boost (mk_flappy 12 0)
             else mk_flappy (h0 (mk_flappy 12 0)) (t (mk_flappy 12 0) +i 1)).
  assert (P : h0 f1 = 12 /\ 11 <= get_flappy_position f1 <= 12).
  { unfold f1. destruct (key_polled i =? KEY_UP).
    - split; vm_compute; [reflexivity | split; discriminate].
    - split; vm_compute; [reflexivity | split; discriminate]. }
  destruct P as (P0 & P1).
  rewrite (pipe_refresh_kept (rand_pipe1 i) (p1 g0) g0) by (rewrite A1; vm_compute; discriminate).
  assert (E2 : p2 (set_p1 (mk_vpipe (opening_height (p1 g0)) (center (p1 g0) -i 1)) g0) = p2 g0)
    by reflexivity.
  rewrite E2.
  rewrite (pipe_refresh_kept (rand_pipe2 i) (p2 g0)) by (rewrite A2; vm_compute; discriminate).
  rewrite A1, A2. change (94 -i 1) with 93. change (138 -i 1) with 137.
  set (q1 := mk_vpipe (opening_height (p1 g0)) 93).
  set (q2 := mk_vpipe (opening_height (p2 g0)) 137).
  set (gg := set_p2 q2 (set_p1 q1 g0)).
  assert (D : draw_flappy (key_failure i) f1 gg
              = (Returned 0 gg, flappy_glyph (frame gg) f1 (get_flappy_position f1))).
  { unfold draw_flappy.
    assert (HF : hits_floor_or_ceiling (get_flappy_position f1) = false).
    { apply off_boundary. unfold NUM_ROWS. lia. }
    rewrite HF.
    assert (K1 : crashed_into_pipe f1 (p1 gg) = 0).
    { apply out_of_band; unfold gg, set_p2, set_p1, q1; cbn [p1 center];
        unfold CInt.in_range, CInt.INT_MIN, CInt.INT_MAX, PIPE_RADIUS, FLAPPY_COL; lia. }
    assert (K2 : crashed_into_pipe f1 (p2 gg) = 0).
    { apply out_of_band; unfold gg, set_p2, set_p1, q2; cbn [p2 center];
        unfold CInt.in_range, CInt.INT_MIN, CInt.INT_MAX, PIPE_RADIUS, FLAPPY_COL; lia. }
    rewrite K1, K2. reflexivity. }
  rewrite D. cbn [fst negb Z.eqb].
  eexists. eexists. split; [reflexivity|]. cbn [restart bird].
  split; [reflexivity|]. unfold gg, set_frame, set_p2, set_p1.
  cbn [p1 p2 center score frame]. split; [reflexivity|]. split; [reflexivity|].
  split; [exact P0|]. split; [exact P1|]. split; [exact S0|].
  f_equal. unfold start_game in SG. inversion SG. reflexivity.
Qed.

(** The theorem at the first frame of the first game. *)
Lemma new_game_starts_witness :
  exists l' g',
    main_loop_body (mk_input 0 0 0 0 0 0) initial_globals
      (mk_locals (mk_flappy 0 0) true) = Returned l' g' /\
    restart l' = false.
Proof.
  destruct (new_game_starts (mk_input 0 0 0 0 0 0) initial_globals
              (mk_locals (mk_flappy 0 0) true) eq_refl)
    as (l' & g' & E & R & _).
  - vm_compute. discriminate.
  - exists l', g'. split; [exact E | exact R].
Defined.

(* ================================================================= *)
(** ** The boost and the best score in the loop *)

(** The sample games are played on values [rand()] can return. *)
Lemma sample_frames_rand_ok :
  rand_ok idle_frame /\ rand_ok flap_frame /\ rand_ok quit_frame.
Proof.
  unfold rand_ok, idle_frame, flap_frame, quit_frame, CInt.INT_MAX. simpl. lia.
Qed.

Lemma hover_rand_ok (n m : nat) :
  Forall rand_ok (hover n ++ repeat idle_frame m).
Proof.
  destruct sample_frames_rand_ok as (I & F & _).
  apply Forall_forall. intros x H. apply in_app_iff in H. destruct H as [H | H].
  - unfold hover in H. apply in_concat in H. destruct H as (c & C & X).
    apply repeat_spec in C. subst c. apply in_app_iff in X. destruct X as [X | [<- | []]].
    + apply repeat_spec in X. subst x. exact I.
    + exact F.
  - apply repeat_spec in H. subst x. exact I.
Qed.

(** C2.  In every state the loop can be in, the boost of [case KEY_UP]
    ([f.h0 = get_flappy_position(f); f.t = 0]) leaves the row of the bird as
    it was: the bird the boost is applied to (the one of a new game after a
    restart, the current one otherwise) has [t >= 0], the boosted bird has
    the old row as [h0] and [t = 0], and its row is the old row; an
    iteration on the up arrow that returns leaves that boosted bird. *)
Theorem boost_keeps_row_in_game (i : frame_input) (g : globals) (l : locals) :
  reachable (g, l) ->
  let f := if restart l then snd (start_game i g) else bird l in
  0 <= t f /\
  h0 (boost f) = get_flappy_position f /\ t (boost f) = 0 /\
  get_flappy_position (boost f) = get_flappy_position f /\
  (forall l' g', main_loop_body i g l = Returned l' g' -> key_polled i = KEY_UP ->
     bird l' = boost f /\ get_flappy_position (bird l') = get_flappy_position f).
Proof.
  intros R f.
  assert (B0 : 0 <= t f /\ 1 <= get_flappy_position f <= 22).
  { unfold f. destruct (restart l) eqn:Rl.
    - pose proof (start_game_pipes i g) as (_ & _ & _ & _ & -> & _). cbn [t].
      rewrite position_at_rest by (change (2 ^ 24) with 16777216; lia). lia.
    - pose proof (reachable_bird (g, l) R Rl) as (_ & A & B). cbn [snd] in A, B. lia. }
  destruct B0 as (T0 & P0).
  assert (K : get_flappy_position (boost f) = get_flappy_position f).
  { apply boost_keeps_position. change (2 ^ 24) with 16777216. lia. }
  split; [exact T0|]. split; [reflexivity|]. split; [reflexivity|]. split; [exact K|].
  intros l' g' H U.
  destruct (main_loop_body_inv i g l l' g' H)
    as (g0 & f0 & q1 & g1 & q2 & g2 & S & _ & _ & _ & B & _).
  assert (F0 : f0 = f).
  { unfold f. destruct (restart l); [rewrite S; reflexivity | inversion S; reflexivity]. }
  subst f0. rewrite U, Z.eqb_refl in B. rewrite B. split; [reflexivity | exact K].
Qed.

(** The theorem five frames into a game, the bird on its way up from row
    12: it is on row 10, and the up arrow in the next frame leaves it on
    row 10, with [h0 = 10] and [t = 0]. *)
Lemma boost_keeps_row_in_game_witness :
  exists g l l' g',
    run (repeat idle_frame 5) (entry_state (mk_flappy 0 0)) = Some (g, l) /\
    bird l = mk_flappy 12 5 /\ get_flappy_position (bird l) = 10 /\
    main_loop_body flap_frame g l = Returned l' g' /\
    bird l' = mk_flappy 10 0 /\
    get_flappy_position (bird l') = get_flappy_position (bird l).
Proof.
  destruct (run (repeat idle_frame 5) (entry_state (mk_flappy 0 0)))
    as [[g l]|] eqn:E; [|vm_compute in E; discriminate].
  pose proof (run_reachable _ _ _ (reach_entry (mk_flappy 0 0)) E) as Rch.
  vm_compute in E. injection E as Eg El.
  destruct (main_loop_body flap_frame g l) as [|l' g'] eqn:S;
    [rewrite <- Eg, <- El in S; vm_compute in S; discriminate|].
  destruct (boost_keeps_row_in_game flap_frame g l Rch) as (_ & _ & _ & _ & B).
  destruct (B l' g' S eq_refl) as (B1 & B2).
  rewrite <- El in B1, B2. cbn [restart bird] in B1, B2.
  exists g, l, l', g'. split; [reflexivity|].
  split; [rewrite <- El; reflexivity|].
  split; [rewrite <- El; vm_compute; reflexivity|].
  split; [exact S|]. split.
  - rewrite B1. vm_compute. reflexivity.
  - rewrite <- El. cbn [bird]. exact B2.
Defined.

(** C7.  On the failure screen the key ['q'] ends the process with the
    globals, [best_score] among them, exactly as they were, also when
    [score > best_score].  The score is stored into [best_score] by a call
    of [failure_screen] that returns, which only happens on a key other than
    ['q'], and nowhere else: no exit of the loop body changes [best_score];
    an iteration that returns with the bird drawn leaves it as it was; one
    that returns after the failure screen was given a key other than ['q']
    there and has the larger of the two scores; [pipe_refresh] and
    [start_game] do not touch it. *)
Theorem quit_keeps_best_score :
  (forall g, failure_screen CHAR_q g = Exited g) /\
  (forall key g v g', failure_screen key g = Returned v g' ->
     CInt.to_char key <> CHAR_q /\
     best_score g' = Z.max (score g) (best_score g)) /\
  (forall i g l g', main_loop_body i g l = Exited g' ->
     best_score g' = best_score g) /\
  (forall i g l l' g', main_loop_body i g l = Returned l' g' ->
     (restart l' = false -> best_score g' = best_score g) /\
     (restart l' = true ->
        CInt.to_char (key_failure i) <> CHAR_q /\
        exists gf, failure_screen (key_failure i) gf = Returned 1 g' /\
                   best_score gf = best_score g /\
                   best_score g' = Z.max (score gf) (best_score g))) /\
  (forall r p g, best_score (snd (pipe_refresh r p g)) = best_score g) /\
  (forall i g, best_score (fst (start_game i g)) = best_score g).
Proof.
  destruct best_score_at_exit as (A & B & C).
  split; [exact A|]. split; [exact B|]. split; [exact C|].
  assert (P : forall r p g, best_score (snd (pipe_refresh r p g)) = best_score g).
  { intros r p g. pose proof (pipe_refresh_cases r p g) as Q. cbv zeta in Q. tauto. }
  assert (G : forall i g, best_score (fst (start_game i g)) = best_score g).
  { intros i g. pose proof (start_game_counters i g) as Q. cbv zeta in Q. tauto. }
  split; [|split; [exact P | exact G]].
  intros i g l l' g' H.
  destruct (main_loop_body_inv i g l l' g' H)
    as (g0 & f0 & q1 & g1 & q2 & g2 & S & _ & R1 & R2 & _ & _ & _ & D & F).
  assert (B0 : best_score g0 = best_score g).
  { destruct (restart l).
    - rewrite <- (G i g), S. reflexivity.
    - inversion S; reflexivity. }
  assert (B2 : best_score (set_p2 q2 g2) = best_score g).
  { pose proof (P (rand_pipe1 i) (p1 g0) g0) as X1.
    pose proof (P (rand_pipe2 i) (p2 g0) (set_p1 q1 g1)) as X2.
    rewrite R1 in X1. rewrite R2 in X2. cbn [snd] in X1, X2.
    unfold set_p1 in X2. unfold set_p2. cbn [best_score] in *. congruence. }
  split.
  - intros Rl. destruct (D Rl) as (_ & _ & _ & ->). unfold set_frame. cbn [best_score].
    exact B2.
  - intros Rl. specialize (F Rl). destruct (B _ _ _ _ F) as (Q & M).
    split; [exact Q|]. exists (set_p2 q2 g2). split; [exact F|]. split; [exact B2|].
    rewrite M, B2. reflexivity.
Qed.

(** The theorem at the end of a game of 118 frames.  After 117 frames the
    score is 1, the best score 0, and the bird one row above the floor; in
    the next frame it reaches the floor.  With ['q'] typed on the failure
    screen the process ends and the best score is still 0; with Enter the
    iteration returns for a restart with the best score at 1; a frame in
    which the bird is drawn (the first of the game) leaves the best score
    alone. *)
Lemma quit_keeps_best_score_witness :
  exists g l g_quit l' g' l1 g1,
    run (hover 4 ++ repeat idle_frame 33) (entry_state (mk_flappy 0 0)) = Some (g, l) /\
    (score g = 1 /\ best_score g = 0) /\
    (main_loop_body quit_frame g l = Exited g_quit /\
     score g_quit = 1 /\ best_score g_quit = best_score g) /\
    (main_loop_body idle_frame g l = Returned l' g' /\ restart l' = true /\
     best_score g' = 1 /\
     exists gf, failure_screen (key_failure idle_frame) gf = Returned 1 g' /\
                best_score gf = best_score g /\
                best_score g' = Z.max (score gf) (best_score g)) /\
    (main_loop_body idle_frame initial_globals (mk_locals (mk_flappy 0 0) true)
       = Returned l1 g1 /\ restart l1 = false /\
     best_score g1 = best_score initial_globals).
Proof.
  destruct quit_keeps_best_score as (_ & _ & X & Y & _).
  destruct (run (hover 4 ++ repeat idle_frame 33) (entry_state (mk_flappy 0 0)))
    as [[g l]|] eqn:E; [|vm_compute in E; discriminate].
  vm_compute in E. injection E as Eg El.
  destruct (main_loop_body quit_frame g l) as [g_quit|] eqn:Q;
    [|rewrite <- Eg, <- El in Q; vm_compute in Q; discriminate].
  destruct (main_loop_body idle_frame g l) as [|l' g'] eqn:S;
    [rewrite <- Eg, <- El in S; vm_compute in S; discriminate|].
  destruct (main_loop_body idle_frame initial_globals (mk_locals (mk_flappy 0 0) true))
    as [|l1 g1] eqn:S1; [vm_compute in S1; discriminate|].
  assert (Q0 := Q). rewrite <- Eg, <- El in Q0. vm_compute in Q0. injection Q0 as Qg.
  assert (S0 := S). rewrite <- Eg, <- El in S0. vm_compute in S0. injection S0 as Sl Sg.
  assert (T1 := S1). vm_compute in T1. injection T1 as Tl Tg.
  assert (R : restart l' = true) by (rewrite <- Sl; reflexivity).
  assert (R1 : restart l1 = false) by (rewrite <- Tl; reflexivity).
  exists g, l, g_quit, l', g', l1, g1.
  split; [reflexivity|].
  split; [rewrite <- Eg; split; reflexivity|].
  split; [split; [exact Q | split; [rewrite <- Qg; reflexivity | exact (X _ _ _ _ Q)]]|].
  split.
  - split; [exact S|]. split; [exact R|]. split; [rewrite <- Sg; reflexivity|].
    exact (proj2 (proj2 (Y _ _ _ _ _ S) R)).
  - split; [reflexivity|]. split; [exact R1|]. exact (proj1 (Y _ _ _ _ _ S1) R1).
Defined.

(** The theorem at frame 84 of a game.  The first pipe stands one column
    right of the bird's column, so that its two ends, on rows 8 and 14,
    cross that column; the bird, on row 12, is in the opening, and nothing
    of either pipe is drawn on its place. *)
Lemma frame_spares_bird_witness :
  exists g l l' g' cs1 cs2,
    run (hover 3 ++ repeat idle_frame 20) (entry_state (mk_flappy 0 0)) = Some (g, l) /\
    center (p1 g) = 11 /\
    main_loop_body idle_frame g l = Returned l' g' /\
    get_flappy_position (bird l') = 12 /\
    draw_pipe 24 (p1 g) "|" "=" "=" 0 (NUM_ROWS -i 1) = Some cs1 /\
    draw_pipe 24 (p2 g) "|" "=" "=" 0 (NUM_ROWS -i 1) = Some cs2 /\
    In (8, FLAPPY_COL, "="%char) cs1 /\ In (14, FLAPPY_COL, "="%char) cs1 /\
    forall ch, ~ In (get_flappy_position (bird l'), FLAPPY_COL, ch) (cs1 ++ cs2).
Proof.
  destruct sample_frames_rand_ok as (Ii & _).
  assert (Hf : NUM_ROWS <= Z.of_nat 24) by (unfold NUM_ROWS; simpl; lia).
  destruct (run (hover 3 ++ repeat idle_frame 20) (entry_state (mk_flappy 0 0)))
    as [[g l]|] eqn:E; [|vm_compute in E; discriminate].
  assert (E0 := E). vm_compute in E0. injection E0 as Eg El.
  destruct (main_loop_body idle_frame g l) as [|l' g'] eqn:S;
    [rewrite <- Eg, <- El in S; vm_compute in S; discriminate|].
  assert (S0 := S). rewrite <- Eg, <- El in S0. vm_compute in S0. injection S0 as Sl Sg.
  assert (R : restart l' = false) by (rewrite <- Sl; reflexivity).
  pose proof (frame_spares_bird 24 _ _ idle_frame g l l' g'
                (hover_rand_ok 3 20) Ii Hf E S R) as T.
  cbv zeta in T. rewrite <- El in T. cbn [restart] in T.
  destruct T as (cs1 & cs2 & D1 & D2 & M).
  exists g, l, l', g', cs1, cs2.
  split; [reflexivity|]. split; [rewrite <- Eg; reflexivity|]. split; [exact S|].
  split; [rewrite <- Sl; vm_compute; reflexivity|].
  split; [exact D1|]. split; [exact D2|].
  assert (C1 := D1). rewrite <- Eg in C1. vm_compute in C1. injection C1 as C1.
  split; [|split; [|exact M]]; rewrite <- C1; unfold FLAPPY_COL;
    repeat (first [left; reflexivity | right]).
Defined.
